(** * twimp.dispatch: command / event dispatch and transaction tracking

    A shallow embedding of [twimp/dispatch.py].  Python objects that are
    shared by reference (Twisted [Deferred]s, [SharedObject] instances, the
    reactor's delayed calls) live in stores indexed by their identity; every
    method is a function in a state-and-exception monad over the protocol
    instance, so that an exception leaves the mutations made before it in
    place, as in Python.

    Stream ids and transaction ids are integers, status codes are strings,
    and a Deferred carries no callbacks of the application.  The dicts are
    finite maps; where the source iterates over one, the order is the one
    of [map_to_list], and nothing proved below depends on it.  The codec,
    [repr], the clock and the [remote_*] methods of a subclass are
    parameters ([Externals], and the [now] argument of the methods that
    read the session time). *)

From Stdlib Require Import ZArith.
From stdpp Require Import gmap strings list fin_maps.

Set Warnings "-register-all".

(** ** Values, exceptions and effects *)

(** Python / AMF0 values that travel through the dispatcher.  Numbers are
    the integral ones; [VDeferred] and [VSharedObject] are references. *)
Inductive PyVal : Type :=
| VNone
| VBool (b : bool)
| VInt (n : Z)
| VStr (s : string)
| VTuple (items : list PyVal)
| VList (items : list PyVal)
| VObject (fields : list (string * PyVal))
| VDeferred (d : nat)
| VSharedObject (o : nat).

(** Exception classes raised or passed around by the module. *)
Inductive Exn : Type :=
| AlreadyCalledError
| AlreadyCancelled
| AlreadyCalled
| AssertionError (msg : string)
| AttributeError (attr : string)
| IndexError
| KeyError
| TypeError
| SystemError (msg : string)
| DecoderError
| CommandResultError (args : list PyVal)
| ProtocolContractError (cause : Exn)
| UnexpectedStatusError (info : PyVal)
| CallAbortedException (msg : string)
| CallResultError (error_args : list PyVal) (is_fatal : bool)
| NotImplementedError (msg : string)
| NoCurrentExceptionError
| ConnectionDone
| OtherError (name : string).

(** State of a Twisted [Deferred] that has no user callbacks attached. *)
Inductive DState : Type :=
| Pending
| Fulfilled (v : PyVal)
| Failed (e : Exn).

(** [const.SO_EVENT_TYPE_*]; the numeric values are not needed, only that
    the constants are distinct keys of [SharedObject._dispatcher]. *)
Inductive SOEventType : Type :=
| SO_EVENT_TYPE_USE
| SO_EVENT_TYPE_RELEASE
| SO_EVENT_TYPE_CHANGE
| SO_EVENT_TYPE_CLEAR
| SO_EVENT_TYPE_MESSAGE
| SO_EVENT_TYPE_DELETE
| SO_EVENT_TYPE_USE_SUCCESS
| SO_EVENT_TYPE_OTHER (n : Z).

(** A shared-object event, the dict [{'type': ..., 'data': ...}]. *)
Record SOEvent : Type := { ev_type : SOEventType; ev_data : string }.

Inductive MsgType : Type := MSG_COMMAND | MSG_SO.

Inductive LogLevel : Type := LDebug | LInfo | LWarning.

Inductive LogRecord : Type :=
| LogSOUnparsed (name : string) (event : SOEvent)
| LogDecodeFailed (e : Exn)
| LogOnChange (key value : PyVal)
| LogOnDelete (key : PyVal)
| LogUnknownSharedObject (name : string) (events : list SOEvent)
| LogUnexpectedResult (ts ms_id trans_id : Z) (args : list PyVal)
| LogUnexpectedError (ts ms_id trans_id : Z) (args : list PyVal)
| LogUnhandledOnStatus (ts ms_id : Z) (info : PyVal)
| LogCallAborted (e : Exn)
| LogCallFailure (e : Exn)
| LogUnknownMethod (cmd : string) (args : list PyVal).

(** What the protocol does to its collaborators, in program order. *)
Inductive Effect : Type :=
| SendMessage (ts : Z) (mtype : MsgType) (ms_id : Z) (body : string)
| LoseConnection
| Log (level : LogLevel) (record : LogRecord)
| BaseConnectionLost (reason : option Exn).

(** ** Object state *)

(** [SharedObject]: the three notification channels are references. *)
Record SharedObject : Type := {
  so_name : string;
  so_readyd : nat;
  so_deleted : nat;
  so_changed : nat;
  so_persistance : bool
}.

Inductive CommandHandler : Type := H_result | H_error | H_onStatus.

(** The two calls [doCommand] schedules, with their arguments.  A decoded
    command is [cmd, trans_id, *args]: a name, a number, then values. *)
Inductive Scheduled : Type :=
| SchedUnknownCommandType (cmd : string) (ts ms_id trans_id : Z) (args : list PyVal)
| SchedHandlerWrapper (h : CommandHandler) (ts ms_id trans_id : Z) (args : list PyVal).

Inductive CallStatus : Type := CallActive | CallCancelled | CallFired.

#[global] Instance CallStatus_eq_dec : EqDecision CallStatus.
Proof. solve_decision. Defined.

(** A reactor [DelayedCall] made by [CancellableCallQueue.callLater]. *)
Record DelayedCall : Type := {
  dc_status : CallStatus;
  dc_call_key : nat;
  dc_f : Scheduled
}.

Record CancellableCallQueue : Type := {
  ccq_pending : gmap nat nat;
  ccq_next_key : nat
}.

Record DeferredTracker : Type := {
  trk_pending : gmap Z (gmap Z nat);
  trk_next_trans_id : gmap Z Z
}.

(** Key of a status waiter queue: [(None, ms_id)]. *)
Abbreviation EvKey := (option Z * Z)%type.

(** One protocol instance together with the objects it references. *)
Record Proto : Type := {
  heap : list DState;
  so_store : list SharedObject;
  reactor : list DelayedCall;
  cc_queue : CancellableCallQueue;
  call_tracker : DeferredTracker;
  events : gmap EvKey (list (option string * nat));
  shared_objs : gmap string nat;
  trace : list Effect
}.

Definition set_heap (x : list DState) (p : Proto) : Proto :=
  {| heap := x; so_store := so_store p; reactor := reactor p;
     cc_queue := cc_queue p; call_tracker := call_tracker p;
     events := events p; shared_objs := shared_objs p; trace := trace p |}.
Definition set_so_store (x : list SharedObject) (p : Proto) : Proto :=
  {| heap := heap p; so_store := x; reactor := reactor p;
     cc_queue := cc_queue p; call_tracker := call_tracker p;
     events := events p; shared_objs := shared_objs p; trace := trace p |}.
Definition set_reactor (x : list DelayedCall) (p : Proto) : Proto :=
  {| heap := heap p; so_store := so_store p; reactor := x;
     cc_queue := cc_queue p; call_tracker := call_tracker p;
     events := events p; shared_objs := shared_objs p; trace := trace p |}.
Definition set_cc_queue (x : CancellableCallQueue) (p : Proto) : Proto :=
  {| heap := heap p; so_store := so_store p; reactor := reactor p;
     cc_queue := x; call_tracker := call_tracker p;
     events := events p; shared_objs := shared_objs p; trace := trace p |}.
Definition set_call_tracker (x : DeferredTracker) (p : Proto) : Proto :=
  {| heap := heap p; so_store := so_store p; reactor := reactor p;
     cc_queue := cc_queue p; call_tracker := x;
     events := events p; shared_objs := shared_objs p; trace := trace p |}.
Definition set_events (x : gmap EvKey (list (option string * nat))) (p : Proto) : Proto :=
  {| heap := heap p; so_store := so_store p; reactor := reactor p;
     cc_queue := cc_queue p; call_tracker := call_tracker p;
     events := x; shared_objs := shared_objs p; trace := trace p |}.
Definition set_shared_objs (x : gmap string nat) (p : Proto) : Proto :=
  {| heap := heap p; so_store := so_store p; reactor := reactor p;
     cc_queue := cc_queue p; call_tracker := call_tracker p;
     events := events p; shared_objs := x; trace := trace p |}.
Definition set_trace (x : list Effect) (p : Proto) : Proto :=
  {| heap := heap p; so_store := so_store p; reactor := reactor p;
     cc_queue := cc_queue p; call_tracker := call_tracker p;
     events := events p; shared_objs := shared_objs p; trace := x |}.

(** The instance right after [CallDispatchProtocol.__init__]. *)
Definition init : Proto :=
  {| heap := []; so_store := []; reactor := [];
     cc_queue := {| ccq_pending := ∅; ccq_next_key := 0 |};
     call_tracker := {| trk_pending := ∅; trk_next_trans_id := ∅ |};
     events := ∅; shared_objs := ∅; trace := [] |}.

(** ** The state-and-exception monad *)

Inductive Res (A : Type) : Type :=
| Ok (a : A) (st : Proto)
| Raise (e : Exn) (st : Proto).
Arguments Ok {A} a st.
Arguments Raise {A} e st.

Definition M (A : Type) : Type := Proto -> Res A.

Definition ret {A} (a : A) : M A := fun st => Ok a st.
Definition raise {A} (e : Exn) : M A := fun st => Raise e st.
Definition bind {A B} (m : M A) (k : A -> M B) : M B :=
  fun st => match m st with
            | Ok a st' => k a st'
            | Raise e st' => Raise e st'
            end.
Definition gets {A} (f : Proto -> A) : M A := fun st => Ok (f st) st.
Definition modify (f : Proto -> Proto) : M unit := fun st => Ok tt (f st).

Notation "x <~ m ;; k" := (bind m (fun x => k))
  (at level 100, m at next level, right associativity).
Notation "m ;;; k" := (bind m (fun _ => k))
  (at level 100, right associativity).

(** [for x in l: f(x)] *)
Fixpoint for_each {A} (l : list A) (f : A -> M unit) : M unit :=
  match l with
  | [] => ret tt
  | x :: l' => f x ;;; for_each l' f
  end.

(** [assert cond, msg] *)
Definition assert (cond : bool) (msg : string) : M unit :=
  if cond then ret tt else raise (AssertionError msg).

(** The state an operation leaves behind, returned or raised. *)
Definition final {A} (r : Res A) : Proto :=
  match r with Ok _ st => st | Raise _ st => st end.

Definition emit (e : Effect) : M unit :=
  modify (fun st => set_trace (trace st ++ [e]) st).

(** How a call ends, and what a Deferred chain carries: a value or a
    failure. *)
Inductive Outcome : Type :=
| Returned (v : PyVal)
| Raised (e : Exn).

(** What an [inlineCallbacks] function hands back: a Deferred that has
    already failed, has already a value, or that resolves when the Deferred
    the generator is suspended on does, with that one's result. *)
Inductive InlineResult : Type :=
| InlineFailed (e : Exn)
| InlineReturned (v : PyVal)
| InlineAwaiting (d : nat).

(** ** twisted.internet.defer.Deferred *)
Module Deferred.

(** [defer.Deferred()] *)
Definition new : M nat :=
  fun st => Ok (length (heap st)) (set_heap (heap st ++ [Pending]) st).

(** Firing raises [AlreadyCalledError] on a Deferred that has a result. *)
Definition fire (d : nat) (r : DState) : M unit :=
  fun st => match heap st !! d with
            | Some Pending => Ok tt (set_heap (<[d := r]> (heap st)) st)
            | _ => Raise AlreadyCalledError st
            end.

Definition callback (d : nat) (v : PyVal) : M unit := fire d (Fulfilled v).
Definition errback (d : nat) (e : Exn) : M unit := fire d (Failed e).

(** [d.errback(reason)] with a reason that may be [None]: building a
    Failure outside an [except] block raises. *)
Definition errback_reason (d : nat) (reason : option Exn) : M unit :=
  match reason with
  | Some e => errback d e
  | None => raise NoCurrentExceptionError
  end.

(** A callback chain: [(callback, errback)] pairs, [None] passing the
    result through.  A handler's return value is the next result, an
    exception it raises the next failure. *)
Fixpoint run_callbacks
    (chain : list (option (PyVal -> M PyVal) * option (Exn -> M PyVal)))
    (r : Outcome) : M Outcome :=
  match chain with
  | [] => ret r
  | (cb, eb) :: rest =>
      let h := match r with
               | Returned v => (fun f => f v) <$> cb
               | Raised e => (fun f => f e) <$> eb
               end in
      match h with
      | None => run_callbacks rest r
      | Some m =>
          fun st => match m st with
                    | Ok v st' => run_callbacks rest (Returned v) st'
                    | Raise e st' => run_callbacks rest (Raised e) st'
                    end
      end
  end.

(** [yield d] inside an [inlineCallbacks] generator whose value is then
    returned: resumes at once when [d] has a result. *)
Definition await (d : nat) : M InlineResult :=
  gets (fun st => match heap st !! d with
                  | Some (Fulfilled v) => InlineReturned v
                  | Some (Failed e) => InlineFailed e
                  | _ => InlineAwaiting d
                  end).

(** [@defer.inlineCallbacks]: an exception leaving the generator fails
    the returned Deferred instead of reaching the caller. *)
Definition inlineCallbacks (body : M InlineResult) : M InlineResult :=
  fun st => match body st with
            | Ok r st' => Ok r st'
            | Raise e st' => Ok (InlineFailed e) st'
            end.

End Deferred.

(** ** DeferredTracker *)
Module DeferredTracker.

Definition init_trans_id : Z := 1.

Definition next_trans (key : Z) (t : DeferredTracker) : Z * DeferredTracker :=
  let trans_id := default init_trans_id (trk_next_trans_id t !! key) in
  (trans_id,
   {| trk_pending := trk_pending t;
      trk_next_trans_id := <[key := (trans_id + 1)%Z]> (trk_next_trans_id t) |}).

Definition push_deferred (key trans_id : Z) (d : nat) (t : DeferredTracker)
  : DeferredTracker :=
  let key_queue := default ∅ (trk_pending t !! key) in
  {| trk_pending := <[key := <[trans_id := d]> key_queue]> (trk_pending t);
     trk_next_trans_id := trk_next_trans_id t |}.

(** [if key_queue:] is false for a missing and for an empty dict; only a
    non-empty one is popped from (and stays in [_pending], mutated). *)
Definition pop_deferred (key trans_id : Z) (t : DeferredTracker)
  : option nat * DeferredTracker :=
  match trk_pending t !! key with
  | Some key_queue =>
      if decide (key_queue = ∅) then (None, t)
      else (key_queue !! trans_id,
            {| trk_pending := <[key := delete trans_id key_queue]> (trk_pending t);
               trk_next_trans_id := trk_next_trans_id t |})
  | None => (None, t)
  end.

Definition iter_all (t : DeferredTracker) : list (Z * nat) :=
  map_to_list (trk_pending t) ≫=
    (fun kq => (fun td => (kq.1, td.2)) <$> map_to_list kq.2).

Definition clear (t : DeferredTracker) : DeferredTracker :=
  {| trk_pending := ∅; trk_next_trans_id := trk_next_trans_id t |}.

Definition reset (t : DeferredTracker) : DeferredTracker :=
  {| trk_pending := trk_pending t; trk_next_trans_id := ∅ |}.

End DeferredTracker.

(** ** StatusEventTracker *)
Module StatusEventTracker.

Definition add (key : EvKey) (code : option string) (d : nat)
    (ev : gmap EvKey (list (option string * nat)))
  : gmap EvKey (list (option string * nat)) :=
  <[key := default [] (ev !! key) ++ [(code, d)]]> ev.

(** [None] stands for the pair [(None, None)] of a miss. *)
Definition pop (key : EvKey) (ev : gmap EvKey (list (option string * nat)))
  : option (option string * nat) * gmap EvKey (list (option string * nat)) :=
  match ev !! key with
  | Some (w :: q) => (Some w, <[key := q]> ev)
  | _ => (None, ev)
  end.

(** The generator holds the old dict; the attribute is rebound at once. *)
Definition pop_all (ev : gmap EvKey (list (option string * nat)))
  : list (option string * nat) * gmap EvKey (list (option string * nat)) :=
  (map_to_list ev ≫= snd, ∅).

Definition wait (key : EvKey) (code : option string) : M nat :=
  d <~ Deferred.new ;;
  modify (fun st => set_events (add key code d (events st)) st) ;;;
  ret d.

(** [if reason:] a Failure is truthy, [None] is not; without a reason
    the generator is dropped unconsumed and nobody is notified. *)
Definition cancel_all (reason : option Exn) : M unit :=
  waiting <~ gets (fun st => (pop_all (events st)).1) ;;
  modify (fun st => set_events (pop_all (events st)).2 st) ;;;
  match reason with
  | Some r => for_each waiting (fun w => Deferred.errback w.2 r)
  | None => ret tt
  end.

(** [info.code] on a decoded status object. *)
Definition getattr_code (info : PyVal) : Exn + PyVal :=
  match info with
  | VObject fields =>
      match list_find (fun f => f.1 = "code") fields with
      | Some (_, f) => inr f.2
      | None => inl (AttributeError "code")
      end
  | _ => inl (AttributeError "code")
  end.

(** [evt_code == code] for an expected code that is a string. *)
Definition code_eq (evt_code : PyVal) (code : string) : bool :=
  match evt_code with
  | VStr s => bool_decide (s = code)
  | _ => false
  end.

Definition dispatch (key : EvKey) (info : PyVal) (miss_h : option (M unit))
  : M unit :=
  w <~ gets (fun st => (pop key (events st)).1) ;;
  modify (fun st => set_events (pop key (events st)).2 st) ;;;
  match w with
  | None =>
      match miss_h with
      | Some h => h
      | None => ret tt
      end
  | Some (code, d) =>
      match getattr_code info with
      | inl e => Deferred.errback d (ProtocolContractError e)
      | inr evt_code =>
          match code with
          | None => Deferred.callback d info
          | Some c =>
              if code_eq evt_code c then Deferred.callback d info
              else Deferred.errback d (UnexpectedStatusError info)
          end
      end
  end.

End StatusEventTracker.

(** ** The reactor's delayed calls and CancellableCallQueue *)
Module DelayedCalls.

(** [reactor.callLater(delay, ...)]: a new active call; its handle. *)
Definition callLater (call_key : nat) (f : Scheduled) : M nat :=
  fun st => Ok (length (reactor st))
               (set_reactor (reactor st ++
                  [{| dc_status := CallActive; dc_call_key := call_key;
                      dc_f := f |}]) st).

Definition active (clid : nat) : M bool :=
  gets (fun st => match reactor st !! clid with
                  | Some {| dc_status := CallActive |} => true
                  | _ => false
                  end).

Definition set_status (s : CallStatus) (dc : DelayedCall) : DelayedCall :=
  {| dc_status := s; dc_call_key := dc_call_key dc; dc_f := dc_f dc |}.

Definition cancel (clid : nat) : M unit :=
  fun st => match reactor st !! clid with
            | Some dc =>
                match dc_status dc with
                | CallActive =>
                    Ok tt (set_reactor
                             (<[clid := set_status CallCancelled dc]> (reactor st)) st)
                | CallCancelled => Raise AlreadyCancelled st
                | CallFired => Raise AlreadyCalled st
                end
            | None => Raise AlreadyCalled st
            end.

End DelayedCalls.

Module CancellableCallQueue.

Definition callLater (f : Scheduled) : M (nat * nat) :=
  call_key <~ gets (fun st => ccq_next_key (cc_queue st)) ;;
  modify (fun st => set_cc_queue
                      {| ccq_pending := ccq_pending (cc_queue st);
                         ccq_next_key := call_key + 1 |} st) ;;;
  clid <~ DelayedCalls.callLater call_key f ;;
  modify (fun st => set_cc_queue
                      {| ccq_pending := <[call_key := clid]> (ccq_pending (cc_queue st));
                         ccq_next_key := ccq_next_key (cc_queue st) |} st) ;;;
  ret (call_key, clid).

Definition cancel (call_key clid : nat) : M unit :=
  modify (fun st => set_cc_queue
                      {| ccq_pending := delete call_key (ccq_pending (cc_queue st));
                         ccq_next_key := ccq_next_key (cc_queue st) |} st) ;;;
  DelayedCalls.cancel clid.

(** [_call_wrapper]: [del self.pending[call_key]], then the call. *)
Definition _call_wrapper (call_key : nat) (f : M unit) : M unit :=
  present <~ gets (fun st => ccq_pending (cc_queue st) !! call_key) ;;
  match present with
  | None => raise KeyError
  | Some _ =>
      modify (fun st => set_cc_queue
                          {| ccq_pending := delete call_key (ccq_pending (cc_queue st));
                             ccq_next_key := ccq_next_key (cc_queue st) |} st) ;;;
      f
  end.

Definition cancel_all : M unit :=
  remaining <~ gets (fun st => map_to_list (ccq_pending (cc_queue st))) ;;
  modify (fun st => set_cc_queue
                      {| ccq_pending := ∅;
                         ccq_next_key := ccq_next_key (cc_queue st) |} st) ;;;
  for_each remaining (fun kc =>
    a <~ DelayedCalls.active kc.2 ;;
    if a : bool then DelayedCalls.cancel kc.2 else ret tt).

End CancellableCallQueue.

(** ** External collaborators *)

(** The codec ([twimp.amf0]), [repr], and the [remote_*] methods a
    subclass defines; a remote method is taken by its outcome alone. *)
Record Externals : Type := {
  amf0_encode : list PyVal -> string;
  amf0_encode_so_update : string -> string -> list SOEvent -> string;
  amf0_decode_so_event_change_data : string -> Exn + list (PyVal * PyVal);
  amf0_decode_string : string -> Exn + PyVal;
  py_repr : PyVal -> string;
  py_repr_exn : Exn -> string;
  remote_method : string -> option (Z -> Z -> list PyVal -> Outcome)
}.

(** [muxer.sendMessage(ts, type, ms_id, body)] *)
Definition sendMessage (ts : Z) (mtype : MsgType) (ms_id : Z) (body : string)
  : M unit :=
  emit (SendMessage ts mtype ms_id body).

(** Turns what an external call raised or returned into the monad. *)
Definition lift_ext {A} (r : Exn + A) : M A :=
  match r with
  | inl e => raise e
  | inr a => ret a
  end.

(** ** SharedObject *)
Module SharedObject.
Section WithExternals.
Variable E : Externals.

(** [SharedObject(name, persistance)]: three fresh Deferreds. *)
Definition new (name : string) (persistance : bool) : M nat :=
  readyd <~ Deferred.new ;;
  deleted <~ Deferred.new ;;
  changed <~ Deferred.new ;;
  fun st => Ok (length (so_store st))
               (set_so_store (so_store st ++
                  [{| so_name := name; so_readyd := readyd;
                      so_deleted := deleted; so_changed := changed;
                      so_persistance := persistance |}]) st).

(** Reads [self]; identities outside the store are never handed out. *)
Definition self (o : nat) : M SharedObject :=
  fun st => match so_store st !! o with
            | Some so => Ok so st
            | None => Raise (AttributeError "self") st
            end.

Definition unhandledEvent (o : nat) (event : SOEvent) : M unit :=
  so <~ self o ;;
  emit (Log LWarning (LogSOUnparsed (so_name so) event)).

Definition onChange (o : nat) (key_name value : PyVal) : M unit :=
  emit (Log LDebug (LogOnChange key_name value)) ;;;
  so <~ self o ;;
  fresh <~ Deferred.new ;;
  modify (fun st => set_so_store
                      (<[o := {| so_name := so_name so; so_readyd := so_readyd so;
                                 so_deleted := so_deleted so; so_changed := fresh;
                                 so_persistance := so_persistance so |}]>
                         (so_store st)) st) ;;;
  Deferred.callback (so_changed so) (VTuple [VDeferred fresh; key_name; value]).

Definition onChangeRaw (o : nat) (event : string) : M unit :=
  match amf0_decode_so_event_change_data E event with
  | inl DecoderError => emit (Log LWarning (LogDecodeFailed DecoderError))
  | inl e => raise e
  | inr change_dict =>
      match change_dict with
      | [] => raise IndexError
      | (key, value) :: _ => onChange o key value
      end
  end.

Definition onClear (o : nat) (event : string) : M unit :=
  assert (bool_decide (String.length event = 0))
         "Event data of clear must be empty".

Definition onDelete (o : nat) (key_name : PyVal) : M unit :=
  emit (Log LDebug (LogOnDelete key_name)) ;;;
  so <~ self o ;;
  fresh <~ Deferred.new ;;
  modify (fun st => set_so_store
                      (<[o := {| so_name := so_name so; so_readyd := so_readyd so;
                                 so_deleted := fresh; so_changed := so_changed so;
                                 so_persistance := so_persistance so |}]>
                         (so_store st)) st) ;;;
  Deferred.callback (so_deleted so) (VTuple [VDeferred fresh; key_name]).

Definition onDeleteRaw (o : nat) (event : string) : M unit :=
  assert (negb (bool_decide (String.length event = 0)))
         "Cannot call onDelete without data" ;;;
  key_name <~ lift_ext (amf0_decode_string E event) ;;
  onDelete o key_name.

Definition onMessage (o : nat) (event : string) : M unit := ret tt.

Definition onUseSuccess (o : nat) (event : string) : M unit :=
  assert (bool_decide (String.length event = 0))
         "Event data of success must be empty" ;;;
  so <~ self o ;;
  Deferred.callback (so_readyd so) (VSharedObject o).

(** [self._dispatcher.get(event['type'], None)] and the call. *)
Definition onEvent (o : nat) (event : SOEvent) : M unit :=
  match ev_type event with
  | SO_EVENT_TYPE_CHANGE => onChangeRaw o (ev_data event)
  | SO_EVENT_TYPE_CLEAR => onClear o (ev_data event)
  | SO_EVENT_TYPE_MESSAGE => onMessage o (ev_data event)
  | SO_EVENT_TYPE_DELETE => onDeleteRaw o (ev_data event)
  | SO_EVENT_TYPE_USE_SUCCESS => onUseSuccess o (ev_data event)
  | _ => unhandledEvent o event
  end.

End WithExternals.
End SharedObject.

(** ** CommandDispatchProtocol

    The methods are those of a [CallDispatchProtocol] instance; where a
    subclass overrides one, both are given under their class. *)
Module CommandDispatchProtocol.
Section WithExternals.
Variable E : Externals.

(** [getattr(self, 'command_%s' % (cmd,), None)] *)
Definition command_handler (cmd : string) : option CommandHandler :=
  if decide (cmd = "_result") then Some H_result
  else if decide (cmd = "_error") then Some H_error
  else if decide (cmd = "onStatus") then Some H_onStatus
  else None.

(** [args] of the source is [cmd :: trans_id :: args] here. *)
Definition doCommand (ts ms_id : Z) (cmd : string) (trans_id : Z)
    (args : list PyVal) : M unit :=
  match command_handler cmd with
  | None =>
      _ <~ CancellableCallQueue.callLater
             (SchedUnknownCommandType cmd ts ms_id trans_id args) ;;
      ret tt
  | Some handler_m =>
      _ <~ CancellableCallQueue.callLater
             (SchedHandlerWrapper handler_m ts ms_id trans_id args) ;;
      ret tt
  end.

Definition unknownSharedObject (ts ms_id : Z) (obj_name : string)
    (evs : list SOEvent) : M unit :=
  emit (Log LWarning (LogUnknownSharedObject obj_name evs)).

Definition doSharedObj (ts ms_id : Z) (obj_name : string)
    (evs : list SOEvent) : M unit :=
  reg <~ gets shared_objs ;;
  match reg !! obj_name with
  | None => unknownSharedObject ts ms_id obj_name evs
  | Some so => for_each evs (fun e => SharedObject.onEvent E so e)
  end.

Definition unexpectedCallResult (ts ms_id trans_id : Z) (args : list PyVal)
  : M unit :=
  emit (Log LWarning (LogUnexpectedResult ts ms_id trans_id args)).

Definition unexpectedCallError (ts ms_id trans_id : Z) (args : list PyVal)
  : M unit :=
  emit (Log LWarning (LogUnexpectedError ts ms_id trans_id args)).

(** [self._call_tracker.pop_deferred(ms_id, trans_id)] *)
Definition pop_deferred (ms_id trans_id : Z) : M (option nat) :=
  d <~ gets (fun st => (DeferredTracker.pop_deferred ms_id trans_id
                          (call_tracker st)).1) ;;
  modify (fun st => set_call_tracker
                      (DeferredTracker.pop_deferred ms_id trans_id
                         (call_tracker st)).2 st) ;;;
  ret d.

Definition command__result (ts ms_id trans_id : Z) (args : list PyVal)
  : M unit :=
  d <~ pop_deferred ms_id trans_id ;;
  match d with
  | Some d => Deferred.callback d (VTuple args)
  | None => unexpectedCallResult ts ms_id trans_id args
  end.

Definition command__error (ts ms_id trans_id : Z) (args : list PyVal)
  : M unit :=
  d <~ pop_deferred ms_id trans_id ;;
  match d with
  | Some d => Deferred.errback d (CommandResultError args)
  | None => unexpectedCallError ts ms_id trans_id args
  end.

(** The class's own [unknownCommandType], overridden further down. *)
Definition unknownCommandType (cmd : string) (ts ms_id trans_id : Z)
    (args : list PyVal) : M unit :=
  raise (NotImplementedError
           ("unknown command " +:+ py_repr E (VStr cmd) +:+
            py_repr E (VTuple [VInt ts; VInt ms_id; VList (VInt trans_id :: args)]))).

Definition connectionLost (reason : option Exn) : M unit :=
  CancellableCallQueue.cancel_all ;;;
  pending_calls <~ gets (fun st => DeferredTracker.iter_all (call_tracker st)) ;;
  modify (fun st => set_call_tracker (DeferredTracker.clear (call_tracker st)) st) ;;;
  for_each pending_calls (fun kd => Deferred.errback_reason kd.2 reason) ;;;
  emit (BaseConnectionLost reason).

Definition encode_amf (args : list PyVal) : string := amf0_encode E args.

Definition _send_command (ts ms_id : Z) (body : string) (track_id : Z)
  : M (option nat) :=
  d <~ (if decide (track_id = 0%Z) then ret None
        else d <~ Deferred.new ;;
             modify (fun st => set_call_tracker
                                 (DeferredTracker.push_deferred ms_id track_id d
                                    (call_tracker st)) st) ;;;
             ret (Some d)) ;;
  sendMessage 0 MSG_COMMAND ms_id body ;;;
  ret d.

Definition next_trans (ms_id : Z) : M Z :=
  r <~ gets (fun st => (DeferredTracker.next_trans ms_id (call_tracker st)).1) ;;
  modify (fun st => set_call_tracker
                      (DeferredTracker.next_trans ms_id (call_tracker st)).2 st) ;;;
  ret r.

Definition _sendRemote (ms_id : Z) (cmd : string) (args : list PyVal)
    (track : bool) : M (option nat) :=
  trans_id <~ (if track then next_trans ms_id else ret 0%Z) ;;
  let encoded_args := encode_amf (VStr cmd :: VInt trans_id :: args) in
  _send_command 0 ms_id encoded_args trans_id.

Definition callRemote (ms_id : Z) (cmd : string) (args : list PyVal)
  : M (option nat) :=
  _sendRemote ms_id cmd args true.

Definition signalRemote (ms_id : Z) (cmd : string) (args : list PyVal)
  : M (option nat) :=
  _sendRemote ms_id cmd args false.

Definition so_flags (persistance : bool) : string :=
  String.string_of_list_ascii
    (Ascii.ascii_of_nat <$>
       (if persistance then [0; 0; 0; 2; 0; 0; 0; 0]
        else [0; 0; 0; 0; 0; 0; 0; 0])).

(** [self.muxer] belongs to the transport layer.  The two generators
    below change the registry and then call the muxer; they are written
    over any [sendMessage] the muxer may have, one that returns or one
    that raises, so that the instance the muxer is called on can be
    stated.  [now] is [ms_time_wrapped(self.session_time())] at the
    call. *)
Definition useSharedObject_over
    (muxer_sendMessage : Z -> MsgType -> Z -> string -> M unit)
    (ms_id : Z) (obj_name : string) (persistance : bool) (now : Z)
  : M InlineResult :=
  Deferred.inlineCallbacks (
    reg <~ gets shared_objs ;;
    match reg !! obj_name with
    | Some _ =>
        raise (SystemError ("Shared object " +:+ obj_name +:+ " already in use"))
    | None =>
        let evs := [{| ev_type := SO_EVENT_TYPE_USE; ev_data := "" |}] in
        let body := amf0_encode_so_update E obj_name (so_flags persistance) evs in
        so <~ SharedObject.new obj_name persistance ;;
        modify (fun st => set_shared_objs (<[obj_name := so]> (shared_objs st)) st) ;;;
        muxer_sendMessage now MSG_SO ms_id body ;;;
        readyd <~ (s <~ SharedObject.self so ;; ret (so_readyd s)) ;;
        Deferred.await readyd
    end).

Definition releaseSharedObject_over
    (muxer_sendMessage : Z -> MsgType -> Z -> string -> M unit)
    (ms_id : Z) (obj_name : string) (now : Z)
  : M InlineResult :=
  Deferred.inlineCallbacks (
    reg <~ gets shared_objs ;;
    match reg !! obj_name with
    | None =>
        raise (SystemError ("Shared object " +:+ obj_name +:+ " does not exists"))
    | Some so =>
        s <~ SharedObject.self so ;;
        let evs := [{| ev_type := SO_EVENT_TYPE_RELEASE; ev_data := "" |}] in
        let body := amf0_encode_so_update E obj_name
                      (so_flags (so_persistance s)) evs in
        modify (fun st => set_shared_objs (delete obj_name (shared_objs st)) st) ;;;
        muxer_sendMessage now MSG_SO ms_id body ;;;
        ret (InlineReturned VNone)
    end).

(** The two generators on the muxer of the model, which records the
    message and returns. *)
Definition useSharedObject (ms_id : Z) (obj_name : string)
    (persistance : bool) (now : Z) : M InlineResult :=
  useSharedObject_over sendMessage ms_id obj_name persistance now.

Definition releaseSharedObject (ms_id : Z) (obj_name : string) (now : Z)
  : M InlineResult :=
  releaseSharedObject_over sendMessage ms_id obj_name now.

End WithExternals.
End CommandDispatchProtocol.

(** ** EventDispatchProtocol *)
Module EventDispatchProtocol.
Section WithExternals.
Variable E : Externals.

Definition _onStatus_ev_key (ms_id : Z) : EvKey := (None, ms_id).

Definition waitStatus (ms_id : Z) (code : option string) : M nat :=
  StatusEventTracker.wait (_onStatus_ev_key ms_id) code.

Definition unhandledOnStatus (ts ms_id : Z) (info : PyVal) : M unit :=
  emit (Log LWarning (LogUnhandledOnStatus ts ms_id info)).

Definition command_onStatus (ts ms_id trans_id : Z) (none_ info : PyVal)
  : M unit :=
  let miss_handler := unhandledOnStatus ts ms_id info in
  StatusEventTracker.dispatch (_onStatus_ev_key ms_id) info (Some miss_handler).

Definition connectionLost (reason : option Exn) : M unit :=
  StatusEventTracker.cancel_all reason ;;;
  CommandDispatchProtocol.connectionLost reason.

End WithExternals.
End EventDispatchProtocol.

(** ** CallDispatchProtocol *)
Module CallDispatchProtocol.
Section WithExternals.
Variable E : Externals.

(** Raises, after the warning; [maybeDeferred] turns it into a failure. *)
Definition unknownRemoteCall (cmd : string) (ts ms_id : Z)
    (args : list PyVal) : M Outcome :=
  emit (Log LWarning (LogUnknownMethod cmd args)) ;;;
  ret (Raised (CallAbortedException ("unknown command " +:+ py_repr E (VStr cmd)))).

(** [failure.trap(CallAbortedException)] re-raises any other failure. *)
Definition _remote_abort_handler_eb (failure : Exn) : M PyVal :=
  match failure with
  | CallAbortedException _ =>
      emit (Log LDebug (LogCallAborted failure)) ;;; ret VNone
  | _ => raise failure
  end.

Definition _remote_handler_cb (result : PyVal) (ms_id trans_id now : Z)
  : M PyVal :=
  let result := match result with
                | VTuple items | VList items => items
                | _ => [result]
                end in
  let body := CommandDispatchProtocol.encode_amf E
                (VStr "_result" :: VInt trans_id :: result) in
  sendMessage now MSG_COMMAND ms_id body ;;;
  ret VNone.

Definition _remote_handler_eb (failure : Exn) (ms_id trans_id now : Z)
  : M PyVal :=
  emit (Log LInfo (LogCallFailure failure)) ;;;
  let '(body, fatal) :=
    match failure with
    | CallResultError error_args is_fatal =>
        (CommandDispatchProtocol.encode_amf E
           (VStr "_error" :: VInt trans_id :: error_args), is_fatal)
    | _ =>
        let err := VObject [("code", VStr "NetStream.Failed");
                            ("level", VStr "error");
                            ("description", VStr (py_repr_exn E failure))] in
        (CommandDispatchProtocol.encode_amf E
           [VStr "_error"; VInt trans_id; VNone; err], false)
    end in
  sendMessage now MSG_COMMAND ms_id body ;;;
  (if fatal : bool then emit LoseConnection else ret tt) ;;;
  ret VNone.

(** The chain [unknownCommandType] attaches to the handler's Deferred. *)
Definition remote_chain (ms_id trans_id now : Z)
  : list (option (PyVal -> M PyVal) * option (Exn -> M PyVal)) :=
  (if decide (trans_id = 0%Z) then []
   else [(Some (fun result => _remote_handler_cb result ms_id trans_id now), None)])
  ++ [(None, Some _remote_abort_handler_eb);
      (None, Some (fun failure => _remote_handler_eb failure ms_id trans_id now))].

(** [args] of the source is [trans_id :: args] here; the result is what
    is left in the Deferred at the end of its chain. *)
Definition unknownCommandType (cmd : string) (ts ms_id trans_id : Z)
    (args : list PyVal) (now : Z) : M Outcome :=
  r <~ match remote_method E cmd with
       | None => unknownRemoteCall cmd ts ms_id args
       | Some handler_m => ret (handler_m ts ms_id args)
       end ;;
  Deferred.run_callbacks (remote_chain ms_id trans_id now) r.

(** [_handler_wrapper]: [handler(ts, ms_id, *args)]. *)
Definition _handler_wrapper (h : CommandHandler) (ts ms_id trans_id : Z)
    (args : list PyVal) : M unit :=
  match h with
  | H_result => CommandDispatchProtocol.command__result ts ms_id trans_id args
  | H_error => CommandDispatchProtocol.command__error ts ms_id trans_id args
  | H_onStatus =>
      match args with
      | [none_; info] =>
          EventDispatchProtocol.command_onStatus ts ms_id trans_id none_ info
      | _ => raise TypeError
      end
  end.

Definition run_scheduled (f : Scheduled) (now : Z) : M unit :=
  match f with
  | SchedUnknownCommandType cmd ts ms_id trans_id args =>
      _ <~ unknownCommandType cmd ts ms_id trans_id args now ;; ret tt
  | SchedHandlerWrapper h ts ms_id trans_id args =>
      _handler_wrapper h ts ms_id trans_id args
  end.

(** The reactor reaching delayed call [clid]: only an active call runs. *)
Definition reactor_fire (clid : nat) (now : Z) : M unit :=
  calls <~ gets reactor ;;
  match calls !! clid with
  | Some dc =>
      match dc_status dc with
      | CallActive =>
          modify (fun st => set_reactor
                              (<[clid := DelayedCalls.set_status CallFired dc]>
                                 (reactor st)) st) ;;;
          CancellableCallQueue._call_wrapper (dc_call_key dc)
            (run_scheduled (dc_f dc) now)
      | _ => ret tt
      end
  | None => ret tt
  end.

(** What can happen to a connection, one event at a time. *)
Inductive Op : Type :=
| OpDoCommand (ts ms_id : Z) (cmd : string) (trans_id : Z) (args : list PyVal)
| OpDoSharedObj (ts ms_id : Z) (obj_name : string) (evs : list SOEvent)
| OpReactorFire (clid : nat) (now : Z)
| OpCallRemote (ms_id : Z) (cmd : string) (args : list PyVal)
| OpSignalRemote (ms_id : Z) (cmd : string) (args : list PyVal)
| OpWaitStatus (ms_id : Z) (code : option string)
| OpUseSharedObject (ms_id : Z) (obj_name : string) (persistance : bool) (now : Z)
| OpReleaseSharedObject (ms_id : Z) (obj_name : string) (now : Z)
| OpConnectionLost (reason : option Exn).

Definition step (st : Proto) (op : Op) : Proto :=
  match op with
  | OpDoCommand ts ms_id cmd trans_id args =>
      final (CommandDispatchProtocol.doCommand ts ms_id cmd trans_id args st)
  | OpDoSharedObj ts ms_id obj_name evs =>
      final (CommandDispatchProtocol.doSharedObj E ts ms_id obj_name evs st)
  | OpReactorFire clid now => final (reactor_fire clid now st)
  | OpCallRemote ms_id cmd args =>
      final (CommandDispatchProtocol.callRemote E ms_id cmd args st)
  | OpSignalRemote ms_id cmd args =>
      final (CommandDispatchProtocol.signalRemote E ms_id cmd args st)
  | OpWaitStatus ms_id code =>
      final (EventDispatchProtocol.waitStatus ms_id code st)
  | OpUseSharedObject ms_id obj_name persistance now =>
      final (CommandDispatchProtocol.useSharedObject E ms_id obj_name
               persistance now st)
  | OpReleaseSharedObject ms_id obj_name now =>
      final (CommandDispatchProtocol.releaseSharedObject E ms_id obj_name now st)
  | OpConnectionLost reason =>
      final (EventDispatchProtocol.connectionLost reason st)
  end.

Definition run (ops : list Op) (st : Proto) : Proto := foldl step st ops.

End WithExternals.
End CallDispatchProtocol.

(** ** Specification vocabulary *)

Import CommandDispatchProtocol EventDispatchProtocol CallDispatchProtocol.

(** The pending entry for [(key, trans_id)], if any. *)
Definition tracked (key trans_id : Z) (t : DeferredTracker) : option nat :=
  trk_pending t !! key ≫= (fun key_queue => key_queue !! trans_id).

(** The waiters queued for [key], oldest first. *)
Definition waiters (key : EvKey) (ev : gmap EvKey (list (option string * nat)))
  : list (option string * nat) :=
  default [] (ev !! key).

Definition is_call_on (ms_id : Z) (op : Op) : bool :=
  match op with
  | OpCallRemote ms _ _ => bool_decide (ms = ms_id)
  | _ => false
  end.

(** How many tracked calls a run made on stream [ms_id]. *)
Definition count_calls (ms_id : Z) (ops : list Op) : nat :=
  length (filter (fun op => is_call_on ms_id op = true) ops).

(** [m] never leaves a state satisfying [P], returning or raising. *)
Definition preserves {A} (P : Proto -> Prop) (m : M A) : Prop :=
  forall st, P st -> P (final (m st)).

Definition next_id (ms_id : Z) (st : Proto) : Z :=
  default DeferredTracker.init_trans_id
          (trk_next_trans_id (call_tracker st) !! ms_id).

(** The state after a reply that found future [d] and left it as [r]. *)
Definition resolved (ms_id trans_id : Z) (d : nat) (r : DState) (st : Proto)
  : Proto :=
  set_heap (<[d := r]> (heap st))
    (set_call_tracker
       (DeferredTracker.pop_deferred ms_id trans_id (call_tracker st)).2 st).

(** The futures the two trackers hold, in the order [connectionLost]
    fails them. *)
Definition pending_futures (st : Proto) : list nat :=
  (snd <$> (StatusEventTracker.pop_all (events st)).1)
  ++ (snd <$> DeferredTracker.iter_all (call_tracker st)).

(** No future is held twice, and none of them has a result yet. *)
Definition futures_ok (st : Proto) : Prop :=
  NoDup (pending_futures st)
  /\ Forall (fun d => heap st !! d = Some Pending) (pending_futures st).

(** An active delayed call is registered in the queue under its key. *)
Definition queue_ok (st : Proto) : Prop :=
  forall clid dc,
    reactor st !! clid = Some dc -> dc_status dc = CallActive ->
    ccq_pending (cc_queue st) !! dc_call_key dc = Some clid.

Definition fail_all {A} (g : A -> nat) (r : DState) (l : list A)
    (h : list DState) : list DState :=
  foldl (fun h x => <[g x := r]> h) h l.

Definition cancel_one (rc : list DelayedCall) (clid : nat) : list DelayedCall :=
  match rc !! clid with
  | Some dc =>
      match dc_status dc with
      | CallActive => <[clid := DelayedCalls.set_status CallCancelled dc]> rc
      | _ => rc
      end
  | None => rc
  end.

(** The instance after [connectionLost(reason)] has run to its end. *)
Definition disconnected (reason : Exn) (st : Proto) : Proto :=
  {| heap :=
       fail_all snd (Failed reason) (DeferredTracker.iter_all (call_tracker st))
         (fail_all snd (Failed reason) (StatusEventTracker.pop_all (events st)).1
            (heap st));
     so_store := so_store st;
     reactor := foldl cancel_one (reactor st)
                  (snd <$> map_to_list (ccq_pending (cc_queue st)));
     cc_queue := {| ccq_pending := ∅;
                    ccq_next_key := ccq_next_key (cc_queue st) |};
     call_tracker := DeferredTracker.clear (call_tracker st);
     events := ∅;
     shared_objs := shared_objs st;
     trace := trace st ++ [BaseConnectionLost (Some reason)] |}.

(** What a popped waiter expecting [code] is left with by event [info]. *)
Definition status_outcome (code : option string) (info : PyVal) : DState :=
  match StatusEventTracker.getattr_code info with
  | inl e => Failed (ProtocolContractError e)
  | inr evt_code =>
      match code with
      | None => Fulfilled info
      | Some c =>
          if StatusEventTracker.code_eq evt_code c then Fulfilled info
          else Failed (UnexpectedStatusError info)
      end
  end.

Definition use_success : SOEvent :=
  {| ev_type := SO_EVENT_TYPE_USE_SUCCESS; ev_data := "" |}.

(** The instance once [useSharedObject] has created and registered the
    object, before the subscription message goes out. *)
Definition registered (obj_name : string) (persistance : bool) (st : Proto)
  : Proto :=
  {| heap := heap st ++ [Pending; Pending; Pending];
     so_store := so_store st ++
       [{| so_name := obj_name; so_readyd := length (heap st);
           so_deleted := S (length (heap st));
           so_changed := S (S (length (heap st)));
           so_persistance := persistance |}];
     reactor := reactor st; cc_queue := cc_queue st;
     call_tracker := call_tracker st; events := events st;
     shared_objs := <[obj_name := length (so_store st)]> (shared_objs st);
     trace := trace st |}.

(** The call queue's keys are below its counter, and it knows every
    active delayed call. *)
Definition queue_inv (st : Proto) : Prop :=
  queue_ok st
  /\ forall k c, ccq_pending (cc_queue st) !! k = Some c ->
                 k < ccq_next_key (cc_queue st).

(** Registered names refer to objects that exist. *)
Definition registry_inv (st : Proto) : Prop :=
  forall obj_name o,
    shared_objs st !! obj_name = Some o -> o < length (so_store st).

(** Future [d] is held by one of the two trackers. *)
Definition held (st : Proto) (d : nat) : Prop :=
  (exists ms_id trans_id, tracked ms_id trans_id (call_tracker st) = Some d)
  \/ (exists key, d ∈ (waiters key (events st)).*2).

(** Every held future is unresolved and is held in one place only, and
    the channels of the shared objects are futures of their own. *)
Definition futures_inv (st : Proto) : Prop :=
  (forall d, held st d -> heap st !! d = Some Pending)
  /\ (forall ms_id trans_id ms_id' trans_id' d,
        tracked ms_id trans_id (call_tracker st) = Some d ->
        tracked ms_id' trans_id' (call_tracker st) = Some d ->
        ms_id = ms_id' /\ trans_id = trans_id')
  /\ (forall key, NoDup (waiters key (events st)).*2)
  /\ (forall key key' d,
        d ∈ (waiters key (events st)).*2 ->
        d ∈ (waiters key' (events st)).*2 -> key = key')
  /\ (forall ms_id trans_id key d,
        tracked ms_id trans_id (call_tracker st) = Some d ->
        d ∉ (waiters key (events st)).*2)
  /\ (forall o so d,
        so_store st !! o = Some so ->
        d ∈ [so_readyd so; so_deleted so; so_changed so] ->
        d < length (heap st) /\ ~ held st d).

(** [self._changed = d] and [self._deleted = d] on a shared object. *)
Definition set_so_changed (d : nat) (so : SharedObject) : SharedObject :=
  {| so_name := so_name so; so_readyd := so_readyd so;
     so_deleted := so_deleted so; so_changed := d;
     so_persistance := so_persistance so |}.

Definition set_so_deleted (d : nat) (so : SharedObject) : SharedObject :=
  {| so_name := so_name so; so_readyd := so_readyd so;
     so_deleted := d; so_changed := so_changed so;
     so_persistance := so_persistance so |}.

(** The instance after a notification on channel [old] of object [o]:
    the log record, a fresh channel stored in the object by [upd], and
    [old] fulfilled with [payload]. *)
Definition renewed (o old : nat) (upd : nat -> SharedObject -> SharedObject)
    (so : SharedObject) (record : LogRecord) (payload : PyVal) (st : Proto)
  : Proto :=
  set_heap (<[old := Fulfilled payload]> (heap st ++ [Pending]))
    (set_so_store (<[o := upd (length (heap st)) so]> (so_store st))
       (set_trace (trace st ++ [Log LDebug record]) st)).

(** The transaction counters start at 1 or above, and the ids of the
    pending entries of a stream are ids its counter has handed out. *)
Definition ids_inv (st : Proto) : Prop :=
  (forall ms_id, (1 <= next_id ms_id st)%Z)
  /\ (forall ms_id trans_id d,
        tracked ms_id trans_id (call_tracker st) = Some d ->
        (1 <= trans_id < next_id ms_id st)%Z).

(** ** A sample connection *)

Definition demo_remote (cmd : string) : option (Z -> Z -> list PyVal -> Outcome) :=
  if decide (cmd = "echo") then Some (fun _ _ args => Returned (VList args))
  else if decide (cmd = "ping") then Some (fun _ _ _ => Returned (VStr "pong"))
  else if decide (cmd = "deny") then
    Some (fun _ _ _ => Raised (CallResultError [VNone; VStr "denied"] false))
  else if decide (cmd = "kick") then
    Some (fun _ _ _ => Raised (CallResultError [VNone; VStr "banned"] true))
  else if decide (cmd = "crash") then Some (fun _ _ _ => Raised (OtherError "ValueError"))
  else if decide (cmd = "skip") then Some (fun _ _ _ => Raised (CallAbortedException "skip"))
  else None.

Definition demo_ext : Externals :=
  {| amf0_encode := fun args => match args with VStr c :: _ => c | _ => "" end;
     amf0_encode_so_update := fun name _ _ => name;
     amf0_decode_so_event_change_data := fun _ => inl DecoderError;
     amf0_decode_string := fun s => inr (VStr s);
     py_repr := fun _ => "";
     py_repr_exn := fun _ => "";
     remote_method := demo_remote |}.

Definition play_start : PyVal := VObject [("code", VStr "NetStream.Play.Start")].

(** A tracked call, two status waiters, two commands received and not yet
    dispatched, and a shared object being subscribed to. *)
Definition demo_ops : list Op :=
  [OpCallRemote 3 "play" [VStr "stream1"];
   OpWaitStatus 3 (Some "NetStream.Play.Start");
   OpWaitStatus 5 None;
   OpDoCommand 0 3 "onStatus" 0 [VNone; play_start];
   OpDoCommand 0 3 "echo" 2 [VStr "hi"];
   OpUseSharedObject 1 "chat" false 0].

Definition demo_st : Proto := Eval vm_compute in run demo_ext demo_ops init.

(** A codec that decodes: a change payload [s] is the mapping of key
    [s] to 1, except that the empty payload is the empty mapping and
    ["bad"] is rejected; a string payload decodes to itself. *)
Definition demo_codec : Externals :=
  {| amf0_encode := fun args => match args with VStr c :: _ => c | _ => "" end;
     amf0_encode_so_update := fun name flags _ => name +:+ flags;
     amf0_decode_so_event_change_data := fun s =>
       if decide (s = "") then inr []
       else if decide (s = "bad") then inl DecoderError
       else inr [(VStr s, VInt 1)];
     amf0_decode_string := fun s => inr (VStr s);
     py_repr := fun _ => "";
     py_repr_exn := fun _ => "";
     remote_method := demo_remote |}.

Definition demo_chat : SharedObject :=
  {| so_name := "chat"; so_readyd := 3; so_deleted := 4; so_changed := 5;
     so_persistance := false |}.

(** A muxer that looks at the registry when it is called: it records the
    message when the name is registered or not as [expected] says, and
    raises otherwise. *)
Definition checking_muxer (obj_name : string) (expected : bool)
    (ts : Z) (mtype : MsgType) (ms_id : Z) (body : string) : M unit :=
  reg <~ gets shared_objs ;;
  if bool_decide (bool_decide (is_Some (reg !! obj_name)) = expected)
  then sendMessage ts mtype ms_id body
  else raise ConnectionDone.

(** A muxer whose connection is gone: it raises and records nothing. *)
Definition failing_muxer (ts : Z) (mtype : MsgType) (ms_id : Z) (body : string)
  : M unit :=
  raise ConnectionDone.

(** ** Frame rules for the monad *)

Lemma preserves_ret {A} P (a : A) : preserves P (ret a).
Proof. intros st H. exact H. Qed.

Lemma preserves_raise {A} P e : preserves P (@raise A e).
Proof. intros st H. exact H. Qed.

Lemma preserves_gets {A} P (f : Proto -> A) : preserves P (gets f).
Proof. intros st H. exact H. Qed.

Lemma preserves_modify P (f : Proto -> Proto) :
  (forall st, P st -> P (f st)) -> preserves P (modify f).
Proof. intros Hf st H. apply Hf, H. Qed.

Lemma preserves_bind {A B} P (m : M A) (k : A -> M B) :
  preserves P m -> (forall a, preserves P (k a)) -> preserves P (bind m k).
Proof.
  intros Hm Hk st H. unfold bind.
  specialize (Hm st H). destruct (m st) as [a st'|e st']; simpl in *.
  - apply Hk, Hm.
  - exact Hm.
Qed.

Lemma preserves_for_each {A} P (l : list A) (f : A -> M unit) :
  (forall x, preserves P (f x)) -> preserves P (for_each l f).
Proof.
  intros Hf. induction l as [|x l IH]; simpl.
  - apply preserves_ret.
  - apply preserves_bind; [apply Hf | intros _; exact IH].
Qed.

Lemma preserves_assert P c msg : preserves P (assert c msg).
Proof. destruct c; [apply preserves_ret | apply preserves_raise]. Qed.

Lemma preserves_lift_ext {A} P (r : Exn + A) : preserves P (lift_ext r).
Proof. destruct r; [apply preserves_raise | apply preserves_ret]. Qed.

Lemma preserves_inlineCallbacks P (body : M InlineResult) :
  preserves P body -> preserves P (Deferred.inlineCallbacks body).
Proof.
  intros Hb st H. unfold Deferred.inlineCallbacks.
  specialize (Hb st H). destruct (body st); exact Hb.
Qed.

Lemma preserves_run_callbacks P chain r :
  Forall (fun ce =>
            (forall f v, ce.1 = Some f -> preserves P (f v)) /\
            (forall f e, ce.2 = Some f -> preserves P (f e))) chain ->
  preserves P (Deferred.run_callbacks chain r).
Proof.
  intros Hc. revert r. induction Hc as [|[cb eb] rest [Hcb Heb] _ IH]; intros r.
  - apply preserves_ret.
  - simpl in *.
    assert (Hstep : forall m : M PyVal, preserves P m ->
              preserves P (fun st => match m st with
                                     | Ok v st' => Deferred.run_callbacks rest (Returned v) st'
                                     | Raise e st' => Deferred.run_callbacks rest (Raised e) st'
                                     end)).
    { intros m Hm st H. specialize (Hm st H).
      destruct (m st) as [v st'|e st']; simpl in Hm; apply IH, Hm. }
    destruct r as [v|e].
    + destruct cb as [f|]; simpl; [apply Hstep, (Hcb f v eq_refl) | apply IH].
    + destruct eb as [f|]; simpl; [apply Hstep, (Heb f e eq_refl) | apply IH].
Qed.

(** Frame rules for the primitives: a property that does not read the
    store an operation writes is preserved by it. *)

Lemma preserves_new P :
  (forall st h, P st -> P (set_heap h st)) -> preserves P Deferred.new.
Proof. intros HP st H. apply HP, H. Qed.

Lemma preserves_fire P d r :
  (forall st h, P st -> P (set_heap h st)) -> preserves P (Deferred.fire d r).
Proof.
  intros HP st H. unfold Deferred.fire.
  destruct (heap st !! d) as [[]|]; simpl; auto.
Qed.

Lemma preserves_errback_reason P d reason :
  (forall st h, P st -> P (set_heap h st)) ->
  preserves P (Deferred.errback_reason d reason).
Proof.
  intros HP. destruct reason; [apply preserves_fire, HP | apply preserves_raise].
Qed.

Lemma preserves_await P d : preserves P (Deferred.await d).
Proof. apply preserves_gets. Qed.

Lemma preserves_dc_callLater P k f :
  (forall st r, P st -> P (set_reactor r st)) ->
  preserves P (DelayedCalls.callLater k f).
Proof. intros HP st H. apply HP, H. Qed.

Lemma preserves_dc_active P clid : preserves P (DelayedCalls.active clid).
Proof. apply preserves_gets. Qed.

Lemma preserves_dc_cancel P clid :
  (forall st r, P st -> P (set_reactor r st)) ->
  preserves P (DelayedCalls.cancel clid).
Proof.
  intros HP st H. unfold DelayedCalls.cancel.
  destruct (reactor st !! clid) as [[[] ? ?]|]; simpl; auto.
Qed.

Lemma preserves_so_self P o : preserves P (SharedObject.self o).
Proof.
  intros st H. unfold SharedObject.self. destruct (so_store st !! o); exact H.
Qed.

Lemma preserves_so_new P name persistance :
  (forall st h, P st -> P (set_heap h st)) ->
  (forall st s, P st -> P (set_so_store s st)) ->
  preserves P (SharedObject.new name persistance).
Proof.
  intros Hh Hs. unfold SharedObject.new.
  repeat (apply preserves_bind; [apply preserves_new, Hh | intros ?]).
  intros st H. apply Hs, H.
Qed.

(** Takes a [preserves] goal apart along the structure of the program,
    leaving the goals about the fields that [P] reads. *)
Ltac frame_unfold :=
  unfold
    StatusEventTracker.wait, StatusEventTracker.cancel_all,
    StatusEventTracker.dispatch,
    CancellableCallQueue.callLater, CancellableCallQueue.cancel,
    CancellableCallQueue._call_wrapper, CancellableCallQueue.cancel_all,
    SharedObject.onEvent, SharedObject.unhandledEvent, SharedObject.onChange,
    SharedObject.onChangeRaw, SharedObject.onClear, SharedObject.onDelete,
    SharedObject.onDeleteRaw, SharedObject.onMessage, SharedObject.onUseSuccess,
    doCommand, unknownSharedObject, doSharedObj, unexpectedCallResult,
    unexpectedCallError, pop_deferred, command__result, command__error,
    CommandDispatchProtocol.connectionLost, _send_command, next_trans,
    _sendRemote, callRemote, signalRemote, useSharedObject, releaseSharedObject,
    useSharedObject_over, releaseSharedObject_over,
    waitStatus, unhandledOnStatus, command_onStatus,
    EventDispatchProtocol.connectionLost,
    unknownRemoteCall, _remote_abort_handler_eb, _remote_handler_cb,
    _remote_handler_eb, _handler_wrapper,
    Deferred.callback, Deferred.errback, sendMessage, emit.

Create HintDb frames discriminated.

Ltac frame_step :=
  first [ solve [auto with frames nocore] | lazymatch goal with
  | |- preserves _ ?m =>
      lazymatch m with
      | ret _ => apply preserves_ret
      | raise _ => apply preserves_raise
      | gets _ => apply preserves_gets
      | assert _ _ => apply preserves_assert
      | lift_ext _ => apply preserves_lift_ext
      | Deferred.await _ => apply preserves_await
      | DelayedCalls.active _ => apply preserves_dc_active
      | SharedObject.self _ => apply preserves_so_self
      | bind _ _ => apply preserves_bind; [|intros ?]
      | for_each _ _ => apply preserves_for_each; intros ?
      | Deferred.inlineCallbacks _ => apply preserves_inlineCallbacks
      | modify _ => apply preserves_modify; intros ? ?
      | Deferred.new => apply preserves_new; intros ? ? ?
      | Deferred.fire _ _ => apply preserves_fire; intros ? ? ?
      | Deferred.errback_reason _ _ => apply preserves_errback_reason; intros ? ? ?
      | DelayedCalls.callLater _ _ => apply preserves_dc_callLater; intros ? ? ?
      | DelayedCalls.cancel _ => apply preserves_dc_cancel; intros ? ? ?
      | SharedObject.new _ _ => apply preserves_so_new; intros ? ? ?
      | match ?x with _ => _ end => destruct x
      | _ => progress frame_unfold
      end
  end ].

Ltac frame := repeat (cbv beta iota; frame_step).

(** ** Transaction ids (C4) *)

Lemma pop_deferred_next key trans_id t :
  trk_next_trans_id (DeferredTracker.pop_deferred key trans_id t).2
  = trk_next_trans_id t.
Proof.
  unfold DeferredTracker.pop_deferred.
  destruct (trk_pending t !! key) as [kq|]; [|reflexivity].
  destruct (decide (kq = ∅)); reflexivity.
Qed.

Section Frames.
Variable E : Externals.

Lemma remote_chain_preserves P ms_id trans_id now r :
  (forall st x, P st -> P (set_trace x st)) ->
  preserves P (Deferred.run_callbacks (remote_chain E ms_id trans_id now) r).
Proof.
  intros HP. apply preserves_run_callbacks. unfold remote_chain.
  destruct (decide (trans_id = 0%Z)); simpl;
    repeat (apply Forall_cons; split; [split; intros f x [= <-] | ]);
    try apply Forall_nil; frame; auto.
Qed.

Lemma run_scheduled_preserves P f now :
  (forall st x, P st -> P (set_trace x st)) ->
  (forall st x, P st -> P (set_heap x st)) ->
  (forall st x, P st -> P (set_events x st)) ->
  (forall st ms t, P st ->
     P (set_call_tracker (DeferredTracker.pop_deferred ms t (call_tracker st)).2 st)) ->
  preserves P (run_scheduled E f now).
Proof.
  intros Ht Hh He Hc. destruct f as [cmd ts ms t args|h ts ms t args]; simpl.
  - apply preserves_bind; [|intros; apply preserves_ret].
    unfold unknownCommandType.
    apply preserves_bind; [|intros; apply remote_chain_preserves, Ht].
    frame; auto.
  - destruct h; frame; auto.
Qed.

End Frames.

Section TransactionIds.
Variable E : Externals.

(** A tracked call, written out. *)
Lemma callRemote_eq ms_id cmd args st :
  next_id ms_id st <> 0%Z ->
  callRemote E ms_id cmd args st
  = Ok (Some (length (heap st)))
       {| heap := heap st ++ [Pending];
          so_store := so_store st; reactor := reactor st;
          cc_queue := cc_queue st;
          call_tracker :=
            DeferredTracker.push_deferred ms_id (next_id ms_id st)
              (length (heap st))
              (DeferredTracker.next_trans ms_id (call_tracker st)).2;
          events := events st; shared_objs := shared_objs st;
          trace := trace st ++
            [SendMessage 0 MSG_COMMAND ms_id
               (amf0_encode E (VStr cmd :: VInt (next_id ms_id st) :: args))] |}.
Proof.
  intros Hn. unfold callRemote, _sendRemote, next_trans, _send_command, bind, gets,
    modify, ret, sendMessage, emit, Deferred.new. simpl.
  fold (next_id ms_id st).
  destruct (decide (next_id ms_id st = 0%Z)) as [|_]; [contradiction|].
  reflexivity.
Qed.

(** A signal-only call, written out. *)
Lemma signalRemote_eq ms_id cmd args st :
  signalRemote E ms_id cmd args st
  = Ok None
       (set_trace (trace st ++
          [SendMessage 0 MSG_COMMAND ms_id
             (amf0_encode E (VStr cmd :: VInt 0 :: args))]) st).
Proof. reflexivity. Qed.

Lemma step_next_trans_id st op :
  (forall ms, next_id ms st <> 0%Z) ->
  trk_next_trans_id (call_tracker (step E st op))
  = match op with
    | OpCallRemote ms_id _ _ =>
        <[ms_id := (next_id ms_id st + 1)%Z]> (trk_next_trans_id (call_tracker st))
    | _ => trk_next_trans_id (call_tracker st)
    end.
Proof.
  intros Hn.
  set (P := fun s : Proto =>
              trk_next_trans_id (call_tracker s)
              = trk_next_trans_id (call_tracker st)).
  assert (HP : P st) by reflexivity.
  destruct op; simpl;
    try (match goal with
         | |- context [final (?m st)] =>
             refine ((_ : preserves P m) st HP)
         end).
  - frame; auto.
  - frame; auto.
  - unfold reactor_fire. frame; auto.
    apply run_scheduled_preserves; unfold P; simpl; intros; auto.
    rewrite pop_deferred_next. auto.
  - rewrite callRemote_eq by apply Hn. reflexivity.
  - frame; auto.
  - frame; auto.
  - frame; auto.
  - frame; auto.
  - frame; auto.
Qed.

Lemma count_calls_snoc ms_id ops op :
  count_calls ms_id (ops ++ [op])
  = count_calls ms_id ops + (if is_call_on ms_id op then 1 else 0).
Proof.
  unfold count_calls. rewrite filter_app, length_app. f_equal.
  rewrite filter_cons, filter_nil.
  destruct (is_call_on ms_id op); simpl; [|reflexivity].
  destruct (decide (true = true)); [reflexivity | contradiction].
Qed.

(** The counter of a stream is one more than the tracked calls made. *)
Lemma next_id_run ops :
  forall ms_id,
    next_id ms_id (run E ops init) = (1 + Z.of_nat (count_calls ms_id ops))%Z.
Proof.
  induction ops as [|op ops IH] using rev_ind; intros ms_id.
  - reflexivity.
  - unfold run in *. rewrite foldl_app. simpl.
    rewrite count_calls_snoc. unfold next_id at 1.
    rewrite step_next_trans_id
      by (intros ms; fold (run E ops init); rewrite IH; lia).
    fold (run E ops init).
    destruct op; simpl; try (fold (next_id ms_id (run E ops init));
                             rewrite IH; lia).
    case_bool_decide as Hms.
    + subst. rewrite lookup_insert_eq. simpl. rewrite IH. lia.
    + rewrite lookup_insert_ne by done.
      fold (next_id ms_id (run E ops init)). rewrite IH. lia.
Qed.

End TransactionIds.

Lemma tracked_push_deferred key trans_id d t :
  tracked key trans_id (DeferredTracker.push_deferred key trans_id d t) = Some d.
Proof.
  unfold tracked, DeferredTracker.push_deferred. simpl.
  rewrite lookup_insert_eq. simpl. apply lookup_insert_eq.
Qed.

(** ** Replies to tracked calls (C1) *)

Lemma set_call_tracker_id st : set_call_tracker (call_tracker st) st = st.
Proof. by destruct st. Qed.

Lemma pop_deferred_miss key trans_id t :
  tracked key trans_id t = None ->
  DeferredTracker.pop_deferred key trans_id t = (None, t).
Proof.
  unfold tracked, DeferredTracker.pop_deferred. intros H.
  destruct (trk_pending t !! key) as [kq|] eqn:Hk; [|reflexivity].
  simpl in H. destruct (decide (kq = ∅)); [reflexivity|].
  rewrite H. f_equal. destruct t as [p n']; simpl in *. f_equal.
  rewrite delete_id by done. by apply insert_id.
Qed.

Lemma pop_deferred_hit key trans_id t d :
  tracked key trans_id t = Some d ->
  (DeferredTracker.pop_deferred key trans_id t).1 = Some d
  /\ tracked key trans_id (DeferredTracker.pop_deferred key trans_id t).2 = None
  /\ forall key' trans_id',
       (key', trans_id') <> (key, trans_id) ->
       tracked key' trans_id' (DeferredTracker.pop_deferred key trans_id t).2
       = tracked key' trans_id' t.
Proof.
  unfold tracked, DeferredTracker.pop_deferred. intros H.
  destruct (trk_pending t !! key) as [kq|] eqn:Hk; [|discriminate].
  simpl in H. destruct (decide (kq = ∅)) as [->|_].
  { by rewrite lookup_empty in H. }
  simpl. split; [done|]. split.
  - rewrite lookup_insert_eq. simpl. apply lookup_delete_eq.
  - intros key' trans_id' Hne. destruct (decide (key' = key)) as [->|Hk'].
    + rewrite lookup_insert_eq, Hk. simpl.
      apply lookup_delete_ne. congruence.
    + by rewrite lookup_insert_ne.
Qed.

Lemma command__result_miss ts ms_id trans_id args st :
  tracked ms_id trans_id (call_tracker st) = None ->
  command__result ts ms_id trans_id args st
  = Ok tt (set_trace (trace st ++
             [Log LWarning (LogUnexpectedResult ts ms_id trans_id args)]) st).
Proof.
  intros H. unfold command__result, pop_deferred, bind, gets, modify, ret.
  rewrite (pop_deferred_miss _ _ _ H). simpl.
  by rewrite set_call_tracker_id.
Qed.

Lemma command__error_miss ts ms_id trans_id args st :
  tracked ms_id trans_id (call_tracker st) = None ->
  command__error ts ms_id trans_id args st
  = Ok tt (set_trace (trace st ++
             [Log LWarning (LogUnexpectedError ts ms_id trans_id args)]) st).
Proof.
  intros H. unfold command__error, pop_deferred, bind, gets, modify, ret.
  rewrite (pop_deferred_miss _ _ _ H). simpl.
  by rewrite set_call_tracker_id.
Qed.

Lemma command__result_hit ts ms_id trans_id args st d :
  tracked ms_id trans_id (call_tracker st) = Some d ->
  heap st !! d = Some Pending ->
  command__result ts ms_id trans_id args st
  = Ok tt (resolved ms_id trans_id d (Fulfilled (VTuple args)) st).
Proof.
  intros H Hd. destruct (pop_deferred_hit _ _ _ _ H) as [Hp _].
  unfold command__result, pop_deferred, bind, gets, modify, ret.
  rewrite Hp. unfold Deferred.callback, Deferred.fire. simpl. by rewrite Hd.
Qed.

Lemma command__error_hit ts ms_id trans_id args st d :
  tracked ms_id trans_id (call_tracker st) = Some d ->
  heap st !! d = Some Pending ->
  command__error ts ms_id trans_id args st
  = Ok tt (resolved ms_id trans_id d (Failed (CommandResultError args)) st).
Proof.
  intros H Hd. destruct (pop_deferred_hit _ _ _ _ H) as [Hp _].
  unfold command__error, pop_deferred, bind, gets, modify, ret.
  rewrite Hp. unfold Deferred.errback, Deferred.fire. simpl. by rewrite Hd.
Qed.

(** ** Disconnection (C2) *)

Lemma fail_all_length {A} (g : A -> nat) r l h :
  length (fail_all g r l h) = length h.
Proof.
  revert h. induction l as [|x l IH]; intros h; simpl; [done|].
  unfold fail_all in *. simpl. by rewrite IH, length_insert.
Qed.

Lemma fail_all_notin {A} (g : A -> nat) r l h d :
  d ∉ g <$> l -> fail_all g r l h !! d = h !! d.
Proof.
  revert h. induction l as [|x l IH]; intros h Hd; [done|].
  rewrite fmap_cons, not_elem_of_cons in Hd. destruct Hd as [Hx Hl].
  unfold fail_all in *. simpl. rewrite IH by done.
  by apply list_lookup_insert_ne.
Qed.

Lemma fail_all_in {A} (g : A -> nat) r l h d :
  d ∈ g <$> l -> d < length h -> fail_all g r l h !! d = Some r.
Proof.
  revert h. induction l as [|x l IH]; intros h Hd Hlt.
  - by apply elem_of_nil in Hd.
  - unfold fail_all in *. simpl.
    destruct (decide (d ∈ g <$> l)) as [Hin|Hnot].
    + apply IH; [done|]. by rewrite length_insert.
    + rewrite fmap_cons, elem_of_cons in Hd. destruct Hd as [->|]; [|done].
      fold (fail_all g r l (<[g x := r]> h)).
      rewrite fail_all_notin by done. by apply list_lookup_insert_eq.
Qed.

Lemma for_each_fire {A} (g : A -> nat) r (l : list A) st :
  NoDup (g <$> l) ->
  Forall (fun x => heap st !! g x = Some Pending) l ->
  for_each l (fun x => Deferred.fire (g x) r) st
  = Ok tt (set_heap (fail_all g r l (heap st)) st).
Proof.
  revert st. induction l as [|x l IH]; intros st Hnd Hp.
  - by destruct st.
  - rewrite fmap_cons in Hnd. apply NoDup_cons in Hnd as [Hx Hnd].
    apply Forall_cons in Hp as [Hpx Hp].
    simpl. unfold bind. unfold Deferred.fire at 1. rewrite Hpx.
    rewrite IH; [reflexivity | done |].
    rewrite Forall_forall in Hp |- *. intros y Hy. simpl.
    rewrite list_lookup_insert_ne; [by apply Hp|].
    intros Heq. apply Hx. rewrite Heq. by apply list_elem_of_fmap_2.
Qed.

Lemma cancel_one_status rc clid i dc :
  cancel_one rc clid !! i = Some dc -> dc_status dc = CallActive ->
  rc !! i = Some dc /\ i <> clid.
Proof.
  unfold cancel_one. intros H Ha.
  destruct (rc !! clid) as [dc0|] eqn:Hc.
  - destruct (dc_status dc0) eqn:Hs.
    + destruct (decide (i = clid)) as [->|Hne].
      * rewrite list_lookup_insert_eq in H by (eapply lookup_lt_Some; eassumption).
        injection H as <-. discriminate.
      * rewrite list_lookup_insert_ne in H by done. done.
    + split; [done|]. intros ->. congruence.
    + split; [done|]. intros ->. congruence.
  - split; [done|]. intros ->. congruence.
Qed.

Lemma cancel_all_status (l : list nat) rc i dc :
  foldl cancel_one rc l !! i = Some dc -> dc_status dc = CallActive ->
  rc !! i = Some dc /\ i ∉ l.
Proof.
  revert rc. induction l as [|c l IH]; intros rc H Ha; simpl in *.
  - split; [done|]. apply not_elem_of_nil.
  - destruct (IH _ H Ha) as [H1 Hl].
    destruct (cancel_one_status _ _ _ _ H1 Ha) as [H2 Hne].
    split; [done|]. rewrite not_elem_of_cons. done.
Qed.

Lemma cancel_one_cancelled rc clid i dc :
  rc !! i = Some dc ->
  cancel_one rc clid !! i
  = Some (if decide (i = clid /\ dc_status dc = CallActive)
          then DelayedCalls.set_status CallCancelled dc else dc).
Proof.
  intros H. unfold cancel_one.
  destruct (decide (i = clid)) as [->|Hne].
  - rewrite H. destruct (dc_status dc) eqn:Hs.
    + rewrite list_lookup_insert_eq by (eapply lookup_lt_Some; eassumption).
      by rewrite decide_True.
    + rewrite H. by rewrite decide_False by (intros [_ ?]; congruence).
    + rewrite H. by rewrite decide_False by (intros [_ ?]; congruence).
  - rewrite decide_False by (intros [? _]; congruence).
    destruct (rc !! clid) as [dc0|]; [|done].
    destruct (dc_status dc0); [|done..].
    by rewrite list_lookup_insert_ne.
Qed.

Lemma cancel_all_cancelled (l : list nat) rc i dc :
  rc !! i = Some dc -> dc_status dc = CallActive -> i ∈ l ->
  foldl cancel_one rc l !! i = Some (DelayedCalls.set_status CallCancelled dc).
Proof.
  revert rc dc. induction l as [|c l IH]; intros rc dc H Ha Hin.
  - by apply elem_of_nil in Hin.
  - simpl. pose proof (cancel_one_cancelled rc c i dc H) as H1.
    destruct (decide (i = c /\ dc_status dc = CallActive)) as [[-> _]|Hn].
    + clear IH Hin. revert H1. generalize (cancel_one rc c).
      induction l as [|c' l IH]; intros rc' H1; simpl; [done|].
      apply IH. rewrite (cancel_one_cancelled _ _ _ _ H1).
      by rewrite decide_False by (intros [_ ?]; discriminate).
    + apply IH; [done..|]. apply elem_of_cons in Hin as [->|]; [|done].
      exfalso. by apply Hn.
Qed.

Lemma bind_Ok {A B} (m : M A) (k : A -> M B) st a st' :
  m st = Ok a st' -> bind m k st = k a st'.
Proof. intros H. unfold bind. by rewrite H. Qed.

Lemma bind_Raise {A B} (m : M A) (k : A -> M B) st e st' :
  m st = Raise e st' -> bind m k st = Raise e st'.
Proof. intros H. unfold bind. by rewrite H. Qed.

Lemma set_reactor_id s : set_reactor (reactor s) s = s.
Proof. by destruct s. Qed.

Lemma cancel_step_eq (kc : nat * nat) s :
  (a <~ DelayedCalls.active kc.2 ;;
   if a : bool then DelayedCalls.cancel kc.2 else ret tt) s
  = Ok tt (set_reactor (cancel_one (reactor s) kc.2) s).
Proof.
  unfold bind, DelayedCalls.active, gets, DelayedCalls.cancel, cancel_one, ret.
  destruct (reactor s !! kc.2) as [[[] key f]|] eqn:Hc; simpl;
    rewrite ?Hc; simpl; rewrite ?set_reactor_id; done.
Qed.

Lemma cancel_loop_eq (l : list (nat * nat)) s :
  for_each l (fun kc =>
    a <~ DelayedCalls.active kc.2 ;;
    if a : bool then DelayedCalls.cancel kc.2 else ret tt) s
  = Ok tt (set_reactor (foldl cancel_one (reactor s) (snd <$> l)) s).
Proof.
  revert s. induction l as [|kc l IH]; intros s.
  - simpl. by rewrite set_reactor_id.
  - cbn [for_each]. erewrite bind_Ok by apply cancel_step_eq.
    rewrite IH. reflexivity.
Qed.

(** The queue's [cancel_all], written out: it cannot raise. *)
Lemma cc_cancel_all_eq st :
  CancellableCallQueue.cancel_all st
  = Ok tt (set_reactor
             (foldl cancel_one (reactor st)
                (snd <$> map_to_list (ccq_pending (cc_queue st))))
             (set_cc_queue {| ccq_pending := ∅;
                              ccq_next_key := ccq_next_key (cc_queue st) |} st)).
Proof.
  unfold CancellableCallQueue.cancel_all.
  erewrite bind_Ok by reflexivity. erewrite bind_Ok by reflexivity.
  rewrite cancel_loop_eq. reflexivity.
Qed.

Lemma status_cancel_all_eq reason st :
  futures_ok st ->
  StatusEventTracker.cancel_all (Some reason) st
  = Ok tt (set_heap
             (fail_all snd (Failed reason)
                (StatusEventTracker.pop_all (events st)).1 (heap st))
             (set_events ∅ st)).
Proof.
  intros [Hnd Hp]. unfold pending_futures in *.
  apply NoDup_app in Hnd as (Hnd & _ & _).
  apply Forall_app in Hp as [Hp _].
  unfold StatusEventTracker.cancel_all.
  erewrite bind_Ok by reflexivity. erewrite bind_Ok by reflexivity.
  change (fun w : option string * nat => Deferred.errback w.2 reason)
    with (fun w : option string * nat => Deferred.fire (snd w) (Failed reason)).
  rewrite for_each_fire; [reflexivity | exact Hnd |].
  rewrite Forall_fmap in Hp. exact Hp.
Qed.

Lemma connectionLost_eq reason st :
  futures_ok st ->
  EventDispatchProtocol.connectionLost (Some reason) st
  = Ok tt (disconnected reason st).
Proof.
  intros Hok. pose proof Hok as [Hnd Hp]. unfold pending_futures in *.
  apply NoDup_app in Hnd as (_ & Hdisj & Hnd).
  apply Forall_app in Hp as [_ Hp].
  unfold EventDispatchProtocol.connectionLost.
  erewrite bind_Ok by (by apply status_cancel_all_eq).
  unfold CommandDispatchProtocol.connectionLost.
  erewrite bind_Ok by apply cc_cancel_all_eq.
  erewrite bind_Ok by reflexivity. erewrite bind_Ok by reflexivity.
  change (fun kd : Z * nat => Deferred.errback_reason kd.2 (Some reason))
    with (fun kd : Z * nat => Deferred.fire (snd kd) (Failed reason)).
  erewrite bind_Ok; cycle 1.
  rewrite for_each_fire; [reflexivity | exact Hnd |].
  simpl. rewrite Forall_fmap in Hp.
  rewrite Forall_forall in Hp |- *. intros x Hx. simpl.
  rewrite fail_all_notin; [by apply Hp|].
  { intros Hin. apply (Hdisj _ Hin). by apply list_elem_of_fmap_2. }
  reflexivity.
Qed.

Lemma tracked_iter_all ms_id trans_id t d :
  tracked ms_id trans_id t = Some d ->
  d ∈ snd <$> DeferredTracker.iter_all t.
Proof.
  unfold tracked, DeferredTracker.iter_all. intros H.
  destruct (trk_pending t !! ms_id) as [kq|] eqn:Hk; [|discriminate].
  simpl in H. apply list_elem_of_fmap. exists (ms_id, d). split; [done|].
  apply list_elem_of_bind. exists (ms_id, kq). split.
  - apply list_elem_of_fmap. exists (trans_id, d). split; [done|].
    by apply elem_of_map_to_list.
  - by apply elem_of_map_to_list.
Qed.

Lemma waiters_pop_all key ev w :
  w ∈ waiters key ev -> w ∈ (StatusEventTracker.pop_all ev).1.
Proof.
  unfold waiters, StatusEventTracker.pop_all. intros H.
  destruct (ev !! key) as [q|] eqn:Hk; simpl in *.
  - apply list_elem_of_bind. exists (key, q). split; [done|].
    by apply elem_of_map_to_list.
  - by apply elem_of_nil in H.
Qed.

(** With no active call left, the reactor has nothing to run. *)
Lemma reactor_fire_idle E clid now st :
  (forall i dc, reactor st !! i = Some dc -> dc_status dc <> CallActive) ->
  reactor_fire E clid now st = Ok tt st.
Proof.
  intros H. unfold reactor_fire. erewrite bind_Ok by reflexivity.
  destruct (reactor st !! clid) as [dc|] eqn:Hc; [|reflexivity].
  specialize (H _ _ Hc). by destruct (dc_status dc).
Qed.

(** ** Remote method invocations (C3, C9) *)

Lemma set_trace_set_trace x y st : set_trace x (set_trace y st) = set_trace x st.
Proof. reflexivity. Qed.

Lemma set_trace_id st : set_trace (trace st) st = st.
Proof. by destruct st. Qed.

(** A command that names no remote method goes the way of an abort. *)
Lemma unknown_method_aborts (E : Externals) cmd ts ms_id trans_id args now st :
  remote_method E cmd = None ->
  exists msg,
    unknownCommandType E cmd ts ms_id trans_id args now st
    = Ok (Returned VNone)
         (set_trace (trace st ++
            [Log LWarning (LogUnknownMethod cmd args);
             Log LDebug (LogCallAborted (CallAbortedException msg))]) st).
Proof.
  intros Hm. eexists. unfold unknownCommandType. rewrite Hm.
  unfold remote_chain.
  destruct (decide (trans_id = 0%Z)); simpl;
    unfold unknownRemoteCall, bind, emit, modify, ret; simpl;
    rewrite <- ?app_assoc; reflexivity.
Qed.

(** ** Status waiters (C5, C6) *)

Lemma set_events_id st : set_events (events st) st = st.
Proof. by destruct st. Qed.

Lemma code_eq_spec evt_code c :
  StatusEventTracker.code_eq evt_code c = true <-> evt_code = VStr c.
Proof.
  unfold StatusEventTracker.code_eq. destruct evt_code; try (split; [discriminate|congruence]).
  rewrite bool_decide_eq_true. split; congruence.
Qed.

Lemma waiters_add key code d ev key' :
  waiters key' (StatusEventTracker.add key code d ev)
  = if decide (key = key') then waiters key ev ++ [(code, d)]
    else waiters key' ev.
Proof.
  unfold waiters, StatusEventTracker.add. case_decide as Hk.
  - subst. by rewrite lookup_insert_eq.
  - by rewrite lookup_insert_ne.
Qed.

Lemma pop_some key ev w q :
  waiters key ev = w :: q ->
  StatusEventTracker.pop key ev = (Some w, <[key := q]> ev).
Proof.
  unfold waiters, StatusEventTracker.pop. intros H.
  destruct (ev !! key) as [[|w' q']|]; simpl in H; try discriminate.
  by injection H as -> ->.
Qed.

Lemma pop_none key ev :
  waiters key ev = [] -> StatusEventTracker.pop key ev = (None, ev).
Proof.
  unfold waiters, StatusEventTracker.pop. intros H.
  destruct (ev !! key) as [[|w' q']|]; simpl in H; try discriminate; done.
Qed.

(** A dispatch that finds a waiter, written out. *)
Lemma dispatch_hit key info miss_h st code d q :
  waiters key (events st) = (code, d) :: q ->
  heap st !! d = Some Pending ->
  StatusEventTracker.dispatch key info miss_h st
  = Ok tt (set_heap (<[d := status_outcome code info]> (heap st))
             (set_events (<[key := q]> (events st)) st)).
Proof.
  intros Hw Hd. unfold StatusEventTracker.dispatch, bind, gets, modify.
  rewrite (pop_some _ _ _ _ Hw). simpl. unfold status_outcome.
  destruct (StatusEventTracker.getattr_code info) as [e|evt_code].
  - unfold Deferred.errback, Deferred.fire. simpl. by rewrite Hd.
  - destruct code as [c|].
    + destruct (StatusEventTracker.code_eq evt_code c);
        unfold Deferred.callback, Deferred.errback, Deferred.fire; simpl;
        by rewrite Hd.
    + unfold Deferred.callback, Deferred.fire. simpl. by rewrite Hd.
Qed.

(** A dispatch that finds no waiter is the miss handler and no more. *)
Lemma dispatch_miss key info (h : M unit) st :
  waiters key (events st) = [] ->
  StatusEventTracker.dispatch key info (Some h) st = h st.
Proof.
  intros Hw. unfold StatusEventTracker.dispatch, bind, gets, modify.
  rewrite (pop_none _ _ Hw). simpl. by rewrite set_events_id.
Qed.

Lemma waiters_pop key key' ev :
  waiters key' (StatusEventTracker.pop key ev).2
  = if decide (key = key') then tail (waiters key ev) else waiters key' ev.
Proof.
  unfold waiters, StatusEventTracker.pop.
  destruct (ev !! key) as [[|w q]|] eqn:H; simpl; case_decide; subst;
    rewrite ?H, ?lookup_insert_eq, ?lookup_insert_ne by done; done.
Qed.

Lemma pop_head key ev :
  (StatusEventTracker.pop key ev).1 = head (waiters key ev).
Proof.
  unfold waiters, StatusEventTracker.pop.
  by destruct (ev !! key) as [[|w q]|].
Qed.

(** A status event takes the oldest waiter of its stream's key off the
    queue, whatever happens to the waiter's future. *)
Lemma command_onStatus_events ts ms_id trans_id none_ info st :
  events (final (command_onStatus ts ms_id trans_id none_ info st))
  = (StatusEventTracker.pop (_onStatus_ev_key ms_id) (events st)).2.
Proof.
  unfold command_onStatus, StatusEventTracker.dispatch, bind, gets, modify.
  simpl.
  destruct (StatusEventTracker.pop (_onStatus_ev_key ms_id) (events st)).1
    as [[code d]|]; [|reflexivity].
  destruct (StatusEventTracker.getattr_code info) as [e|evt_code];
    [|destruct code as [c|];
      [destruct (StatusEventTracker.code_eq evt_code c)|]];
    unfold Deferred.callback, Deferred.errback, Deferred.fire; simpl;
    by destruct (heap st !! d) as [[]|].
Qed.

(** It touches no future but that waiter's. *)
Lemma command_onStatus_heap ts ms_id trans_id none_ info st d :
  head (waiters (_onStatus_ev_key ms_id) (events st)).*2 <> Some d ->
  heap (final (command_onStatus ts ms_id trans_id none_ info st)) !! d
  = heap st !! d.
Proof.
  intros Hd.
  unfold command_onStatus, StatusEventTracker.dispatch, bind, gets, modify.
  simpl. rewrite pop_head.
  destruct (waiters (_onStatus_ev_key ms_id) (events st)) as [|[code d'] q];
    [reflexivity|].
  simpl in *. assert (d' <> d) by congruence.
  destruct (StatusEventTracker.getattr_code info) as [e|evt_code];
    [|destruct code as [c|];
      [destruct (StatusEventTracker.code_eq evt_code c)|]];
    unfold Deferred.callback, Deferred.errback, Deferred.fire; simpl;
    destruct (heap st !! d') as [[]|]; simpl; try reflexivity;
    by rewrite list_lookup_insert_ne.
Qed.

(** ** Shared objects (C7, C8, C10) *)

Section SharedObjects.
Variable E : Externals.

Lemma useSharedObject_taken ms_id obj_name persistance now st o :
  shared_objs st !! obj_name = Some o ->
  useSharedObject E ms_id obj_name persistance now st
  = Ok (InlineFailed
          (SystemError ("Shared object " +:+ obj_name +:+ " already in use")))
       st.
Proof.
  intros H. unfold useSharedObject, useSharedObject_over, Deferred.inlineCallbacks, bind, gets.
  by rewrite H.
Qed.

Lemma releaseSharedObject_missing ms_id obj_name now st :
  shared_objs st !! obj_name = None ->
  releaseSharedObject E ms_id obj_name now st
  = Ok (InlineFailed
          (SystemError ("Shared object " +:+ obj_name +:+ " does not exists")))
       st.
Proof.
  intros H. unfold releaseSharedObject, releaseSharedObject_over, Deferred.inlineCallbacks, bind, gets.
  by rewrite H.
Qed.

Lemma useSharedObject_fresh ms_id obj_name persistance now st :
  shared_objs st !! obj_name = None ->
  useSharedObject E ms_id obj_name persistance now st
  = Ok (InlineAwaiting (length (heap st)))
       (set_trace
          (trace st ++
             [SendMessage now MSG_SO ms_id
                (amf0_encode_so_update E obj_name (so_flags persistance)
                   [{| ev_type := SO_EVENT_TYPE_USE; ev_data := "" |}])])
          (registered obj_name persistance st)).
Proof.
  intros H. unfold useSharedObject, useSharedObject_over, Deferred.inlineCallbacks, bind, gets.
  rewrite H. unfold SharedObject.new, bind, Deferred.new, modify, sendMessage,
    emit, modify, SharedObject.self, ret, Deferred.await, gets. simpl.
  rewrite lookup_app_r by lia. rewrite Nat.sub_diag. simpl.
  rewrite !length_app. simpl.
  replace (length (heap st) + 1) with (S (length (heap st))) by lia.
  replace (S (length (heap st)) + 1) with (S (S (length (heap st)))) by lia.
  rewrite <- !app_assoc. simpl.
  rewrite lookup_app_r by lia. rewrite Nat.sub_diag. simpl.
  reflexivity.
Qed.

Lemma releaseSharedObject_present ms_id obj_name now st o so :
  shared_objs st !! obj_name = Some o ->
  so_store st !! o = Some so ->
  releaseSharedObject E ms_id obj_name now st
  = Ok (InlineReturned VNone)
       (set_trace
          (trace st ++
             [SendMessage now MSG_SO ms_id
                (amf0_encode_so_update E obj_name
                   (so_flags (so_persistance so))
                   [{| ev_type := SO_EVENT_TYPE_RELEASE; ev_data := "" |}])])
          (set_shared_objs (delete obj_name (shared_objs st)) st)).
Proof.
  intros H Hs. unfold releaseSharedObject, releaseSharedObject_over, Deferred.inlineCallbacks, bind, gets.
  rewrite H. unfold SharedObject.self. rewrite Hs. reflexivity.
Qed.

(** Whatever the muxer is, it is called on the instance that has the
    new object registered, and what comes after it is the wait for the
    object's ready future. *)
Lemma useSharedObject_over_fresh send ms_id obj_name persistance now st :
  shared_objs st !! obj_name = None ->
  useSharedObject_over E send ms_id obj_name persistance now st
  = Deferred.inlineCallbacks
      (send now MSG_SO ms_id
         (amf0_encode_so_update E obj_name (so_flags persistance)
            [{| ev_type := SO_EVENT_TYPE_USE; ev_data := "" |}]) ;;;
       s <~ SharedObject.self (length (so_store st)) ;;
       Deferred.await (so_readyd s))
      (registered obj_name persistance st).
Proof.
  intros H. unfold useSharedObject_over, Deferred.inlineCallbacks, bind, gets.
  rewrite H. unfold SharedObject.new, bind, Deferred.new, modify. simpl.
  rewrite !length_app. simpl.
  replace (length (heap st) + 1) with (S (length (heap st))) by lia.
  replace (S (length (heap st)) + 1) with (S (S (length (heap st)))) by lia.
  rewrite <- !app_assoc. simpl.
  lazymatch goal with
  | |- ?lhs = _ =>
      lazymatch lhs with
      | context [send _ _ _ _ ?s] =>
          change s with (registered obj_name persistance st)
      end
  end.
  destruct (send _ _ _ _ (registered obj_name persistance st)) as [[] s1|e s1];
    [|reflexivity].
  unfold SharedObject.self, ret.
  by destruct (so_store s1 !! length (so_store st)).
Qed.

(** Whatever the muxer is, it is called on the instance that has the
    name out of the registry. *)
Lemma releaseSharedObject_over_present send ms_id obj_name now st o so :
  shared_objs st !! obj_name = Some o ->
  so_store st !! o = Some so ->
  releaseSharedObject_over E send ms_id obj_name now st
  = Deferred.inlineCallbacks
      (send now MSG_SO ms_id
         (amf0_encode_so_update E obj_name (so_flags (so_persistance so))
            [{| ev_type := SO_EVENT_TYPE_RELEASE; ev_data := "" |}]) ;;;
       ret (InlineReturned VNone))
      (set_shared_objs (delete obj_name (shared_objs st)) st).
Proof.
  intros H Hs.
  unfold releaseSharedObject_over, Deferred.inlineCallbacks, bind, gets.
  rewrite H. unfold SharedObject.self. rewrite Hs. reflexivity.
Qed.

(** A name that is taken fails the call before any muxer is reached. *)
Lemma useSharedObject_over_taken send ms_id obj_name persistance now st o :
  shared_objs st !! obj_name = Some o ->
  useSharedObject_over E send ms_id obj_name persistance now st
  = Ok (InlineFailed
          (SystemError ("Shared object " +:+ obj_name +:+ " already in use")))
       st.
Proof.
  intros H. unfold useSharedObject_over, Deferred.inlineCallbacks, bind, gets.
  by rewrite H.
Qed.

(** Only a release of the name takes it out of the registry. *)
Lemma step_registry st op obj_name o :
  (forall ms_id now, op <> OpReleaseSharedObject ms_id obj_name now) ->
  shared_objs st !! obj_name = Some o ->
  shared_objs (step E st op) !! obj_name = Some o.
Proof.
  intros Hop H.
  set (P := fun s : Proto => shared_objs s !! obj_name = Some o).
  change (P (step E st op)).
  assert (HP : P st) by exact H.
  destruct op; simpl;
    try (match goal with
         | |- P (final (?m st)) => refine ((_ : preserves P m) st HP)
         end).
  - frame; auto.
  - frame; auto.
  - unfold reactor_fire. frame; auto.
    apply run_scheduled_preserves; unfold P; simpl; intros; auto.
  - frame; auto.
  - frame; auto.
  - frame; auto.
  - destruct (decide (obj_name0 = obj_name)) as [->|Hne].
    + intros s Hs. by rewrite (useSharedObject_taken _ _ _ _ _ _ Hs).
    + frame; auto. unfold P in *. simpl. by rewrite lookup_insert_ne.
  - assert (Hne : obj_name0 <> obj_name) by (intros ->; by eapply Hop).
    frame; auto. unfold P in *. simpl. by rewrite lookup_delete_ne.
  - frame; auto.
Qed.

Lemma run_registry ops st obj_name o :
  (forall ms_id now, OpReleaseSharedObject ms_id obj_name now ∉ ops) ->
  shared_objs st !! obj_name = Some o ->
  shared_objs (run E ops st) !! obj_name = Some o.
Proof.
  revert st. induction ops as [|op ops IH]; intros st Hops H; [done|].
  unfold run in *. simpl. apply IH.
  - intros ms_id now Hin. apply (Hops ms_id now). by right.
  - apply step_registry; [|done].
    intros ms_id now ->. apply (Hops ms_id now). by left.
Qed.

End SharedObjects.

(** ** Invariants of a connection *)

Lemma queue_inv_callLater f st :
  queue_inv st -> queue_inv (final (CancellableCallQueue.callLater f st)).
Proof.
  intros [Hq Hk]. unfold CancellableCallQueue.callLater, bind, gets, modify,
    DelayedCalls.callLater, ret. simpl. split.
  - intros clid dc H Ha. simpl in *.
    destruct (decide (clid = length (reactor st))) as [->|Hne].
    + rewrite lookup_app_r in H by lia. rewrite Nat.sub_diag in H.
      injection H as <-. simpl. apply lookup_insert_eq.
    + assert (Hlt : clid < length (reactor st)).
      { apply lookup_lt_Some in H. rewrite length_app in H. simpl in H. lia. }
      rewrite lookup_app_l in H by done.
      pose proof (Hq _ _ H Ha) as Hp. pose proof (Hk _ _ Hp).
      rewrite lookup_insert_ne by lia. exact Hp.
  - intros k c H. simpl in *.
    destruct (decide (k = ccq_next_key (cc_queue st))) as [->|Hne]; [lia|].
    rewrite lookup_insert_ne in H by done. apply Hk in H. lia.
Qed.

Lemma preserves_queue_inv_callLater f :
  preserves queue_inv (CancellableCallQueue.callLater f).
Proof. intros st. apply queue_inv_callLater. Qed.

Lemma preserves_queue_inv_cancel_all :
  preserves queue_inv CancellableCallQueue.cancel_all.
Proof.
  intros st [Hq Hk]. rewrite cc_cancel_all_eq. simpl. split.
  - intros clid dc H Ha. simpl in *.
    destruct (cancel_all_status _ _ _ _ H Ha) as [H0 Hnot].
    exfalso. apply Hnot. apply list_elem_of_fmap. exists (dc_call_key dc, clid).
    split; [done|]. apply elem_of_map_to_list. by apply Hq.
  - intros k c H. simpl in H. by rewrite lookup_empty in H.
Qed.

#[export] Hint Resolve preserves_queue_inv_callLater
  preserves_queue_inv_cancel_all : frames.

(** The properties of the call queue do not read the other fields. *)
Ltac queue_frame :=
  frame;
  try match goal with
      | H : queue_inv ?st |- queue_inv _ =>
          destruct H as [? ?]; split; simpl; assumption
      end.

Section Invariants.
Variable E : Externals.

Lemma preserves_queue_inv_run_scheduled f now :
  preserves queue_inv (run_scheduled E f now).
Proof.
  apply run_scheduled_preserves; intros;
    match goal with H : queue_inv _ |- _ => destruct H end;
    split; simpl; assumption.
Qed.

Lemma preserves_queue_inv_reactor_fire clid now :
  preserves queue_inv (reactor_fire E clid now).
Proof.
  intros st [Hq Hk]. unfold reactor_fire. erewrite bind_Ok by reflexivity.
  destruct (reactor st !! clid) as [dc|] eqn:Hc; [|by split].
  destruct (dc_status dc) eqn:Hs; [|by split..].
  erewrite bind_Ok by reflexivity.
  unfold CancellableCallQueue._call_wrapper.
  erewrite bind_Ok by reflexivity. simpl.
  rewrite (Hq _ _ Hc Hs).
  erewrite bind_Ok by reflexivity.
  apply preserves_queue_inv_run_scheduled. split.
  - intros clid' dc' H Ha. simpl in *.
    destruct (decide (clid' = clid)) as [->|Hne].
    + rewrite list_lookup_insert_eq in H by (by eapply lookup_lt_Some).
      injection H as <-. discriminate.
    + rewrite list_lookup_insert_ne in H by done.
      pose proof (Hq _ _ H Ha) as Hp.
      rewrite lookup_delete_ne; [done|].
      intros Heq. rewrite <- Heq in Hp. rewrite (Hq _ _ Hc Hs) in Hp.
      by injection Hp.
  - intros k c H. simpl in *.
    apply lookup_delete_Some in H as [_ H]. by apply Hk in H.
Qed.

Lemma step_queue_inv st op : queue_inv st -> queue_inv (step E st op).
Proof.
  intros H. destruct op; simpl;
    try (match goal with
         | |- queue_inv (final (?m st)) =>
             refine ((_ : preserves queue_inv m) st H)
         end).
  - queue_frame.
  - queue_frame.
  - apply preserves_queue_inv_reactor_fire.
  - queue_frame.
  - queue_frame.
  - queue_frame.
  - queue_frame.
  - queue_frame.
  - queue_frame.
Qed.

Lemma step_registry_inv st op : registry_inv st -> registry_inv (step E st op).
Proof.
  intros H.
  assert (Hins : forall st0 o x,
             registry_inv st0 ->
             registry_inv (set_so_store (<[o := x]> (so_store st0)) st0)).
  { intros st0 o x H0 n o' Hn. simpl in *. rewrite length_insert. by eapply H0. }
  destruct op; simpl;
    try (match goal with
         | |- registry_inv (final (?m st)) =>
             refine ((_ : preserves registry_inv m) st H)
         end).
  - frame; auto.
  - frame; auto.
  - unfold reactor_fire. frame; auto.
    apply run_scheduled_preserves; auto.
  - frame; auto.
  - frame; auto.
  - frame; auto.
  - intros s Hs. destruct (shared_objs s !! obj_name) as [o|] eqn:Hn.
    + by rewrite (useSharedObject_taken _ _ _ _ _ _ _ Hn).
    + rewrite (useSharedObject_fresh _ _ _ _ _ _ Hn). simpl.
      intros n o Hno. simpl in *. rewrite length_app. simpl.
      destruct (decide (n = obj_name)) as [->|Hne].
      * rewrite lookup_insert_eq in Hno. injection Hno as <-. lia.
      * rewrite lookup_insert_ne in Hno by done. apply Hs in Hno. lia.
  - frame; auto. intros nm o' Hno. simpl in *.
    apply lookup_delete_Some in Hno as [_ Hno].
    match goal with Hr : registry_inv _ |- _ => by eapply Hr end.
  - frame; auto.
Qed.

End Invariants.

(** *** The futures of the two trackers *)

Lemma tracked_pop_sub ms_id trans_id t ms_id' trans_id' d :
  tracked ms_id' trans_id' (DeferredTracker.pop_deferred ms_id trans_id t).2 = Some d ->
  tracked ms_id' trans_id' t = Some d /\ (ms_id', trans_id') <> (ms_id, trans_id).
Proof.
  intros H. destruct (tracked ms_id trans_id t) as [d0|] eqn:Ht.
  - destruct (pop_deferred_hit _ _ _ _ Ht) as (_ & Hgone & Hother).
    destruct (decide ((ms_id', trans_id') = (ms_id, trans_id))) as [Heq|Hne].
    + injection Heq as -> ->. congruence.
    + rewrite Hother in H by done. done.
  - rewrite (pop_deferred_miss _ _ _ Ht) in H. simpl in H.
    split; [done|]. intros [= -> ->]. congruence.
Qed.

Lemma tracked_push key trans_id d t key' trans_id' :
  tracked key' trans_id' (DeferredTracker.push_deferred key trans_id d t)
  = if decide ((key', trans_id') = (key, trans_id)) then Some d
    else tracked key' trans_id' t.
Proof.
  unfold tracked, DeferredTracker.push_deferred. simpl.
  destruct (decide (key' = key)) as [->|Hk].
  - rewrite lookup_insert_eq. simpl.
    destruct (decide (trans_id' = trans_id)) as [->|Ht].
    + rewrite lookup_insert_eq. by rewrite decide_True.
    + rewrite lookup_insert_ne by done.
      rewrite decide_False by congruence.
      by destruct (trk_pending t !! key).
  - rewrite lookup_insert_ne by done. by rewrite decide_False by congruence.
Qed.

Lemma held_lt st d : futures_inv st -> held st d -> d < length (heap st).
Proof. intros [Hp _] H. eapply lookup_lt_Some. by apply Hp. Qed.

(** Dropping entries from the trackers keeps the invariant. *)
Lemma futures_inv_mono st st' :
  futures_inv st ->
  heap st' = heap st -> so_store st' = so_store st ->
  (forall ms_id trans_id d,
      tracked ms_id trans_id (call_tracker st') = Some d ->
      tracked ms_id trans_id (call_tracker st) = Some d) ->
  (forall key, sublist (waiters key (events st')) (waiters key (events st))) ->
  futures_inv st'.
Proof.
  intros (Hp & Hinj & Hnd & Hdisj & Hte & Hso) Hh Hs Ht Hw.
  assert (Hin : forall key d, d ∈ (waiters key (events st')).*2 ->
                              d ∈ (waiters key (events st)).*2).
  { intros key d Hd. eapply elem_of_sublist; [exact Hd|].
    apply fmap_sublist, Hw. }
  assert (Hheld : forall d, held st' d -> held st d).
  { intros d [(ms & t & H)|(key & H)]; [left|right]; eauto. }
  unfold futures_inv. rewrite Hh, Hs. split_and!.
  - intros d Hd. by apply Hp, Hheld.
  - intros ms t ms' t' d H1 H2. eapply Hinj; eauto.
  - intros key. apply (sublist_NoDup _ (waiters key (events st)).*2);
      [apply Hnd | apply fmap_sublist, Hw].
  - intros key key' d H1 H2. eapply Hdisj; eauto.
  - intros ms t key d H1 H2. eapply Hte; eauto.
  - intros o so d H1 H2. destruct (Hso o so d H1 H2) as [Hlt Hnh].
    split; [done|]. intros Hd. by apply Hnh, Hheld.
Qed.

(** Firing a future that no tracker holds keeps the invariant. *)
Lemma futures_inv_fire st d r :
  futures_inv st -> ~ held st d ->
  futures_inv (set_heap (<[d := r]> (heap st)) st).
Proof.
  intros (Hp & Hinj & Hnd & Hdisj & Hte & Hso) Hnh.
  split_and!; try done.
  - intros d' Hd'. simpl.
    rewrite list_lookup_insert_ne; [by apply Hp|]. intros ->. by apply Hnh.
  - intros o so d' H1 H2. simpl. rewrite length_insert. by eapply Hso.
Qed.

(** A new Deferred keeps the invariant, and no tracker holds it. *)
Lemma futures_inv_alloc st :
  futures_inv st -> futures_inv (set_heap (heap st ++ [Pending]) st).
Proof.
  intros H. pose proof H as (Hp & Hinj & Hnd & Hdisj & Hte & Hso).
  split_and!; try done.
  - intros d' Hd'. simpl.
    rewrite lookup_app_l by (by apply held_lt). by apply Hp.
  - intros o so d' H1 H2. simpl. rewrite length_app. simpl.
    destruct (Hso o so d' H1 H2). split; [lia|done].
Qed.

Lemma futures_inv_fresh st :
  futures_inv st -> ~ held st (length (heap st)).
Proof. intros H Hh. apply held_lt in Hh; [lia|done]. Qed.

(** Tracking an unresolved future that nothing holds yet. *)
Lemma futures_inv_track st ms_id trans_id d t :
  futures_inv st ->
  heap st !! d = Some Pending -> ~ held st d ->
  (forall o so, so_store st !! o = Some so ->
                d ∉ [so_readyd so; so_deleted so; so_changed so]) ->
  trk_pending t = trk_pending (call_tracker st) ->
  futures_inv (set_call_tracker (DeferredTracker.push_deferred ms_id trans_id d t) st).
Proof.
  intros (Hp & Hinj & Hnd & Hdisj & Hte & Hso) Hd Hnh Hch Ht.
  assert (Hsame : forall ms' t', tracked ms' t' t = tracked ms' t' (call_tracker st)).
  { intros ms' t'. unfold tracked. by rewrite Ht. }
  assert (Hheld : forall d',
             held (set_call_tracker
                     (DeferredTracker.push_deferred ms_id trans_id d t) st) d' ->
             d' = d \/ held st d').
  { intros d' [(ms' & t' & H)|(key & H)].
    - simpl in H. rewrite tracked_push in H. case_decide.
      + left. congruence.
      + right. left. exists ms', t'. by rewrite <- Hsame.
    - right. right. by exists key. }
  split_and!.
  - intros d' Hd'. destruct (Hheld d' Hd') as [->|H]; [done|by apply Hp].
  - intros ms1 t1 ms2 t2 x H1 H2. simpl in H1, H2.
    rewrite tracked_push, Hsame in H1. rewrite tracked_push, Hsame in H2.
    repeat case_decide; simplify_eq; try done.
    + exfalso. apply Hnh. left. eauto.
    + exfalso. apply Hnh. left. eauto.
    + eauto.
  - exact Hnd.
  - exact Hdisj.
  - intros ms' t' key x H Hin. simpl in H. rewrite tracked_push, Hsame in H.
    case_decide; simplify_eq.
    + apply Hnh. right. by exists key.
    + by eapply Hte.
  - intros o so c H1 H2. destruct (Hso o so c H1 H2) as [Hlt Hnc].
    split; [done|]. intros Hc. destruct (Hheld c Hc) as [->|H]; [|done].
    by eapply Hch.
Qed.

(** Queueing a waiter on an unresolved future that nothing holds yet. *)
Lemma futures_inv_wait st key code d :
  futures_inv st ->
  heap st !! d = Some Pending -> ~ held st d ->
  (forall o so, so_store st !! o = Some so ->
                d ∉ [so_readyd so; so_deleted so; so_changed so]) ->
  futures_inv (set_events (StatusEventTracker.add key code d (events st)) st).
Proof.
  intros (Hp & Hinj & Hnd & Hdisj & Hte & Hso) Hd Hnh Hch.
  assert (Hin : forall key' d',
             d' ∈ (waiters key' (StatusEventTracker.add key code d (events st))).*2 ->
             (d' = d /\ key' = key) \/ d' ∈ (waiters key' (events st)).*2).
  { intros key' d' H. rewrite waiters_add in H. case_decide; [|by right].
    subst. rewrite fmap_app, elem_of_app in H. destruct H as [H|H]; [by right|].
    left. simpl in H. apply list_elem_of_singleton in H. done. }
  assert (Hheld : forall d',
             held (set_events (StatusEventTracker.add key code d (events st)) st) d' ->
             d' = d \/ held st d').
  { intros d' [(ms' & t' & H)|(key' & H)].
    - right. left. eauto.
    - simpl in H. destruct (Hin _ _ H) as [[-> _]|H']; [by left|].
      right. right. eauto. }
  split_and!.
  - intros d' Hd'. destruct (Hheld d' Hd') as [->|H]; [done|by apply Hp].
  - exact Hinj.
  - intros key'. simpl. rewrite waiters_add. case_decide; [|apply Hnd].
    subst. rewrite fmap_app. apply NoDup_app. split_and!.
    + apply Hnd.
    + intros x Hx Hx'. simpl in Hx'. apply list_elem_of_singleton in Hx'. subst.
      apply Hnh. right. eauto.
    + apply NoDup_singleton.
  - intros k1 k2 x H1 H2. simpl in H1, H2.
    destruct (Hin _ _ H1) as [[-> ->]|H1'], (Hin _ _ H2) as [[? ->]|H2']; subst.
    + done.
    + exfalso. apply Hnh. right. eauto.
    + exfalso. apply Hnh. right. eauto.
    + eauto.
  - intros ms' t' key' x H Hx. simpl in H, Hx.
    destruct (Hin _ _ Hx) as [[-> ->]|Hx'].
    + apply Hnh. left. eauto.
    + by eapply Hte.
  - intros o so c H1 H2. destruct (Hso o so c H1 H2) as [Hlt Hnc].
    split; [done|]. intros Hc. destruct (Hheld c Hc) as [->|H]; [|done].
    by eapply Hch.
Qed.

(** Taking the oldest waiter off its queue. *)
Lemma futures_inv_pop_waiter st key code d q :
  futures_inv st ->
  waiters key (events st) = (code, d) :: q ->
  futures_inv (set_events (<[key := q]> (events st)) st)
  /\ ~ held (set_events (<[key := q]> (events st)) st) d.
Proof.
  intros H Hw. pose proof H as (Hp & Hinj & Hnd & Hdisj & Hte & Hso).
  assert (Hq : forall key',
             waiters key' (<[key := q]> (events st))
             = if decide (key = key') then q else waiters key' (events st)).
  { intros key'. unfold waiters. case_decide.
    - subst. by rewrite lookup_insert_eq.
    - by rewrite lookup_insert_ne. }
  assert (Hd : d ∈ (waiters key (events st)).*2).
  { rewrite Hw. simpl. by left. }
  split.
  - apply (futures_inv_mono st); try done.
    intros key'. simpl. rewrite Hq. case_decide; [|done].
    subst. rewrite Hw. by apply sublist_cons.
  - intros [(ms' & t' & Ht)|(key' & Hk)].
    + by eapply Hte.
    + simpl in Hk. rewrite Hq in Hk. case_decide as Hkk.
      * specialize (Hnd key). rewrite Hw in Hnd. simpl in Hnd.
        apply NoDup_cons in Hnd as [Hnot _]. done.
      * apply Hkk. eapply Hdisj; eauto.
Qed.

(** Taking an entry out of the transaction tracker. *)
Lemma futures_inv_pop_deferred st ms_id trans_id :
  futures_inv st ->
  futures_inv (set_call_tracker
                 (DeferredTracker.pop_deferred ms_id trans_id (call_tracker st)).2 st)
  /\ forall d, tracked ms_id trans_id (call_tracker st) = Some d ->
       ~ held (set_call_tracker
                 (DeferredTracker.pop_deferred ms_id trans_id (call_tracker st)).2 st) d.
Proof.
  intros H. pose proof H as (Hp & Hinj & Hnd & Hdisj & Hte & Hso).
  split.
  - apply (futures_inv_mono st); try done.
    intros ms' t' d Hd. simpl in Hd. by apply tracked_pop_sub in Hd as [? _].
  - intros d Hd [(ms' & t' & Ht)|(key' & Hk)].
    + simpl in Ht. apply tracked_pop_sub in Ht as [Ht Hne].
      destruct (Hinj _ _ _ _ _ Hd Ht) as [-> ->]. done.
    + simpl in Hk. by eapply Hte.
Qed.

Lemma fresh_not_channel st o so :
  futures_inv st -> so_store st !! o = Some so ->
  length (heap st) ∉ [so_readyd so; so_deleted so; so_changed so].
Proof.
  intros (_ & _ & _ & _ & _ & Hso) H Hin.
  destruct (Hso _ _ _ H Hin). lia.
Qed.

Lemma preserves_futures_inv_command__result ts ms_id trans_id args :
  preserves futures_inv (command__result ts ms_id trans_id args).
Proof.
  intros st H. destruct (futures_inv_pop_deferred st ms_id trans_id H) as [Hpop Hnh].
  destruct (tracked ms_id trans_id (call_tracker st)) as [d|] eqn:Ht.
  - assert (Hd : heap st !! d = Some Pending).
    { destruct H as [Hp _]. apply Hp. left. eauto. }
    rewrite (command__result_hit _ _ _ _ _ _ Ht Hd). simpl.
    apply (futures_inv_fire _ d _ Hpop). by apply Hnh.
  - rewrite (command__result_miss _ _ _ _ _ Ht). exact H.
Qed.

Lemma preserves_futures_inv_command__error ts ms_id trans_id args :
  preserves futures_inv (command__error ts ms_id trans_id args).
Proof.
  intros st H. destruct (futures_inv_pop_deferred st ms_id trans_id H) as [Hpop Hnh].
  destruct (tracked ms_id trans_id (call_tracker st)) as [d|] eqn:Ht.
  - assert (Hd : heap st !! d = Some Pending).
    { destruct H as [Hp _]. apply Hp. left. eauto. }
    rewrite (command__error_hit _ _ _ _ _ _ Ht Hd). simpl.
    apply (futures_inv_fire _ d _ Hpop). by apply Hnh.
  - rewrite (command__error_miss _ _ _ _ _ Ht). exact H.
Qed.

Lemma preserves_futures_inv_dispatch key info (h : M unit) :
  preserves futures_inv h ->
  preserves futures_inv (StatusEventTracker.dispatch key info (Some h)).
Proof.
  intros Hh st H.
  destruct (waiters key (events st)) as [|[code d] q] eqn:Hw.
  - rewrite (dispatch_miss _ _ _ _ Hw). by apply Hh.
  - assert (Hd : heap st !! d = Some Pending).
    { destruct H as [Hp _]. apply Hp. right. exists key. rewrite Hw. by left. }
    rewrite (dispatch_hit _ _ _ _ _ _ _ Hw Hd). simpl.
    destruct (futures_inv_pop_waiter _ _ _ _ _ H Hw) as [Hpop Hnh].
    by apply (futures_inv_fire _ d _ Hpop).
Qed.

Lemma preserves_futures_inv_command_onStatus ts ms_id trans_id none_ info :
  preserves futures_inv (command_onStatus ts ms_id trans_id none_ info).
Proof.
  apply preserves_futures_inv_dispatch. intros st H. exact H.
Qed.

Lemma preserves_futures_inv_waitStatus ms_id code :
  preserves futures_inv (waitStatus ms_id code).
Proof.
  intros st H.
  change (futures_inv
            (set_events
               (StatusEventTracker.add (_onStatus_ev_key ms_id) code
                  (length (heap st)) (events st))
               (set_heap (heap st ++ [Pending]) st))).
  apply (futures_inv_wait (set_heap (heap st ++ [Pending]) st)).
  - by apply futures_inv_alloc.
  - simpl. rewrite lookup_app_r by lia. by rewrite Nat.sub_diag.
  - exact (futures_inv_fresh st H).
  - intros o so Hso. by apply (fresh_not_channel st o so).
Qed.

Lemma preserves_futures_inv_callRemote E ms_id cmd args :
  preserves futures_inv (callRemote E ms_id cmd args).
Proof.
  intros st H.
  unfold callRemote, _sendRemote, next_trans, _send_command, bind, gets,
    modify, ret, sendMessage, emit, Deferred.new. simpl.
  destruct (decide (_ = 0%Z)) as [_|_]; simpl.
  - apply (futures_inv_mono st); try done.
  - set (n := default DeferredTracker.init_trans_id
                (trk_next_trans_id (call_tracker st) !! ms_id)).
    assert (X : futures_inv
                  (set_call_tracker
                     (DeferredTracker.push_deferred ms_id n (length (heap st))
                        (DeferredTracker.next_trans ms_id (call_tracker st)).2)
                     (set_heap (heap st ++ [Pending]) st))).
    { apply (futures_inv_track (set_heap (heap st ++ [Pending]) st)).
      - by apply futures_inv_alloc.
      - simpl. rewrite lookup_app_r by lia. by rewrite Nat.sub_diag.
      - exact (futures_inv_fresh st H).
      - intros o so Hso. by apply (fresh_not_channel st o so).
      - reflexivity. }
    exact X.
Qed.

(** *** From the invariant to the lists [connectionLost] walks *)

Lemma fmap_bind_list {A B C} (f : B -> C) (g : A -> list B) (l : list A) :
  f <$> (l ≫= g) = l ≫= (fun x => f <$> g x).
Proof.
  induction l as [|x l IH]; [done|]. csimpl. by rewrite fmap_app, IH.
Qed.

Lemma in_iter_all t d :
  d ∈ (DeferredTracker.iter_all t).*2 ->
  exists ms_id trans_id, tracked ms_id trans_id t = Some d.
Proof.
  unfold DeferredTracker.iter_all. rewrite fmap_bind_list.
  intros ([ms kq] & Hd & Hkq)%list_elem_of_bind.
  apply elem_of_map_to_list in Hkq. simpl in Hd.
  rewrite <- list_fmap_compose in Hd.
  apply list_elem_of_fmap in Hd as ([tr d'] & -> & Htd).
  apply elem_of_map_to_list in Htd.
  exists ms, tr. unfold tracked. rewrite Hkq. simpl. exact Htd.
Qed.

Lemma in_pop_all ev d :
  d ∈ (StatusEventTracker.pop_all ev).1.*2 ->
  exists key, d ∈ (waiters key ev).*2.
Proof.
  unfold StatusEventTracker.pop_all. simpl. rewrite fmap_bind_list.
  intros ([key q] & Hd & Hq)%list_elem_of_bind.
  apply elem_of_map_to_list in Hq. exists key. unfold waiters. by rewrite Hq.
Qed.

Lemma futures_inv_ok st : futures_inv st -> futures_ok st.
Proof.
  intros (Hp & Hinj & Hnd & Hdisj & Hte & Hso). split.
  - unfold pending_futures. apply NoDup_app. split_and!.
    + unfold StatusEventTracker.pop_all. simpl. rewrite fmap_bind_list.
      apply NoDup_bind.
      * intros [k1 q1] [k2 q2] y H1%elem_of_map_to_list H2%elem_of_map_to_list Hy1 Hy2.
        simpl in *.
        assert (k1 = k2) as ->.
        { apply (Hdisj k1 k2 y); unfold waiters; by rewrite ?H1, ?H2. }
        congruence.
      * intros [k q] H%elem_of_map_to_list. simpl.
        specialize (Hnd k). unfold waiters in Hnd. by rewrite H in Hnd.
      * apply NoDup_map_to_list.
    + intros x (key & Hx)%in_pop_all (ms & tr & Ht)%in_iter_all.
      by eapply Hte.
    + unfold DeferredTracker.iter_all. rewrite fmap_bind_list.
      apply NoDup_bind.
      * intros [m1 kq1] [m2 kq2] y H1%elem_of_map_to_list H2%elem_of_map_to_list.
        simpl. rewrite <- !list_fmap_compose.
        intros ([t1 d1] & -> & Ht1%elem_of_map_to_list)%list_elem_of_fmap.
        intros ([t2 d2] & Heq & Ht2%elem_of_map_to_list)%list_elem_of_fmap.
        simpl in *. subst d2.
        assert (m1 = m2 /\ t1 = t2) as [-> ->].
        { apply (Hinj m1 t1 m2 t2 d1); unfold tracked.
          - rewrite H1. exact Ht1.
          - rewrite H2. exact Ht2. }
        congruence.
      * intros [m kq] H%elem_of_map_to_list. simpl.
        rewrite <- list_fmap_compose. apply NoDup_fmap_2_strong.
        -- intros [t1 d1] [t2 d2] Ht1%elem_of_map_to_list Ht2%elem_of_map_to_list Heq.
           simpl in Heq. subst d2.
           assert (m = m /\ t1 = t2) as [_ ->]; [|done].
           apply (Hinj m t1 m t2 d1); unfold tracked; rewrite H; assumption.
        -- apply NoDup_map_to_list.
      * apply NoDup_map_to_list.
  - apply Forall_forall. intros d Hd. apply Hp.
    unfold pending_futures in Hd. apply elem_of_app in Hd as [Hd|Hd].
    + right. by apply in_pop_all.
    + left. by apply in_iter_all.
Qed.

(** *** Shared objects and disconnection *)

Lemma futures_inv_fire_unheld st d r :
  futures_inv st -> ~ held st d -> futures_inv (final (Deferred.fire d r st)).
Proof.
  intros H Hnh. unfold Deferred.fire.
  destruct (heap st !! d) as [[]|]; simpl; try exact H.
  by apply futures_inv_fire.
Qed.

(** Replacing the objects by ones whose channels nothing holds. *)
Lemma futures_inv_so_store st sos :
  futures_inv st ->
  (forall o so c,
      sos !! o = Some so ->
      c ∈ [so_readyd so; so_deleted so; so_changed so] ->
      c < length (heap st) /\ ~ held st c) ->
  futures_inv (set_so_store sos st).
Proof.
  intros (Hp & Hinj & Hnd & Hdisj & Hte & Hso) Hnew.
  split_and!; try done.
Qed.

Lemma futures_inv_channel st o so c :
  futures_inv st -> so_store st !! o = Some so ->
  c ∈ [so_readyd so; so_deleted so; so_changed so] ->
  c < length (heap st) /\ ~ held st c.
Proof. intros (_ & _ & _ & _ & _ & Hso). apply Hso. Qed.

Section FutureInvariants.
Variable E : Externals.

Lemma preserves_futures_inv_onUseSuccess o event :
  preserves futures_inv (SharedObject.onUseSuccess o event).
Proof.
  intros st H. unfold SharedObject.onUseSuccess, bind, assert.
  destruct (bool_decide _); simpl; [|exact H].
  unfold SharedObject.self. destruct (so_store st !! o) as [so|] eqn:Hs; [|exact H].
  apply futures_inv_fire_unheld; [done|].
  eapply futures_inv_channel; [done..|]. by left.
Qed.

Lemma preserves_futures_inv_onChange o key_name value :
  preserves futures_inv (SharedObject.onChange o key_name value).
Proof.
  intros st H. unfold SharedObject.onChange.
  erewrite bind_Ok by reflexivity.
  set (st1 := set_trace _ st).
  assert (H1 : futures_inv st1) by exact H.
  unfold bind at 1, SharedObject.self. simpl.
  destruct (so_store st !! o) as [so|] eqn:Hs; [|exact H1].
  erewrite bind_Ok by reflexivity. erewrite bind_Ok by reflexivity.
  apply futures_inv_fire_unheld.
  - apply futures_inv_so_store; [by apply (futures_inv_alloc st1)|].
    intros o' so' c Ho' Hc. simpl in Ho', Hc |- *.
    rewrite length_app. simpl.
    destruct (decide (o' = o)) as [->|Hne].
    + rewrite list_lookup_insert_eq in Ho' by (by eapply lookup_lt_Some).
      injection Ho' as <-. simpl in Hc.
      rewrite !elem_of_cons in Hc.
      destruct Hc as [->|[->|[->|Hc]]]; [| | |by apply elem_of_nil in Hc].
      * destruct (futures_inv_channel st o so (so_readyd so) H Hs) as [? ?];
          [by left|]. split; [lia|done].
      * destruct (futures_inv_channel st o so (so_deleted so) H Hs) as [? ?];
          [right; by left|]. split; [lia|done].
      * split; [lia|]. exact (futures_inv_fresh st H).
    + rewrite list_lookup_insert_ne in Ho' by done.
      destruct (futures_inv_channel st o' so' c H Ho' Hc) as [? ?].
      split; [lia|done].
  - destruct (futures_inv_channel st o so (so_changed so) H Hs) as [_ Hnh];
      [right; right; by left|]. exact Hnh.
Qed.

Lemma preserves_futures_inv_onDelete o key_name :
  preserves futures_inv (SharedObject.onDelete o key_name).
Proof.
  intros st H. unfold SharedObject.onDelete.
  erewrite bind_Ok by reflexivity.
  set (st1 := set_trace _ st).
  assert (H1 : futures_inv st1) by exact H.
  unfold bind at 1, SharedObject.self. simpl.
  destruct (so_store st !! o) as [so|] eqn:Hs; [|exact H1].
  erewrite bind_Ok by reflexivity. erewrite bind_Ok by reflexivity.
  apply futures_inv_fire_unheld.
  - apply futures_inv_so_store; [by apply (futures_inv_alloc st1)|].
    intros o' so' c Ho' Hc. simpl in Ho', Hc |- *.
    rewrite length_app. simpl.
    destruct (decide (o' = o)) as [->|Hne].
    + rewrite list_lookup_insert_eq in Ho' by (by eapply lookup_lt_Some).
      injection Ho' as <-. simpl in Hc.
      rewrite !elem_of_cons in Hc.
      destruct Hc as [->|[->|[->|Hc]]]; [| | |by apply elem_of_nil in Hc].
      * destruct (futures_inv_channel st o so (so_readyd so) H Hs) as [? ?];
          [by left|]. split; [lia|done].
      * split; [lia|]. exact (futures_inv_fresh st H).
      * destruct (futures_inv_channel st o so (so_changed so) H Hs) as [? ?];
          [right; right; by left|]. split; [lia|done].
    + rewrite list_lookup_insert_ne in Ho' by done.
      destruct (futures_inv_channel st o' so' c H Ho' Hc) as [? ?].
      split; [lia|done].
  - destruct (futures_inv_channel st o so (so_deleted so) H Hs) as [_ Hnh];
      [right; by left|]. exact Hnh.
Qed.

Lemma preserves_futures_inv_onEvent o event :
  preserves futures_inv (SharedObject.onEvent E o event).
Proof.
  unfold SharedObject.onEvent. destruct (ev_type event).
  - unfold SharedObject.unhandledEvent. frame.
  - unfold SharedObject.unhandledEvent. frame.
  - unfold SharedObject.onChangeRaw.
    destruct (amf0_decode_so_event_change_data E (ev_data event)) as [e|[|[k v] l]].
    + destruct e; frame.
    + apply preserves_raise.
    + apply preserves_futures_inv_onChange.
  - frame.
  - frame.
  - unfold SharedObject.onDeleteRaw.
    apply preserves_bind; [frame|intros _].
    apply preserves_bind; [frame|intros k].
    apply preserves_futures_inv_onDelete.
  - apply preserves_futures_inv_onUseSuccess.
  - unfold SharedObject.unhandledEvent. frame.
Qed.

End FutureInvariants.

Lemma futures_inv_registered obj_name persistance st :
  futures_inv st -> futures_inv (registered obj_name persistance st).
Proof.
  intros H.
  set (st3 := set_heap (heap st ++ [Pending; Pending; Pending]) st).
  assert (H3 : futures_inv st3).
  { pose proof (futures_inv_alloc _ (futures_inv_alloc _ (futures_inv_alloc _ H))) as X.
    apply (futures_inv_mono _ st3) in X; try done.
    simpl. by rewrite <- !app_assoc. }
  apply (futures_inv_so_store st3
           (so_store st ++
              [{| so_name := obj_name; so_readyd := length (heap st);
                  so_deleted := S (length (heap st));
                  so_changed := S (S (length (heap st)));
                  so_persistance := persistance |}])) in H3; [exact H3|].
  intros o so c Ho Hc. simpl. rewrite length_app. simpl.
  destruct (decide (o < length (so_store st))) as [Hlt|Hge].
  - rewrite lookup_app_l in Ho by done.
    destruct (futures_inv_channel st o so c H Ho Hc) as [? ?]. split; [lia|done].
  - rewrite lookup_app_r in Ho by lia.
    destruct (o - length (so_store st)) as [|n]; [|by destruct n].
    injection Ho as <-. simpl in Hc. rewrite !elem_of_cons in Hc.
    assert (Hfresh : forall c', length (heap st) <= c' -> ~ held st c').
    { intros c' Hle Hh. apply (held_lt _ _ H) in Hh. lia. }
    destruct Hc as [->|[->|[->|Hc]]]; [| | |by apply elem_of_nil in Hc];
      (split; [lia|apply Hfresh; lia]).
Qed.

Lemma futures_inv_disconnected reason st :
  futures_inv st -> futures_inv (disconnected reason st).
Proof.
  intros (Hp & Hinj & Hnd & Hdisj & Hte & Hso).
  assert (Hnone : forall d, ~ held (disconnected reason st) d).
  { intros d [(ms & t & H)|(key & H)].
    - unfold tracked in H. simpl in H. by rewrite lookup_empty in H.
    - unfold waiters in H. simpl in H. rewrite lookup_empty in H.
      by apply elem_of_nil in H. }
  split_and!.
  - intros d Hd. by apply Hnone in Hd.
  - intros ms t ms' t' d H. unfold tracked in H. simpl in H.
    by rewrite lookup_empty in H.
  - intros key. unfold waiters. simpl. rewrite lookup_empty. apply NoDup_nil_2.
  - intros key key' d H. unfold waiters in H. simpl in H.
    rewrite lookup_empty in H. by apply elem_of_nil in H.
  - intros ms t key d H. unfold tracked in H. simpl in H.
    by rewrite lookup_empty in H.
  - intros o so c Ho Hc. split; [|apply Hnone].
    simpl. rewrite !fail_all_length. by eapply Hso.
Qed.

Lemma preserves_futures_inv_connectionLost reason :
  preserves futures_inv (EventDispatchProtocol.connectionLost reason).
Proof.
  intros st H. destruct reason as [r|].
  - rewrite (connectionLost_eq r st (futures_inv_ok st H)). simpl.
    by apply futures_inv_disconnected.
  - unfold EventDispatchProtocol.connectionLost.
    erewrite bind_Ok by reflexivity.
    unfold CommandDispatchProtocol.connectionLost.
    erewrite bind_Ok by apply cc_cancel_all_eq.
    erewrite bind_Ok by reflexivity. erewrite bind_Ok by reflexivity.
    match goal with
    | |- futures_inv (final (bind (for_each ?l ?f) ?k ?s)) =>
        assert (Hs : futures_inv s);
        [|destruct l; [exact Hs|exact Hs]]
    end.
    apply (futures_inv_mono st); try done.
    intros key. unfold waiters at 1. simpl. rewrite lookup_empty.
    apply sublist_nil_l.
Qed.

Section FutureSteps.
Variable E : Externals.

Lemma preserves_futures_inv_run_scheduled f now :
  preserves futures_inv (run_scheduled E f now).
Proof.
  destruct f as [cmd ts ms t args|h ts ms t args]; simpl.
  - apply preserves_bind; [|intros; apply preserves_ret].
    unfold unknownCommandType.
    apply preserves_bind; [frame|intros; by apply remote_chain_preserves].
  - destruct h; simpl.
    + apply preserves_futures_inv_command__result.
    + apply preserves_futures_inv_command__error.
    + destruct args as [|none_ [|info [|]]]; try apply preserves_raise.
      apply preserves_futures_inv_command_onStatus.
Qed.

Lemma step_futures_inv st op : futures_inv st -> futures_inv (step E st op).
Proof.
  intros H. destruct op; simpl;
    try (match goal with
         | |- futures_inv (final (?m st)) =>
             refine ((_ : preserves futures_inv m) st H)
         end).
  - frame.
  - unfold doSharedObj. apply preserves_bind; [apply preserves_gets|intros reg].
    destruct (reg !! obj_name); [|frame].
    apply preserves_for_each. intros e. apply preserves_futures_inv_onEvent.
  - unfold reactor_fire. frame. apply preserves_futures_inv_run_scheduled.
  - apply preserves_futures_inv_callRemote.
  - frame.
  - exact (preserves_futures_inv_waitStatus ms_id code st H).
  - intros s Hs. destruct (shared_objs s !! obj_name) as [o|] eqn:Hn.
    + by rewrite (useSharedObject_taken _ _ _ _ _ _ _ Hn).
    + rewrite (useSharedObject_fresh _ _ _ _ _ _ Hn). simpl.
      by apply (futures_inv_registered obj_name persistance s).
  - frame.
  - apply preserves_futures_inv_connectionLost.
Qed.

(** The three invariants hold after every run from a fresh instance. *)
Lemma reachable_inv ops :
  futures_inv (run E ops init)
  /\ queue_inv (run E ops init)
  /\ registry_inv (run E ops init).
Proof.
  induction ops as [|op ops IH] using rev_ind.
  - split_and!.
    + split_and!; try done.
      * intros d [(ms & t & H)|(key & H)]; [done|].
        by apply elem_of_nil in H.
      * intros key. apply NoDup_nil_2.
      * intros key key' d H. by apply elem_of_nil in H.
    + split; [intros clid dc H; done|intros k c H; done].
    + intros n o H. done.
  - destruct IH as (Hf & Hq & Hr). unfold run in *. rewrite foldl_app. simpl.
    split_and!.
    + by apply step_futures_inv.
    + by apply step_queue_inv.
    + by apply step_registry_inv.
Qed.

(** What [connectionLost] and the replies need holds on every run. *)
Lemma reachable_ok ops :
  futures_ok (run E ops init) /\ queue_ok (run E ops init).
Proof.
  destruct (reachable_inv ops) as (Hf & [Hq _] & _).
  split; [by apply futures_inv_ok | exact Hq].
Qed.

End FutureSteps.

(** ** The claims *)

(** C1: a [_result] (an [_error]) reply for a pair that has a pending
    entry fulfils its future with the reply values (fails it with the
    call-result error built from them) and removes the entry, leaving
    every other entry alone and reporting nothing; any later reply for the
    same pair finds nothing, is reported once as unexpected and leaves the
    future as it was resolved.  A reply for a pair without an entry
    returns normally, adds exactly the one diagnostic to the log and
    changes nothing else.  After every run of the protocol from a fresh
    instance the future of a pending entry has no result yet, so the first
    case is the one that applies to it. *)
Theorem C1_reply_resolution (ts ms_id trans_id : Z) (args : list PyVal)
    (st : Proto) :
  (forall d,
      tracked ms_id trans_id (call_tracker st) = Some d ->
      heap st !! d = Some Pending ->
      command__result ts ms_id trans_id args st
      = Ok tt (resolved ms_id trans_id d (Fulfilled (VTuple args)) st)
      /\ command__error ts ms_id trans_id args st
         = Ok tt (resolved ms_id trans_id d (Failed (CommandResultError args)) st)
      /\ forall r,
           let st1 := resolved ms_id trans_id d r st in
           heap st1 !! d = Some r
           /\ trace st1 = trace st
           /\ tracked ms_id trans_id (call_tracker st1) = None
           /\ (forall ms' t', (ms', t') <> (ms_id, trans_id) ->
                 tracked ms' t' (call_tracker st1)
                 = tracked ms' t' (call_tracker st))
           /\ forall ts' args',
                command__result ts' ms_id trans_id args' st1
                = Ok tt (set_trace (trace st1 ++
                           [Log LWarning
                              (LogUnexpectedResult ts' ms_id trans_id args')]) st1)
                /\ command__error ts' ms_id trans_id args' st1
                   = Ok tt (set_trace (trace st1 ++
                              [Log LWarning
                                 (LogUnexpectedError ts' ms_id trans_id args')]) st1))
  /\ (tracked ms_id trans_id (call_tracker st) = None ->
      command__result ts ms_id trans_id args st
      = Ok tt (set_trace (trace st ++
                 [Log LWarning (LogUnexpectedResult ts ms_id trans_id args)]) st)
      /\ command__error ts ms_id trans_id args st
         = Ok tt (set_trace (trace st ++
                    [Log LWarning (LogUnexpectedError ts ms_id trans_id args)]) st))
  /\ (forall (E : Externals) (ops : list Op) d,
        tracked ms_id trans_id (call_tracker (run E ops init)) = Some d ->
        heap (run E ops init) !! d = Some Pending).
Proof.
  split; [|split].
  - intros d H Hd. split; [by apply command__result_hit|].
    split; [by apply command__error_hit|].
    intros r st1. destruct (pop_deferred_hit _ _ _ _ H) as (_ & Hgone & Hother).
    assert (Hlt : d < length (heap st)) by (eapply lookup_lt_Some; eassumption).
    split; [by apply list_lookup_insert_eq|].
    split; [reflexivity|]. split; [exact Hgone|]. split; [exact Hother|].
    intros ts' args'. split.
    + by apply command__result_miss.
    + by apply command__error_miss.
  - intros H. split.
    + by apply command__result_miss.
    + by apply command__error_miss.
  - intros E ops d H. destruct (reachable_inv E ops) as ((Hp & _) & _).
    apply Hp. left. eauto.
Qed.

(** C2: [connectionLost] with a disconnect reason, on an instance whose
    pending futures are distinct and unresolved and whose active delayed
    calls are all registered in the call queue, returns normally and:
    every scheduled command dispatch that had not fired is cancelled, no
    delayed call is active any more, and however the reactor goes on the
    instance does not change again (no handler runs); every pending call
    future and every pending status waiter, whatever its stream and
    expected code, is failed with the reason; the transaction tracker, the
    waiter queues and the call queue are empty.  The two conditions hold
    after every run of the protocol from a fresh instance. *)
Theorem C2_connection_lost (E : Externals) (reason : Exn) (st : Proto) :
  (futures_ok st -> queue_ok st ->
  let st' := disconnected reason st in
  EventDispatchProtocol.connectionLost (Some reason) st = Ok tt st'
  /\ (forall clid dc,
        reactor st !! clid = Some dc -> dc_status dc = CallActive ->
        reactor st' !! clid = Some (DelayedCalls.set_status CallCancelled dc))
  /\ (forall clid dc, reactor st' !! clid = Some dc -> dc_status dc <> CallActive)
  /\ (forall fires : list (nat * Z),
        run E ((fun f => OpReactorFire f.1 f.2) <$> fires) st' = st')
  /\ (forall ms_id trans_id d,
        tracked ms_id trans_id (call_tracker st) = Some d ->
        heap st' !! d = Some (Failed reason))
  /\ (forall key code d,
        (code, d) ∈ waiters key (events st) ->
        heap st' !! d = Some (Failed reason))
  /\ DeferredTracker.iter_all (call_tracker st') = []
  /\ (forall ms_id trans_id, tracked ms_id trans_id (call_tracker st') = None)
  /\ (forall key, waiters key (events st') = [])
  /\ ccq_pending (cc_queue st') = ∅
  /\ trace st' = trace st ++ [BaseConnectionLost (Some reason)])
  /\ (forall ops, futures_ok (run E ops init) /\ queue_ok (run E ops init)).
Proof.
  split; [|apply reachable_ok].
  intros Hok Hq st'.
  assert (Hidle : forall clid dc,
             reactor st' !! clid = Some dc -> dc_status dc <> CallActive).
  { intros clid dc H Ha. simpl in H.
    destruct (cancel_all_status _ _ _ _ H Ha) as [H0 Hnot].
    apply Hnot. apply list_elem_of_fmap. exists (dc_call_key dc, clid).
    split; [done|]. apply elem_of_map_to_list. by apply Hq. }
  destruct Hok as [Hnd Hp]. unfold pending_futures in *.
  pose proof Hnd as Hnd'. apply NoDup_app in Hnd' as (_ & Hdisj & _).
  pose proof Hp as Hp'. apply Forall_app in Hp' as [Hpw Hpc].
  rewrite Forall_forall in Hpw, Hpc.
  split; [by apply connectionLost_eq|].
  split.
  { intros clid dc H Ha. simpl. apply cancel_all_cancelled; [done..|].
    apply list_elem_of_fmap. exists (dc_call_key dc, clid).
    split; [done|]. apply elem_of_map_to_list. by apply Hq. }
  split; [exact Hidle|].
  split.
  { intros fires. induction fires as [|f fires IH]; [done|].
    unfold run in *. simpl. rewrite reactor_fire_idle by exact Hidle. exact IH. }
  split.
  { intros ms_id trans_id d H. simpl.
    pose proof (tracked_iter_all _ _ _ _ H) as Hin.
    apply fail_all_in; [done|]. rewrite fail_all_length.
    eapply lookup_lt_Some. by apply Hpc. }
  split.
  { intros key code d H. simpl.
    assert (Hin : d ∈ snd <$> (StatusEventTracker.pop_all (events st)).1).
    { apply list_elem_of_fmap. exists (code, d). split; [done|].
      by eapply waiters_pop_all. }
    rewrite fail_all_notin by (by apply Hdisj).
    apply fail_all_in; [done|]. eapply lookup_lt_Some. by apply Hpw. }
  split; [done|]. split; [done|]. split; [done|]. done.
Qed.

(** C3: when the handler of a remote method invocation fails, then: on
    the call-aborted signal the failure is logged and nothing is sent; on
    a structured call-result error an [_error] reply built from the
    error's wire arguments is sent on the call's stream, and when the
    error is fatal the connection is closed right after the send; on any
    other failure a generic [_error] reply is sent whose payload is
    [None] and an object with code ['NetStream.Failed'], level ['error']
    and the failure's text as description, and the connection is not
    closed.  Nothing else of the instance changes. *)
Theorem C3_remote_failure (E : Externals) (cmd : string)
    (ts ms_id trans_id : Z) (args : list PyVal) (now : Z) (st : Proto)
    (handler_m : Z -> Z -> list PyVal -> Outcome) (failure : Exn) :
  remote_method E cmd = Some handler_m ->
  handler_m ts ms_id args = Raised failure ->
  (forall msg, failure = CallAbortedException msg ->
     unknownCommandType E cmd ts ms_id trans_id args now st
     = Ok (Returned VNone)
          (set_trace (trace st ++ [Log LDebug (LogCallAborted failure)]) st))
  /\ (forall error_args is_fatal,
        failure = CallResultError error_args is_fatal ->
        unknownCommandType E cmd ts ms_id trans_id args now st
        = Ok (Returned VNone)
             (set_trace
                (trace st ++
                   [Log LInfo (LogCallFailure failure);
                    SendMessage now MSG_COMMAND ms_id
                      (amf0_encode E (VStr "_error" :: VInt trans_id :: error_args))]
                   ++ (if is_fatal then [LoseConnection] else [])) st))
  /\ ((forall msg, failure <> CallAbortedException msg) ->
      (forall error_args is_fatal, failure <> CallResultError error_args is_fatal) ->
      unknownCommandType E cmd ts ms_id trans_id args now st
      = Ok (Returned VNone)
           (set_trace
              (trace st ++
                 [Log LInfo (LogCallFailure failure);
                  SendMessage now MSG_COMMAND ms_id
                    (amf0_encode E
                       [VStr "_error"; VInt trans_id; VNone;
                        VObject [("code", VStr "NetStream.Failed");
                                 ("level", VStr "error");
                                 ("description", VStr (py_repr_exn E failure))]])])
              st)).
Proof.
  intros Hm Hf. unfold unknownCommandType. rewrite Hm.
  erewrite bind_Ok by (unfold ret; rewrite Hf; reflexivity).
  unfold remote_chain.
  split; [|split].
  - intros msg ->. destruct (decide (trans_id = 0%Z)); reflexivity.
  - intros error_args is_fatal ->.
    destruct (decide (trans_id = 0%Z)), is_fatal; simpl;
      unfold bind, emit, sendMessage, modify, ret; simpl;
      rewrite <- ?app_assoc; reflexivity.
  - intros Hna Hnr.
    destruct failure;
      try (exfalso; first [by eapply Hna | by eapply Hnr]);
      destruct (decide (trans_id = 0%Z)); simpl;
      unfold bind, emit, sendMessage, modify, ret; simpl;
      rewrite <- ?app_assoc; reflexivity.
Qed.

(** C4: on every stream the n-th tracked call ([callRemote]) is given
    transaction id n, whatever happened on the connection before and
    whatever was allocated on other streams: the call registers a fresh
    pending future under that id and sends the command with it.  A signal
    ([signalRemote]) is sent with transaction id 0, registers nothing and
    returns no future.  After [reset] the ids start again at 1. *)
Theorem C4_transaction_ids (E : Externals) (ops : list Op) (ms_id : Z)
    (cmd : string) (args : list PyVal) :
  let st := run E ops init in
  let n := Z.of_nat (S (count_calls ms_id ops)) in
  let d := length (heap st) in
  (exists st',
      callRemote E ms_id cmd args st = Ok (Some d) st'
      /\ trace st' = trace st ++
           [SendMessage 0 MSG_COMMAND ms_id
              (amf0_encode E (VStr cmd :: VInt n :: args))]
      /\ tracked ms_id n (call_tracker st') = Some d
      /\ heap st' !! d = Some Pending
      /\ next_id ms_id st' = (n + 1)%Z
      /\ forall ms', ms' <> ms_id -> next_id ms' st' = next_id ms' st)
  /\ signalRemote E ms_id cmd args st
     = Ok None
          (set_trace (trace st ++
             [SendMessage 0 MSG_COMMAND ms_id
                (amf0_encode E (VStr cmd :: VInt 0 :: args))]) st)
  /\ forall t, (DeferredTracker.next_trans ms_id (DeferredTracker.reset t)).1 = 1%Z.
Proof.
  intros st n d.
  assert (Hn : next_id ms_id st = n).
  { unfold st, n. rewrite next_id_run. lia. }
  split; [|split].
  - eexists. split; [apply callRemote_eq; lia|].
    fold st. rewrite Hn. simpl.
    repeat split.
    + apply tracked_push_deferred.
    + unfold d. rewrite lookup_app_r by lia. by rewrite Nat.sub_diag.
    + unfold next_id. simpl. fold (next_id ms_id st).
      rewrite lookup_insert_eq. simpl. by rewrite Hn.
    + intros ms' Hne. unfold next_id. simpl. by rewrite lookup_insert_ne.
  - apply signalRemote_eq.
  - intros t. unfold DeferredTracker.next_trans, DeferredTracker.reset. simpl.
    by rewrite lookup_empty.
Qed.

(** C5: when no waiter is queued for stream [ms_id] and [W1] then [W2]
    are registered for it, the first status event dispatched on the stream
    resolves [W1] and leaves [W2] pending, the second resolves [W2], each
    with what the event means for that waiter's expected code and whatever
    the codes are; each dispatch takes one waiter off the queue, and the
    queues of other keys are as before.  Streams do not share a queue:
    through the two registrations and the two events the waiters of every
    other stream are queued as they were, and every future that existed
    before, those of other waiters among them, is as it was; only the two
    futures of [W1] and [W2] are new.  In any state, a registration or a
    status event on another stream leaves the queue of [ms_id] alone, the
    event touching no future but that of the oldest waiter of its own
    stream, and a status event on [ms_id] takes at most the oldest waiter
    off its queue. *)
Theorem C5_status_fifo (ms_id : Z) (c1 c2 : option string) (e1 e2 : PyVal)
    (ts1 ts2 t1 t2 : Z) (n1 n2 : PyVal) (st : Proto) :
  waiters (_onStatus_ev_key ms_id) (events st) = [] ->
  let w1 := length (heap st) in
  let w2 := S (length (heap st)) in
  exists st1 st2 st3 st4,
    waitStatus ms_id c1 st = Ok w1 st1
    /\ waitStatus ms_id c2 st1 = Ok w2 st2
    /\ waiters (_onStatus_ev_key ms_id) (events st2) = [(c1, w1); (c2, w2)]
    /\ command_onStatus ts1 ms_id t1 n1 e1 st2 = Ok tt st3
    /\ heap st3 !! w1 = Some (status_outcome c1 e1)
    /\ heap st3 !! w2 = Some Pending
    /\ waiters (_onStatus_ev_key ms_id) (events st3) = [(c2, w2)]
    /\ command_onStatus ts2 ms_id t2 n2 e2 st3 = Ok tt st4
    /\ heap st4 !! w1 = Some (status_outcome c1 e1)
    /\ heap st4 !! w2 = Some (status_outcome c2 e2)
    /\ waiters (_onStatus_ev_key ms_id) (events st4) = []
    /\ status_outcome c1 e1 <> Pending
    /\ status_outcome c2 e2 <> Pending
    /\ (forall key, key <> _onStatus_ev_key ms_id ->
          waiters key (events st4) = waiters key (events st))
    /\ trace st4 = trace st
    /\ (forall ms_id' s,
          ms_id' <> ms_id -> s ∈ [st1; st2; st3; st4] ->
          waiters (_onStatus_ev_key ms_id') (events s)
          = waiters (_onStatus_ev_key ms_id') (events st))
    /\ (forall d s,
          d < length (heap st) -> s ∈ [st1; st2; st3; st4] ->
          heap s !! d = heap st !! d)
    /\ length (heap st4) = S (S (length (heap st)))
    /\ (forall ms_id' code s0,
          ms_id' <> ms_id ->
          let s' := final (waitStatus ms_id' code s0) in
          waiters (_onStatus_ev_key ms_id) (events s')
          = waiters (_onStatus_ev_key ms_id) (events s0)
          /\ waiters (_onStatus_ev_key ms_id') (events s')
             = waiters (_onStatus_ev_key ms_id') (events s0)
               ++ [(code, length (heap s0))]
          /\ forall d, d < length (heap s0) -> heap s' !! d = heap s0 !! d)
    /\ (forall ms_id' ts t n e s0,
          ms_id' <> ms_id ->
          let s' := final (command_onStatus ts ms_id' t n e s0) in
          waiters (_onStatus_ev_key ms_id) (events s')
          = waiters (_onStatus_ev_key ms_id) (events s0)
          /\ forall d,
               head (waiters (_onStatus_ev_key ms_id') (events s0)).*2 <> Some d ->
               heap s' !! d = heap s0 !! d)
    /\ (forall ts t n e s0,
          waiters (_onStatus_ev_key ms_id)
            (events (final (command_onStatus ts ms_id t n e s0)))
          = tail (waiters (_onStatus_ev_key ms_id) (events s0))).
Proof.
  intros Hw w1 w2.
  assert (Hinj : forall ms_id', ms_id' <> ms_id ->
                   _onStatus_ev_key ms_id' <> _onStatus_ev_key ms_id).
  { intros ms_id' Hne Heq. apply Hne. unfold _onStatus_ev_key in Heq.
    congruence. }
  set (key := _onStatus_ev_key ms_id) in *.
  set (st1 := set_events (StatusEventTracker.add key c1 w1 (events st))
                (set_heap (heap st ++ [Pending]) st)).
  set (st2 := set_events (StatusEventTracker.add key c2 w2 (events st1))
                (set_heap (heap st1 ++ [Pending]) st1)).
  assert (Hq2 : waiters key (events st2) = [(c1, w1); (c2, w2)]).
  { simpl. rewrite !waiters_add, !decide_True by done. by rewrite Hw. }
  assert (Hh1 : heap st2 !! w1 = Some Pending).
  { simpl. rewrite lookup_app_l by (rewrite length_app; simpl; lia).
    unfold w1. rewrite lookup_app_r by lia. by rewrite Nat.sub_diag. }
  assert (Hh2 : heap st2 !! w2 = Some Pending).
  { simpl. unfold w2. rewrite lookup_app_r by (rewrite length_app; simpl; lia).
    rewrite length_app. simpl.
    replace (S (length (heap st)) - (length (heap st) + 1)) with 0 by lia.
    reflexivity. }
  set (st3 := set_heap (<[w1 := status_outcome c1 e1]> (heap st2))
                (set_events (<[key := [(c2, w2)]]> (events st2)) st2)).
  assert (Hq3 : waiters key (events st3) = [(c2, w2)]).
  { unfold waiters. simpl. by rewrite lookup_insert_eq. }
  assert (Hh3 : heap st3 !! w2 = Some Pending).
  { simpl. rewrite list_lookup_insert_ne by (unfold w1, w2; lia). exact Hh2. }
  set (st4 := set_heap (<[w2 := status_outcome c2 e2]> (heap st3))
                (set_events (<[key := []]> (events st3)) st3)).
  assert (Hkeys : forall key' s,
            key' <> key -> s ∈ [st1; st2; st3; st4] ->
            waiters key' (events s) = waiters key' (events st)).
  { intros key' s Hne Hs. rewrite !elem_of_cons in Hs.
    destruct Hs as [->|[->|[->|[->|Hs]]]]; [..|by apply elem_of_nil in Hs];
      unfold waiters; simpl; rewrite ?lookup_insert_ne by done;
      unfold StatusEventTracker.add; by rewrite ?lookup_insert_ne by done. }
  assert (Hheaps : forall d s,
            d < length (heap st) -> s ∈ [st1; st2; st3; st4] ->
            heap s !! d = heap st !! d).
  { intros d s Hd Hs. rewrite !elem_of_cons in Hs.
    destruct Hs as [->|[->|[->|[->|Hs]]]]; [..|by apply elem_of_nil in Hs];
      simpl; rewrite ?list_lookup_insert_ne by (unfold w1, w2; lia);
      rewrite ?lookup_app_l by (rewrite ?length_app; simpl; lia); done. }
  exists st1, st2, st3, st4.
  split; [reflexivity|]. split.
  { unfold st2.
    replace w2 with (length (heap st1))
      by (simpl; rewrite length_app; simpl; unfold w2; lia).
    reflexivity. }
  split; [exact Hq2|].
  split; [unfold command_onStatus; by apply dispatch_hit|].
  split; [simpl; apply list_lookup_insert_eq; by eapply lookup_lt_Some|].
  split; [exact Hh3|]. split; [exact Hq3|].
  split; [unfold command_onStatus; by apply dispatch_hit|].
  split.
  { simpl. rewrite list_lookup_insert_ne by (unfold w1, w2; lia).
    apply list_lookup_insert_eq. by eapply lookup_lt_Some. }
  split; [simpl; apply list_lookup_insert_eq; by eapply lookup_lt_Some|].
  split; [unfold waiters; simpl; by rewrite lookup_insert_eq|].
  assert (Hres : forall c e, status_outcome c e <> Pending).
  { intros c e. unfold status_outcome.
    destruct (StatusEventTracker.getattr_code e); [done|].
    destruct c; [|done]. by destruct (StatusEventTracker.code_eq _ _). }
  split; [apply Hres|]. split; [apply Hres|].
  split.
  { intros key' Hne. apply Hkeys; [done|]. rewrite !elem_of_cons. auto. }
  split; [done|].
  split.
  { intros ms_id' s Hne Hs. apply Hkeys; [by apply Hinj|done]. }
  split; [exact Hheaps|].
  split.
  { simpl. rewrite !length_insert, !length_app. simpl. lia. }
  split.
  { intros ms_id' code s0 Hne s'. unfold s', waitStatus. simpl.
    rewrite !waiters_add. rewrite decide_False by (by apply Hinj).
    rewrite decide_True by done.
    split; [done|]. split; [done|].
    intros d Hd. by rewrite lookup_app_l. }
  split.
  { intros ms_id' ts t n e s0 Hne s'. unfold s'. split.
    - rewrite command_onStatus_events, waiters_pop.
      by rewrite decide_False by (by apply Hinj).
    - intros d Hd. by apply command_onStatus_heap. }
  intros ts t n e s0.
  rewrite command_onStatus_events, waiters_pop. by rewrite decide_True.
Qed.

(** C6: a status event dispatched for a key whose oldest waiter is
    [(code, d)] pops that waiter alone and resolves its future: when the
    event has a code field and the expected code is the wildcard [None]
    or equals that field, the future is fulfilled with the event; when
    the expected code differs from the field, it is failed with an
    unexpected-status error carrying the event; when the event has no
    code field, it is failed with a protocol-contract error.  In every
    case the rest of the queue stays queued as it is (a mismatch is not
    tried on the next waiter) and no other future is touched.  When no
    waiter is queued for the key, the miss handler is what runs, and for
    [command_onStatus] that is one "unhandled onStatus" record in the log
    with no future and no queue changed.  After every run of the protocol
    from a fresh instance the future of a queued waiter has no result
    yet. *)
Theorem C6_status_dispatch (key : EvKey) (info : PyVal)
    (miss_h : option (M unit)) (st : Proto) :
  (forall code d q,
      waiters key (events st) = (code, d) :: q ->
      heap st !! d = Some Pending ->
      exists r,
        let st' := set_heap (<[d := r]> (heap st))
                     (set_events (<[key := q]> (events st)) st) in
        StatusEventTracker.dispatch key info miss_h st = Ok tt st'
        /\ heap st' !! d = Some r
        /\ (forall evt_code,
              StatusEventTracker.getattr_code info = inr evt_code ->
              code = None \/ (exists c, code = Some c /\ evt_code = VStr c) ->
              r = Fulfilled info)
        /\ (forall evt_code c,
              StatusEventTracker.getattr_code info = inr evt_code ->
              code = Some c -> evt_code <> VStr c ->
              r = Failed (UnexpectedStatusError info))
        /\ (forall e,
              StatusEventTracker.getattr_code info = inl e ->
              r = Failed (ProtocolContractError e))
        /\ waiters key (events st') = q
        /\ (forall key', key' <> key ->
              waiters key' (events st') = waiters key' (events st))
        /\ (forall d', d' <> d -> heap st' !! d' = heap st !! d')
        /\ trace st' = trace st)
  /\ (waiters key (events st) = [] ->
      (forall h, StatusEventTracker.dispatch key info (Some h) st = h st)
      /\ StatusEventTracker.dispatch key info None st = Ok tt st
      /\ forall ts ms_id trans_id none_,
           key = _onStatus_ev_key ms_id ->
           command_onStatus ts ms_id trans_id none_ info st
           = Ok tt (set_trace (trace st ++
                      [Log LWarning (LogUnhandledOnStatus ts ms_id info)]) st))
  /\ (forall (E : Externals) (ops : list Op) code d,
        (code, d) ∈ waiters key (events (run E ops init)) ->
        heap (run E ops init) !! d = Some Pending).
Proof.
  split; [|split].
  - intros code d q Hw Hd. exists (status_outcome code info). simpl.
    split; [by apply dispatch_hit|].
    split; [apply list_lookup_insert_eq; by eapply lookup_lt_Some|].
    unfold status_outcome.
    split.
    { intros evt_code -> [->|(c & -> & ->)]; [done|].
      by rewrite (proj2 (code_eq_spec (VStr c) c) eq_refl). }
    split.
    { intros evt_code c -> -> Hne.
      destruct (StatusEventTracker.code_eq evt_code c) eqn:Heq; [|done].
      by apply code_eq_spec in Heq. }
    split; [by intros e ->|].
    split; [unfold waiters; by rewrite lookup_insert_eq|].
    split; [intros key' Hne; unfold waiters; by rewrite lookup_insert_ne|].
    split; [intros d' Hne; by apply list_lookup_insert_ne|done].
  - intros Hw. split; [intros h; by apply dispatch_miss|].
    split.
    + unfold StatusEventTracker.dispatch, bind, gets, modify.
      rewrite (pop_none _ _ Hw). simpl. by rewrite set_events_id.
    + intros ts ms_id trans_id none_ ->. unfold command_onStatus.
      by rewrite dispatch_miss.
  - intros E ops code d H. destruct (reachable_inv E ops) as ((Hp & _) & _).
    apply Hp. right. exists key. apply list_elem_of_fmap. by exists (code, d).
Qed.

(** C7 (as the code has it): the first [USE_SUCCESS] event with an empty
    payload fulfils the ready future of the shared object with the object
    itself and changes nothing else; every further [USE_SUCCESS] raises
    the future's already-called error out of [onEvent], and out of
    [doSharedObj] when it comes through the registry, leaving the
    instance, and the ready future's result, untouched. *)
Theorem C7_use_success (E : Externals) (o : nat) (so : SharedObject)
    (st : Proto) :
  so_store st !! o = Some so ->
  heap st !! so_readyd so = Some Pending ->
  let st1 := set_heap (<[so_readyd so := Fulfilled (VSharedObject o)]> (heap st)) st in
  SharedObject.onEvent E o use_success st = Ok tt st1
  /\ heap st1 !! so_readyd so = Some (Fulfilled (VSharedObject o))
  /\ SharedObject.onEvent E o use_success st1 = Raise AlreadyCalledError st1
  /\ forall ts ms_id obj_name evs,
       shared_objs st1 !! obj_name = Some o ->
       doSharedObj E ts ms_id obj_name (use_success :: evs) st1
       = Raise AlreadyCalledError st1.
Proof.
  intros Hs Hd st1.
  assert (Hd1 : heap st1 !! so_readyd so = Some (Fulfilled (VSharedObject o))).
  { simpl. apply list_lookup_insert_eq. by eapply lookup_lt_Some. }
  assert (Hraise : SharedObject.onEvent E o use_success st1
                   = Raise AlreadyCalledError st1).
  { unfold SharedObject.onEvent, SharedObject.onUseSuccess, bind,
      SharedObject.self. simpl. rewrite Hs.
    unfold Deferred.callback, Deferred.fire. by rewrite Hd1. }
  split.
  { unfold SharedObject.onEvent, SharedObject.onUseSuccess, bind,
      SharedObject.self. simpl. rewrite Hs.
    unfold Deferred.callback, Deferred.fire. by rewrite Hd. }
  split; [exact Hd1|]. split; [exact Hraise|].
  intros ts ms_id obj_name evs Hreg.
  unfold doSharedObj. erewrite bind_Ok by reflexivity. rewrite Hreg.
  cbn [for_each]. by erewrite bind_Raise by exact Hraise.
Qed.

(** C8: [useSharedObject] on a name that is in the registry hands back a
    future that has already failed, and leaves the instance exactly as it
    was: no message sent, registry unchanged; so does
    [releaseSharedObject] on a name that is not in the registry. *)
Theorem C8_shared_object_misuse (E : Externals) (ms_id : Z)
    (obj_name : string) (persistance : bool) (now : Z) (st : Proto) :
  (forall o, shared_objs st !! obj_name = Some o ->
     useSharedObject E ms_id obj_name persistance now st
     = Ok (InlineFailed
             (SystemError ("Shared object " +:+ obj_name +:+ " already in use")))
          st)
  /\ (shared_objs st !! obj_name = None ->
      releaseSharedObject E ms_id obj_name now st
      = Ok (InlineFailed
              (SystemError ("Shared object " +:+ obj_name +:+ " does not exists")))
           st).
Proof.
  split.
  - intros o. apply useSharedObject_taken.
  - apply releaseSharedObject_missing.
Qed.

(** C9: when the handler of a remote method invocation succeeds and the
    transaction id is not 0 (in particular when it is greater than 0),
    the result, taken as it is when it is a tuple or a list and as a
    one-element sequence otherwise, is encoded as a [_result] reply with
    that transaction id and sent as a command message on the call's
    stream; when the transaction id is 0 nothing is sent and the instance
    is left as it was. *)
Theorem C9_remote_success (E : Externals) (cmd : string)
    (ts ms_id trans_id : Z) (args : list PyVal) (now : Z) (st : Proto)
    (handler_m : Z -> Z -> list PyVal -> Outcome) (result : PyVal) :
  remote_method E cmd = Some handler_m ->
  handler_m ts ms_id args = Returned result ->
  (trans_id <> 0%Z ->
   unknownCommandType E cmd ts ms_id trans_id args now st
   = Ok (Returned VNone)
        (set_trace
           (trace st ++
              [SendMessage now MSG_COMMAND ms_id
                 (amf0_encode E
                    (VStr "_result" :: VInt trans_id ::
                       match result with
                       | VTuple items | VList items => items
                       | _ => [result]
                       end))]) st))
  /\ (trans_id = 0%Z ->
      unknownCommandType E cmd ts ms_id trans_id args now st
      = Ok (Returned result) st).
Proof.
  intros Hm Hr. unfold unknownCommandType. rewrite Hm.
  erewrite bind_Ok by (unfold ret; rewrite Hr; reflexivity).
  unfold remote_chain. split; intros Ht.
  - destruct (decide (trans_id = 0%Z)); [contradiction|]. reflexivity.
  - destruct (decide (trans_id = 0%Z)); [|contradiction]. reflexivity.
Qed.

(** C10: [useSharedObject] on a free name has the object in the registry
    when the subscription message goes out, with its ready future still
    pending; from then on, and after whatever happens on the connection
    short of a release of that name, the name stays registered and another
    [useSharedObject] on it fails.  [releaseSharedObject] has the name out
    of the registry when the release message goes out, and a
    [useSharedObject] on the name right after it goes through.  After
    every run of the protocol from a fresh instance a registered name
    refers to an object that exists.  The order is that of the code for
    every muxer: whatever [sendMessage] the muxer has, [useSharedObject]
    calls it on the instance in which the new object is already
    registered and no message has gone out, and only then looks at the
    ready future; [releaseSharedObject] calls it on the instance in which
    the name is already out of the registry.  So when the muxer raises,
    the call fails with the muxer's exception and the registration, or
    the removal, stays. *)
Theorem C10_registry_order (E : Externals) (ms_id : Z) (obj_name : string)
    (persistance : bool) (now : Z) (st : Proto) :
  (shared_objs st !! obj_name = None ->
   let o := length (so_store st) in
   let st_reg := registered obj_name persistance st in
   let body := amf0_encode_so_update E obj_name (so_flags persistance)
                 [{| ev_type := SO_EVENT_TYPE_USE; ev_data := "" |}] in
   let st' := set_trace
                (trace st ++
                   [SendMessage now MSG_SO ms_id
                      (amf0_encode_so_update E obj_name (so_flags persistance)
                         [{| ev_type := SO_EVENT_TYPE_USE; ev_data := "" |}])])
                st_reg in
   useSharedObject E ms_id obj_name persistance now st
   = Ok (InlineAwaiting (length (heap st))) st'
   /\ shared_objs st_reg !! obj_name = Some o
   /\ trace st_reg = trace st
   /\ heap st' !! length (heap st) = Some Pending
   /\ (forall ops,
        (forall ms_id' now', OpReleaseSharedObject ms_id' obj_name now' ∉ ops) ->
        let st'' := run E ops st' in
        shared_objs st'' !! obj_name = Some o
        /\ forall ms_id2 persistance2 now2,
             useSharedObject E ms_id2 obj_name persistance2 now2 st''
             = Ok (InlineFailed
                     (SystemError
                        ("Shared object " +:+ obj_name +:+ " already in use")))
                  st'')
   /\ (forall muxer_sendMessage,
         useSharedObject_over E muxer_sendMessage ms_id obj_name persistance
           now st
         = Deferred.inlineCallbacks
             (muxer_sendMessage now MSG_SO ms_id body ;;;
              s <~ SharedObject.self o ;;
              Deferred.await (so_readyd s))
             st_reg)
   /\ (forall muxer_sendMessage e st_e,
         muxer_sendMessage now MSG_SO ms_id body st_reg = Raise e st_e ->
         useSharedObject_over E muxer_sendMessage ms_id obj_name persistance
           now st
         = Ok (InlineFailed e) st_e)
   /\ (forall muxer_sendMessage e ms_id2 persistance2 now2,
         muxer_sendMessage now MSG_SO ms_id body st_reg = Raise e st_reg ->
         useSharedObject_over E muxer_sendMessage ms_id2 obj_name persistance2
           now2
           (final (useSharedObject_over E muxer_sendMessage ms_id obj_name
                     persistance now st))
         = Ok (InlineFailed
                 (SystemError
                    ("Shared object " +:+ obj_name +:+ " already in use")))
              st_reg))
  /\ (forall o so,
        shared_objs st !! obj_name = Some o ->
        so_store st !! o = Some so ->
        let st_unreg := set_shared_objs (delete obj_name (shared_objs st)) st in
        let body := amf0_encode_so_update E obj_name
                      (so_flags (so_persistance so))
                      [{| ev_type := SO_EVENT_TYPE_RELEASE; ev_data := "" |}] in
        let st' := set_trace
                     (trace st ++
                        [SendMessage now MSG_SO ms_id
                           (amf0_encode_so_update E obj_name
                              (so_flags (so_persistance so))
                              [{| ev_type := SO_EVENT_TYPE_RELEASE;
                                  ev_data := "" |}])])
                     st_unreg in
        releaseSharedObject E ms_id obj_name now st
        = Ok (InlineReturned VNone) st'
        /\ shared_objs st_unreg !! obj_name = None
        /\ trace st_unreg = trace st
        /\ (forall ms_id2 persistance2 now2,
             exists st'',
               useSharedObject E ms_id2 obj_name persistance2 now2 st'
               = Ok (InlineAwaiting (length (heap st'))) st''
               /\ shared_objs st'' !! obj_name = Some (length (so_store st')))
        /\ (forall muxer_sendMessage,
              releaseSharedObject_over E muxer_sendMessage ms_id obj_name now st
              = Deferred.inlineCallbacks
                  (muxer_sendMessage now MSG_SO ms_id body ;;;
                   ret (InlineReturned VNone))
                  st_unreg)
        /\ (forall muxer_sendMessage e st_e,
              muxer_sendMessage now MSG_SO ms_id body st_unreg = Raise e st_e ->
              releaseSharedObject_over E muxer_sendMessage ms_id obj_name now st
              = Ok (InlineFailed e) st_e))
  /\ (forall ops o,
        shared_objs (run E ops init) !! obj_name = Some o ->
        is_Some (so_store (run E ops init) !! o)).
Proof.
  split; [|split].
  - intros Hfree o st_reg body st'.
    assert (Hreg : shared_objs st' !! obj_name = Some o).
    { simpl. apply lookup_insert_eq. }
    assert (Hover : forall send,
              useSharedObject_over E send ms_id obj_name persistance now st
              = Deferred.inlineCallbacks
                  (send now MSG_SO ms_id body ;;;
                   s <~ SharedObject.self o ;; Deferred.await (so_readyd s))
                  st_reg).
    { intros send. by apply useSharedObject_over_fresh. }
    assert (Hraise : forall send e st_e,
              send now MSG_SO ms_id body st_reg = Raise e st_e ->
              useSharedObject_over E send ms_id obj_name persistance now st
              = Ok (InlineFailed e) st_e).
    { intros send e st_e He. rewrite Hover.
      unfold Deferred.inlineCallbacks, bind. by rewrite He. }
    split; [by apply useSharedObject_fresh|].
    split; [exact Hreg|]. split; [reflexivity|].
    split.
    { simpl. rewrite lookup_app_r by lia. by rewrite Nat.sub_diag. }
    split.
    { intros ops Hops st''.
      assert (Hreg'' : shared_objs st'' !! obj_name = Some o)
        by (by apply run_registry).
      split; [exact Hreg''|].
      intros ms_id2 persistance2 now2. by eapply useSharedObject_taken. }
    split; [exact Hover|]. split; [exact Hraise|].
    intros send e ms_id2 persistance2 now2 He.
    rewrite (Hraise send e st_reg He). simpl final.
    by eapply useSharedObject_over_taken.
  - intros o so Hreg Hso st_unreg body st'.
    assert (Hover : forall send,
              releaseSharedObject_over E send ms_id obj_name now st
              = Deferred.inlineCallbacks
                  (send now MSG_SO ms_id body ;;; ret (InlineReturned VNone))
                  st_unreg).
    { intros send. by eapply releaseSharedObject_over_present. }
    split; [by eapply releaseSharedObject_present|].
    assert (Hfree : shared_objs st' !! obj_name = None).
    { simpl. apply lookup_delete_eq. }
    split; [exact Hfree|]. split; [reflexivity|].
    split.
    { intros ms_id2 persistance2 now2. eexists.
      split; [by apply useSharedObject_fresh|].
      simpl. apply lookup_insert_eq. }
    split; [exact Hover|].
    intros send e st_e He. rewrite Hover.
    unfold Deferred.inlineCallbacks, bind. by rewrite He.
  - intros ops o H. destruct (reachable_inv E ops) as (_ & _ & Hr).
    apply lookup_lt_is_Some. by eapply Hr.
Qed.

(** ** The claims on the sample connection *)

Lemma demo_futures_ok : futures_ok demo_st.
Proof.
  unfold futures_ok.
  assert (pending_futures demo_st = [2; 1; 0]) as -> by (vm_compute; reflexivity).
  split.
  - apply (bool_decide_unpack _). vm_compute. exact I.
  - repeat (apply Forall_cons; split; [reflexivity|]). by apply Forall_nil.
Defined.

Lemma demo_queue_ok : queue_ok demo_st.
Proof.
  intros clid dc H Ha.
  destruct clid as [|[|clid]].
  - injection H as <-. reflexivity.
  - injection H as <-. reflexivity.
  - destruct clid; discriminate H.
Defined.

Lemma C1_reply_resolution_witness :
  command__result 0 3 1 [VStr "ok"] demo_st
  = Ok tt (resolved 3 1 0 (Fulfilled (VTuple [VStr "ok"])) demo_st)
  /\ command__error 0 3 1 [VStr "no"] init
     = Ok tt (set_trace (trace init ++
                [Log LWarning (LogUnexpectedError 0 3 1 [VStr "no"])]) init).
Proof.
  split.
  - apply (proj1 (C1_reply_resolution 0 3 1 [VStr "ok"] demo_st) 0);
      vm_compute; reflexivity.
  - apply (proj1 (proj2 (C1_reply_resolution 0 3 1 [VStr "no"] init))).
    vm_compute. reflexivity.
Defined.

Lemma C2_connection_lost_witness :
  EventDispatchProtocol.connectionLost (Some ConnectionDone) demo_st
  = Ok tt (disconnected ConnectionDone demo_st)
  /\ run demo_ext [OpReactorFire 0 1; OpReactorFire 1 2]
       (disconnected ConnectionDone demo_st)
     = disconnected ConnectionDone demo_st.
Proof.
  pose proof (proj1 (C2_connection_lost demo_ext ConnectionDone demo_st)
                demo_futures_ok demo_queue_ok) as (H1 & _ & _ & H2 & _).
  split; [exact H1 | exact (H2 [(0, 1%Z); (1, 2%Z)])].
Defined.

Lemma C3_remote_failure_witness :
  unknownCommandType demo_ext "kick" 0 3 4 [] 9 init
  = Ok (Returned VNone)
       (set_trace
          [Log LInfo (LogCallFailure (CallResultError [VNone; VStr "banned"] true));
           SendMessage 9 MSG_COMMAND 3 "_error"; LoseConnection] init).
Proof.
  apply (proj1 (proj2 (C3_remote_failure demo_ext "kick" 0 3 4 [] 9 init
                         (fun _ _ _ => Raised (CallResultError [VNone; VStr "banned"] true))
                         (CallResultError [VNone; VStr "banned"] true)
                         eq_refl eq_refl))
           [VNone; VStr "banned"] true eq_refl).
Defined.

Lemma C5_status_fifo_witness :
  exists st1 st2 st3 st4,
    waitStatus 7 (Some "NetStream.Play.Start") demo_st = Ok 6 st1
    /\ waitStatus 7 None st1 = Ok 7 st2
    /\ command_onStatus 0 7 0 VNone (VObject [("code", VStr "NetStream.Play.Stop")]) st2
       = Ok tt st3
    /\ command_onStatus 0 7 0 VNone play_start st3 = Ok tt st4
    /\ heap st4 !! 6
       = Some (Failed (UnexpectedStatusError
                         (VObject [("code", VStr "NetStream.Play.Stop")])))
    /\ heap st4 !! 7 = Some (Fulfilled play_start)
    /\ waiters (_onStatus_ev_key 3) (events st4)
       = [(Some "NetStream.Play.Start", 1)]
    /\ heap st4 !! 1 = Some Pending.
Proof.
  destruct (C5_status_fifo 7 (Some "NetStream.Play.Start") None
              (VObject [("code", VStr "NetStream.Play.Stop")]) play_start
              0 0 0 0 VNone VNone demo_st eq_refl)
    as (st1 & st2 & st3 & st4 & H1 & H2 & _ & H3 & _ & _ & _ & H4 & H5 & H6
        & _ & _ & _ & _ & _ & Hs & Hh & _).
  exists st1, st2, st3, st4.
  split; [exact H1|]. split; [exact H2|]. split; [exact H3|].
  split; [exact H4|]. split; [exact H5|]. split; [exact H6|].
  assert (Hin : st4 ∈ [st1; st2; st3; st4]) by (rewrite !elem_of_cons; auto).
  split.
  - rewrite (Hs 3%Z st4); [reflexivity|discriminate|exact Hin].
  - rewrite (Hh 1 st4); [reflexivity|simpl; lia|exact Hin].
Defined.

Lemma C6_status_dispatch_witness :
  (exists r,
      StatusEventTracker.dispatch (None, 3%Z) play_start None demo_st
      = Ok tt (set_heap (<[1 := r]> (heap demo_st))
                 (set_events (<[(None, 3%Z) := []]> (events demo_st)) demo_st))
      /\ r = Fulfilled play_start)
  /\ command_onStatus 0 5 0 VNone play_start init
     = Ok tt (set_trace [Log LWarning (LogUnhandledOnStatus 0 5 play_start)] init).
Proof.
  split.
  - destruct (proj1 (C6_status_dispatch (None, 3%Z) play_start None demo_st)
                (Some "NetStream.Play.Start") 1 [] eq_refl eq_refl)
      as (r & H1 & _ & H2 & _).
    exists r. split; [exact H1|].
    apply (H2 (VStr "NetStream.Play.Start") eq_refl).
    right. by exists "NetStream.Play.Start".
  - apply (proj1 (proj2 (C6_status_dispatch (None, 5%Z) play_start None init))
             eq_refl).
    reflexivity.
Defined.

Lemma C7_use_success_witness :
  SharedObject.onEvent demo_ext 0 use_success demo_st
  = Ok tt (set_heap (<[3 := Fulfilled (VSharedObject 0)]> (heap demo_st)) demo_st)
  /\ SharedObject.onEvent demo_ext 0 use_success
       (set_heap (<[3 := Fulfilled (VSharedObject 0)]> (heap demo_st)) demo_st)
     = Raise AlreadyCalledError
         (set_heap (<[3 := Fulfilled (VSharedObject 0)]> (heap demo_st)) demo_st).
Proof.
  pose proof (C7_use_success demo_ext 0
                {| so_name := "chat"; so_readyd := 3; so_deleted := 4;
                   so_changed := 5; so_persistance := false |}
                demo_st eq_refl eq_refl) as (H1 & _ & H2 & _).
  split; [exact H1 | exact H2].
Defined.

(** C7, as the claim has it, fails: a second [USE_SUCCESS] for an object
    whose subscription was already acknowledged is not ignored, it
    raises. *)
Lemma C7_counterexample :
  exists st1,
    SharedObject.onEvent demo_ext 0 use_success demo_st = Ok tt st1
    /\ SharedObject.onEvent demo_ext 0 use_success st1
       = Raise AlreadyCalledError st1
    /\ doSharedObj demo_ext 0 1 "chat" [use_success] st1
       = Raise AlreadyCalledError st1.
Proof.
  eexists. split; [vm_compute; reflexivity|].
  split; vm_compute; reflexivity.
Qed.

Lemma C8_shared_object_misuse_witness :
  useSharedObject demo_ext 2 "chat" true 5 demo_st
  = Ok (InlineFailed (SystemError "Shared object chat already in use")) demo_st
  /\ releaseSharedObject demo_ext 2 "chat" 5 init
     = Ok (InlineFailed (SystemError "Shared object chat does not exists")) init.
Proof.
  split.
  - apply (proj1 (C8_shared_object_misuse demo_ext 2 "chat" true 5 demo_st) 0).
    reflexivity.
  - apply (proj2 (C8_shared_object_misuse demo_ext 2 "chat" true 5 init)).
    reflexivity.
Defined.

Lemma C9_remote_success_witness :
  unknownCommandType demo_ext "ping" 0 3 5 [] 9 init
  = Ok (Returned VNone) (set_trace [SendMessage 9 MSG_COMMAND 3 "_result"] init)
  /\ unknownCommandType demo_ext "ping" 0 3 0 [] 9 init
     = Ok (Returned (VStr "pong")) init.
Proof.
  pose proof (fun t => C9_remote_success demo_ext "ping" 0 3 t [] 9 init
                         (fun _ _ _ => Returned (VStr "pong")) (VStr "pong")
                         eq_refl eq_refl) as H.
  split.
  - apply (proj1 (H 5%Z)). discriminate.
  - apply (proj2 (H 0%Z)). reflexivity.
Defined.

Lemma C10_registry_order_witness :
  shared_objs (registered "chat" false init) !! "chat" = Some 0
  /\ releaseSharedObject demo_ext 1 "chat" 6 demo_st
     = Ok (InlineReturned VNone)
          (set_trace (trace demo_st ++ [SendMessage 6 MSG_SO 1 "chat"])
             (set_shared_objs (delete "chat" (shared_objs demo_st)) demo_st))
  /\ useSharedObject_over demo_ext (checking_muxer "chat" true) 1 "chat" false
       0 init
     = Ok (InlineAwaiting 0)
          (set_trace [SendMessage 0 MSG_SO 1 "chat"]
             (registered "chat" false init))
  /\ useSharedObject_over demo_ext failing_muxer 1 "chat" false 0 init
     = Ok (InlineFailed ConnectionDone) (registered "chat" false init)
  /\ releaseSharedObject_over demo_ext (checking_muxer "chat" false) 1 "chat"
       6 demo_st
     = Ok (InlineReturned VNone)
          (set_trace (trace demo_st ++ [SendMessage 6 MSG_SO 1 "chat"])
             (set_shared_objs (delete "chat" (shared_objs demo_st)) demo_st))
  /\ releaseSharedObject_over demo_ext failing_muxer 1 "chat" 6 demo_st
     = Ok (InlineFailed ConnectionDone)
          (set_shared_objs (delete "chat" (shared_objs demo_st)) demo_st).
Proof.
  pose proof (proj1 (C10_registry_order demo_ext 1 "chat" false 0 init) eq_refl)
    as (_ & Hreg & _ & _ & _ & Huse & Hfail & _).
  pose proof (proj1 (proj2 (C10_registry_order demo_ext 1 "chat" false 6 demo_st))
                0 demo_chat eq_refl eq_refl)
    as (Hrel & _ & _ & _ & Hover & Hrfail).
  split; [exact Hreg|]. split; [exact Hrel|].
  split; [rewrite Huse; reflexivity|].
  split; [exact (Hfail failing_muxer ConnectionDone _ eq_refl)|].
  split; [rewrite Hover; reflexivity|].
  exact (Hrfail failing_muxer ConnectionDone _ eq_refl).
Defined.

(** ** Further properties: shared-object events *)

Lemma length_zero_empty (s : string) :
  bool_decide (String.length s = 0) = true <-> s = "".
Proof.
  rewrite bool_decide_eq_true. destruct s; simpl; split; congruence.
Qed.

Lemma nonempty_length (s : string) :
  s <> "" -> bool_decide (String.length s = 0) = false.
Proof.
  intros H. destruct (bool_decide (String.length s = 0)) eqn:Hb; [|done].
  by apply length_zero_empty in Hb.
Qed.

Lemma for_each_app {A} (l1 l2 : list A) (f : A -> M unit) st :
  for_each (l1 ++ l2) f st
  = match for_each l1 f st with
    | Ok _ st1 => for_each l2 f st1
    | Raise e st1 => Raise e st1
    end.
Proof.
  revert st. induction l1 as [|x l1 IH]; intros st; [done|].
  simpl. unfold bind. destruct (f x st) as [[] st1|e st1]; [apply IH|done].
Qed.

(** X1: a CHANGE event whose payload decodes to a mapping fulfils the
    object's current "changed" channel, when it is still unresolved, with
    the triple of a fresh channel, the first key of the mapping and its
    value, and stores the fresh channel in the object; the fresh channel
    is a new, unresolved future, different from the one just fulfilled,
    and the other two channels are left alone, so the next CHANGE is
    delivered on the fresh channel in the same way. *)
Theorem X1_change_renews_channel (E : Externals) (o : nat) (so : SharedObject)
    (st : Proto) (data : string) (key value : PyVal)
    (rest : list (PyVal * PyVal)) :
  so_store st !! o = Some so ->
  heap st !! so_changed so = Some Pending ->
  amf0_decode_so_event_change_data E data = inr ((key, value) :: rest) ->
  let fresh := length (heap st) in
  let st' := renewed o (so_changed so) set_so_changed so
               (LogOnChange key value)
               (VTuple [VDeferred fresh; key; value]) st in
  SharedObject.onEvent E o {| ev_type := SO_EVENT_TYPE_CHANGE; ev_data := data |} st
  = Ok tt st'
  /\ fresh <> so_changed so
  /\ heap st' !! so_changed so
     = Some (Fulfilled (VTuple [VDeferred fresh; key; value]))
  /\ heap st' !! fresh = Some Pending
  /\ so_store st' !! o = Some (set_so_changed fresh so)
  /\ (forall d, d <> so_changed so -> d <> fresh -> heap st' !! d = heap st !! d)
  /\ forall data2 key2 value2 rest2,
       amf0_decode_so_event_change_data E data2 = inr ((key2, value2) :: rest2) ->
       SharedObject.onEvent E o
         {| ev_type := SO_EVENT_TYPE_CHANGE; ev_data := data2 |} st'
       = Ok tt (renewed o fresh set_so_changed (set_so_changed fresh so)
                  (LogOnChange key2 value2)
                  (VTuple [VDeferred (S fresh); key2; value2]) st').
Proof.
  intros Hs Hd Hdec fresh st'.
  assert (Hlt : so_changed so < length (heap st)) by (by eapply lookup_lt_Some).
  assert (Ho : o < length (so_store st)) by (by eapply lookup_lt_Some).
  assert (Hstep : forall s so0 k v,
             so_store s !! o = Some so0 ->
             heap s !! so_changed so0 = Some Pending ->
             SharedObject.onChange o k v s
             = Ok tt (renewed o (so_changed so0) set_so_changed so0
                        (LogOnChange k v)
                        (VTuple [VDeferred (length (heap s)); k; v]) s)).
  { intros s so0 k v Hs0 Hd0.
    assert (so_changed so0 < length (heap s)) by (by eapply lookup_lt_Some).
    unfold SharedObject.onChange, bind, emit, modify, SharedObject.self,
      Deferred.new, Deferred.callback, Deferred.fire. simpl.
    rewrite Hs0. simpl. rewrite lookup_app_l by done. by rewrite Hd0. }
  split.
  { unfold SharedObject.onEvent, SharedObject.onChangeRaw. simpl.
    rewrite Hdec. by apply Hstep. }
  split; [unfold fresh; lia|].
  split.
  { simpl. apply list_lookup_insert_eq. rewrite length_app. simpl. lia. }
  split.
  { simpl. rewrite list_lookup_insert_ne by (unfold fresh; lia).
    unfold fresh. rewrite lookup_app_r by lia. by rewrite Nat.sub_diag. }
  split; [simpl; by apply list_lookup_insert_eq|].
  split.
  { intros d Hne Hnf. simpl. rewrite list_lookup_insert_ne by done.
    destruct (decide (d < length (heap st))).
    - by rewrite lookup_app_l.
    - rewrite !lookup_ge_None_2; [done|lia|].
      rewrite length_app. simpl. unfold fresh in Hnf. lia. }
  intros data2 key2 value2 rest2 Hdec2.
  unfold SharedObject.onEvent, SharedObject.onChangeRaw. simpl. rewrite Hdec2.
  rewrite (Hstep st' (set_so_changed fresh so)).
  - simpl. rewrite length_insert, length_app. simpl.
    replace (length (heap st) + 1) with (S fresh) by (unfold fresh; lia).
    reflexivity.
  - simpl. by apply list_lookup_insert_eq.
  - simpl. rewrite list_lookup_insert_ne by (unfold fresh; lia).
    unfold fresh. rewrite lookup_app_r by lia. by rewrite Nat.sub_diag.
Qed.

(** X2: a DELETE event with a non-empty payload that decodes to a key
    fulfils the object's current "deleted" channel, when it is still
    unresolved, with the pair of a fresh channel and the key, and stores
    the fresh channel in the object.  With an empty payload the event
    fails its assertion, and with a payload the codec rejects the codec's
    error comes out; in both cases nothing of the instance changes. *)
Theorem X2_delete_renews_channel (E : Externals) (o : nat) (so : SharedObject)
    (st : Proto) (data : string) :
  so_store st !! o = Some so ->
  heap st !! so_deleted so = Some Pending ->
  (forall key_name,
      data <> "" -> amf0_decode_string E data = inr key_name ->
      let fresh := length (heap st) in
      let st' := renewed o (so_deleted so) set_so_deleted so
                   (LogOnDelete key_name)
                   (VTuple [VDeferred fresh; key_name]) st in
      SharedObject.onEvent E o
        {| ev_type := SO_EVENT_TYPE_DELETE; ev_data := data |} st
      = Ok tt st'
      /\ heap st' !! so_deleted so
         = Some (Fulfilled (VTuple [VDeferred fresh; key_name]))
      /\ heap st' !! fresh = Some Pending
      /\ so_store st' !! o = Some (set_so_deleted fresh so))
  /\ SharedObject.onEvent E o
       {| ev_type := SO_EVENT_TYPE_DELETE; ev_data := "" |} st
     = Raise (AssertionError "Cannot call onDelete without data") st
  /\ (forall e,
        data <> "" -> amf0_decode_string E data = inl e ->
        SharedObject.onEvent E o
          {| ev_type := SO_EVENT_TYPE_DELETE; ev_data := data |} st
        = Raise e st).
Proof.
  intros Hs Hd.
  assert (Hlt : so_deleted so < length (heap st)) by (by eapply lookup_lt_Some).
  split; [|split].
  - intros key_name Hne Hdec fresh st'. split.
    { unfold SharedObject.onEvent, SharedObject.onDeleteRaw. simpl.
      unfold bind at 1, assert. rewrite (nonempty_length _ Hne). simpl.
      rewrite Hdec. unfold bind at 1. simpl.
      unfold SharedObject.onDelete, bind, emit, modify, SharedObject.self,
        Deferred.new, Deferred.callback, Deferred.fire. simpl.
      rewrite Hs. simpl. rewrite lookup_app_l by done. by rewrite Hd. }
    split.
    { simpl. apply list_lookup_insert_eq. rewrite length_app. simpl. lia. }
    split.
    { simpl. rewrite list_lookup_insert_ne by (unfold fresh; lia).
      unfold fresh. rewrite lookup_app_r by lia. by rewrite Nat.sub_diag. }
    simpl. apply list_lookup_insert_eq. by eapply lookup_lt_Some.
  - reflexivity.
  - intros e Hne Hdec.
    unfold SharedObject.onEvent, SharedObject.onDeleteRaw. simpl.
    unfold bind at 1, assert. rewrite (nonempty_length _ Hne). simpl.
    rewrite Hdec. reflexivity.
Qed.

(** X3: the events that resolve nothing.  A MESSAGE event, and a CLEAR
    event with an empty payload, leave the instance exactly as it was.  A
    CLEAR or a USE_SUCCESS event with a non-empty payload fails its
    assertion and changes nothing, so the ready future is not fulfilled.
    An event of a type without a handler (USE, RELEASE, or a number the
    module does not know) only adds one warning naming the object. *)
Theorem X3_inert_events (E : Externals) (o : nat) (so : SharedObject)
    (st : Proto) (data : string) :
  so_store st !! o = Some so ->
  SharedObject.onEvent E o {| ev_type := SO_EVENT_TYPE_MESSAGE; ev_data := data |} st
  = Ok tt st
  /\ SharedObject.onEvent E o {| ev_type := SO_EVENT_TYPE_CLEAR; ev_data := "" |} st
     = Ok tt st
  /\ (data <> "" ->
      SharedObject.onEvent E o
        {| ev_type := SO_EVENT_TYPE_CLEAR; ev_data := data |} st
      = Raise (AssertionError "Event data of clear must be empty") st
      /\ SharedObject.onEvent E o
           {| ev_type := SO_EVENT_TYPE_USE_SUCCESS; ev_data := data |} st
         = Raise (AssertionError "Event data of success must be empty") st)
  /\ (forall ty,
        ty = SO_EVENT_TYPE_USE \/ ty = SO_EVENT_TYPE_RELEASE
        \/ (exists n, ty = SO_EVENT_TYPE_OTHER n) ->
        SharedObject.onEvent E o {| ev_type := ty; ev_data := data |} st
        = Ok tt (set_trace
                   (trace st ++
                      [Log LWarning
                         (LogSOUnparsed (so_name so)
                            {| ev_type := ty; ev_data := data |})]) st)).
Proof.
  intros Hs. split; [reflexivity|]. split; [reflexivity|]. split.
  - intros Hne. split.
    + unfold SharedObject.onEvent, SharedObject.onClear, assert. simpl.
      by rewrite (nonempty_length _ Hne).
    + unfold SharedObject.onEvent, SharedObject.onUseSuccess, assert. simpl.
      unfold bind at 1. by rewrite (nonempty_length _ Hne).
  - intros ty [->|[->|[n ->]]];
      unfold SharedObject.onEvent, SharedObject.unhandledEvent, bind,
        SharedObject.self; simpl; by rewrite Hs.
Qed.

(** X4: a CHANGE event whose payload the codec rejects with a decoder
    error is logged as a warning and dropped: no channel is touched and
    nothing is raised.  Any other exception of the codec comes out of
    [onEvent], and so does the index error of a payload that decodes to an
    empty mapping; these leave the instance unchanged too. *)
Theorem X4_change_decode_failure (E : Externals) (o : nat) (st : Proto)
    (data : string) :
  let ev := {| ev_type := SO_EVENT_TYPE_CHANGE; ev_data := data |} in
  (amf0_decode_so_event_change_data E data = inl DecoderError ->
   SharedObject.onEvent E o ev st
   = Ok tt (set_trace (trace st ++
              [Log LWarning (LogDecodeFailed DecoderError)]) st))
  /\ (forall e,
        e <> DecoderError ->
        amf0_decode_so_event_change_data E data = inl e ->
        SharedObject.onEvent E o ev st = Raise e st)
  /\ (amf0_decode_so_event_change_data E data = inr [] ->
      SharedObject.onEvent E o ev st = Raise IndexError st).
Proof.
  intros ev. unfold SharedObject.onEvent, SharedObject.onChangeRaw. simpl.
  split; [|split].
  - by intros ->.
  - intros e Hne ->. by destruct e.
  - by intros ->.
Qed.

(** X5: shared-object events for a name that is not registered are
    reported once as "unknown shared object" and none of them is applied.
    For a registered name the events are applied in order to its object,
    and the first event that raises ends the delivery: its exception comes
    out of [doSharedObj] and the events after it are never applied. *)
Theorem X5_shared_object_delivery (E : Externals) (ts ms_id : Z)
    (obj_name : string) (st : Proto) :
  (forall evs,
      shared_objs st !! obj_name = None ->
      doSharedObj E ts ms_id obj_name evs st
      = Ok tt (set_trace (trace st ++
                 [Log LWarning (LogUnknownSharedObject obj_name evs)]) st))
  /\ (forall o evs1 e evs2 st1 x st2,
        shared_objs st !! obj_name = Some o ->
        doSharedObj E ts ms_id obj_name evs1 st = Ok tt st1 ->
        SharedObject.onEvent E o e st1 = Raise x st2 ->
        doSharedObj E ts ms_id obj_name (evs1 ++ e :: evs2) st = Raise x st2)
  /\ (forall o evs1 evs2 st1,
        shared_objs st !! obj_name = Some o ->
        doSharedObj E ts ms_id obj_name evs1 st = Ok tt st1 ->
        doSharedObj E ts ms_id obj_name (evs1 ++ evs2) st
        = for_each evs2 (SharedObject.onEvent E o) st1).
Proof.
  split; [|split].
  - intros evs H. unfold doSharedObj, bind, gets. by rewrite H.
  - intros o evs1 e evs2 st1 x st2 H H1 H2. revert H1.
    unfold doSharedObj, bind, gets. rewrite H. intros H1.
    rewrite for_each_app, H1. simpl. unfold bind. by rewrite H2.
  - intros o evs1 evs2 st1 H. unfold doSharedObj, bind, gets. rewrite H.
    intros H1. by rewrite for_each_app, H1.
Qed.

(** ** Further properties: the call queue *)

Lemma reactor_fire_inactive E clid now st :
  (forall dc, reactor st !! clid = Some dc -> dc_status dc <> CallActive) ->
  reactor_fire E clid now st = Ok tt st.
Proof.
  intros H. unfold reactor_fire. erewrite bind_Ok by reflexivity.
  destruct (reactor st !! clid) as [dc|] eqn:Hc; [|reflexivity].
  specialize (H _ eq_refl). by destruct (dc_status dc).
Qed.

(** X6: a received command is never handled inside [doCommand]: the call
    returns at once, having added one active delayed call under a new key
    of the call queue and changed nothing else (no future, no tracker, no
    message, no log record).  The replies [_result] and [_error] and
    [onStatus] are scheduled for their handlers, every other command name
    for the remote-method path.  When the reactor reaches the new call it
    is taken out of the queue and marked as fired first, and then the
    scheduled handler runs on that state. *)
Theorem X6_command_is_deferred (E : Externals) (ts ms_id : Z) (cmd : string)
    (trans_id : Z) (args : list PyVal) (now : Z) (st : Proto) :
  let f := match command_handler cmd with
           | Some h => SchedHandlerWrapper h ts ms_id trans_id args
           | None => SchedUnknownCommandType cmd ts ms_id trans_id args
           end in
  let key := ccq_next_key (cc_queue st) in
  let clid := length (reactor st) in
  let dc := {| dc_status := CallActive; dc_call_key := key; dc_f := f |} in
  let st' := set_cc_queue
               {| ccq_pending := <[key := clid]> (ccq_pending (cc_queue st));
                  ccq_next_key := key + 1 |}
               (set_reactor (reactor st ++ [dc]) st) in
  let st_run := set_cc_queue
                  {| ccq_pending := delete key (ccq_pending (cc_queue st'));
                     ccq_next_key := key + 1 |}
                  (set_reactor
                     (reactor st ++ [DelayedCalls.set_status CallFired dc]) st) in
  doCommand ts ms_id cmd trans_id args st = Ok tt st'
  /\ command_handler "_result" = Some H_result
  /\ command_handler "_error" = Some H_error
  /\ command_handler "onStatus" = Some H_onStatus
  /\ (cmd <> "_result" -> cmd <> "_error" -> cmd <> "onStatus" ->
      command_handler cmd = None)
  /\ reactor_fire E clid now st' = run_scheduled E f now st_run.
Proof.
  intros f key clid dc st' st_run.
  split.
  { unfold doCommand, f, st', dc. destruct (command_handler cmd); reflexivity. }
  split; [reflexivity|]. split; [reflexivity|]. split; [reflexivity|].
  split.
  { intros H1 H2 H3. unfold command_handler.
    by rewrite !decide_False by done. }
  unfold reactor_fire. erewrite bind_Ok by reflexivity. simpl.
  unfold clid. rewrite lookup_app_r by lia. rewrite Nat.sub_diag. simpl.
  erewrite bind_Ok by reflexivity.
  unfold CancellableCallQueue._call_wrapper.
  erewrite bind_Ok by reflexivity. simpl. rewrite lookup_insert_eq.
  erewrite bind_Ok by reflexivity. simpl.
  f_equal. unfold st_run, st'. simpl. unfold set_cc_queue, set_reactor. simpl.
  f_equal. clear.
  induction (reactor st) as [|x l IH]; [done|]. simpl. by rewrite IH.
Qed.

(** X7: a delayed call runs at most once.  Whatever the reactor finds at
    a handle, and whether the handler it runs there returns or raises,
    reaching the same handle again changes nothing. *)
Theorem X7_fire_at_most_once (E : Externals) (clid : nat) (now now' : Z)
    (st : Proto) :
  let st1 := final (reactor_fire E clid now st) in
  reactor_fire E clid now' st1 = Ok tt st1.
Proof.
  intros st1. apply reactor_fire_inactive.
  set (P := fun s : Proto =>
              forall dc, reactor s !! clid = Some dc -> dc_status dc <> CallActive).
  change (P st1). unfold st1, reactor_fire.
  erewrite bind_Ok by reflexivity.
  destruct (reactor st !! clid) as [dc|] eqn:Hc.
  - destruct (dc_status dc) eqn:Hs.
    + erewrite bind_Ok by reflexivity.
      assert (Hfired : P (set_reactor
                            (<[clid := DelayedCalls.set_status CallFired dc]>
                               (reactor st)) st)).
      { intros dc' H. simpl in H.
        rewrite list_lookup_insert_eq in H by (by eapply lookup_lt_Some).
        by injection H as <-. }
      revert Hfired. generalize (set_reactor
                            (<[clid := DelayedCalls.set_status CallFired dc]>
                               (reactor st)) st).
      change (preserves P (CancellableCallQueue._call_wrapper (dc_call_key dc)
                             (run_scheduled E (dc_f dc) now))).
      unfold CancellableCallQueue._call_wrapper. frame; auto.
      apply run_scheduled_preserves; auto.
    + simpl. intros dc' H. rewrite Hc in H. injection H as <-. by rewrite Hs.
    + simpl. intros dc' H. rewrite Hc in H. injection H as <-. by rewrite Hs.
  - simpl. intros dc' H. by rewrite Hc in H.
Qed.

(** X8: [cancel] on the handle of a call that has not fired takes its key
    out of the queue and cancels it, after which the reactor does nothing
    at that handle and a second [cancel] raises "already cancelled".  On
    the handle of a call that has fired, [cancel] raises "already called";
    in both failing cases the key has been taken out of the queue before
    the exception. *)
Theorem X8_cancel_one_call (E : Externals) (call_key clid : nat)
    (dc : DelayedCall) (now : Z) (st : Proto) :
  reactor st !! clid = Some dc ->
  let popped s :=
    set_cc_queue {| ccq_pending := delete call_key (ccq_pending (cc_queue s));
                    ccq_next_key := ccq_next_key (cc_queue s) |} s in
  (dc_status dc = CallActive ->
   let st_c := set_reactor
                 (<[clid := DelayedCalls.set_status CallCancelled dc]> (reactor st))
                 (popped st) in
   CancellableCallQueue.cancel call_key clid st = Ok tt st_c
   /\ ccq_pending (cc_queue st_c) !! call_key = None
   /\ reactor_fire E clid now st_c = Ok tt st_c
   /\ CancellableCallQueue.cancel call_key clid st_c
      = Raise AlreadyCancelled (popped st_c))
  /\ (dc_status dc = CallFired ->
      CancellableCallQueue.cancel call_key clid st
      = Raise AlreadyCalled (popped st))
  /\ (dc_status dc = CallCancelled ->
      CancellableCallQueue.cancel call_key clid st
      = Raise AlreadyCancelled (popped st)).
Proof.
  intros Hc popped.
  assert (Hlt : clid < length (reactor st)) by (by eapply lookup_lt_Some).
  split; [|split].
  - intros Hs st_c.
    assert (Hc' : reactor st_c !! clid
                  = Some (DelayedCalls.set_status CallCancelled dc)).
    { simpl. by apply list_lookup_insert_eq. }
    split.
    { unfold CancellableCallQueue.cancel. erewrite bind_Ok by reflexivity.
      unfold DelayedCalls.cancel. simpl. by rewrite Hc, Hs. }
    split; [simpl; apply lookup_delete_eq|].
    split.
    { apply reactor_fire_inactive. intros dc' H. rewrite Hc' in H.
      by injection H as <-. }
    unfold CancellableCallQueue.cancel, bind, modify, DelayedCalls.cancel.
    simpl. by rewrite list_lookup_insert_eq.
  - intros Hs. unfold CancellableCallQueue.cancel.
    erewrite bind_Ok by reflexivity. unfold DelayedCalls.cancel. simpl.
    by rewrite Hc, Hs.
  - intros Hs. unfold CancellableCallQueue.cancel.
    erewrite bind_Ok by reflexivity. unfold DelayedCalls.cancel. simpl.
    by rewrite Hc, Hs.
Qed.

(** X9: [cancel_all] of the call queue never raises, leaves the queue
    empty and no call of the queue active that was registered in it, and
    is idempotent: a second [cancel_all] changes nothing. *)
Theorem X9_cancel_all_idempotent (st : Proto) :
  let st1 := final (CancellableCallQueue.cancel_all st) in
  CancellableCallQueue.cancel_all st = Ok tt st1
  /\ ccq_pending (cc_queue st1) = ∅
  /\ (forall call_key clid dc,
        ccq_pending (cc_queue st) !! call_key = Some clid ->
        reactor st1 !! clid = Some dc -> dc_status dc <> CallActive)
  /\ CancellableCallQueue.cancel_all st1 = Ok tt st1.
Proof.
  intros st1. unfold st1. rewrite cc_cancel_all_eq. simpl.
  split; [reflexivity|]. split; [reflexivity|]. split.
  - intros call_key clid dc Hk H Ha.
    destruct (cancel_all_status _ _ _ _ H Ha) as [_ Hnot].
    apply Hnot. apply list_elem_of_fmap. exists (call_key, clid).
    split; [done|]. by apply elem_of_map_to_list.
  - rewrite cc_cancel_all_eq.
    cbn [cc_queue set_reactor set_cc_queue ccq_pending].
    rewrite map_to_list_empty. reflexivity.
Qed.

(** ** Further properties: the two trackers *)

(** X10: [cancel_all] of the status tracker without a reason empties
    every queue and resolves nobody: the futures of the dropped waiters
    stay as they were, and the next status event on any key finds no
    waiter and goes to the miss handler. *)
Theorem X10_cancel_waiters_without_reason (st : Proto) :
  let st' := set_events ∅ st in
  StatusEventTracker.cancel_all None st = Ok tt st'
  /\ heap st' = heap st
  /\ (forall key, waiters key (events st') = [])
  /\ (forall key info h, StatusEventTracker.dispatch key info (Some h) st' = h st').
Proof.
  intros st'. split; [reflexivity|]. split; [reflexivity|].
  assert (Hw : forall key, waiters key (events st') = []).
  { intros key. unfold waiters. simpl. by rewrite lookup_empty. }
  split; [exact Hw|]. intros key info h. by apply dispatch_miss.
Qed.

(** X11: a tracked call is resolved once, by its reply or by the
    disconnection, whichever comes first.  On every run of the protocol,
    for a pending entry: when the reply comes first the future is
    fulfilled and a later [connectionLost] leaves it fulfilled; when
    [connectionLost] comes first the future is failed with the reason and
    a later reply for the pair is only reported as unexpected. *)
Theorem X11_resolved_once (E : Externals) (ops : list Op) (ts ms_id trans_id : Z)
    (args : list PyVal) (reason : Exn) (d : nat) :
  let st := run E ops init in
  tracked ms_id trans_id (call_tracker st) = Some d ->
  (let st1 := resolved ms_id trans_id d (Fulfilled (VTuple args)) st in
   command__result ts ms_id trans_id args st = Ok tt st1
   /\ EventDispatchProtocol.connectionLost (Some reason) st1
      = Ok tt (disconnected reason st1)
   /\ heap (disconnected reason st1) !! d = Some (Fulfilled (VTuple args)))
  /\ (let st2 := disconnected reason st in
      EventDispatchProtocol.connectionLost (Some reason) st = Ok tt st2
      /\ heap st2 !! d = Some (Failed reason)
      /\ command__result ts ms_id trans_id args st2
         = Ok tt (set_trace (trace st2 ++
                    [Log LWarning
                       (LogUnexpectedResult ts ms_id trans_id args)]) st2)
      /\ command__error ts ms_id trans_id args st2
         = Ok tt (set_trace (trace st2 ++
                    [Log LWarning
                       (LogUnexpectedError ts ms_id trans_id args)]) st2)).
Proof.
  intros st Ht. destruct (reachable_inv E ops) as (Hf & _ & _). fold st in Hf.
  assert (Hd : heap st !! d = Some Pending).
  { destruct Hf as [Hp _]. apply Hp. left. eauto. }
  assert (Hlt : d < length (heap st)) by (by eapply lookup_lt_Some).
  split.
  - intros st1.
    assert (H1 : command__result ts ms_id trans_id args st = Ok tt st1)
      by (by apply command__result_hit).
    assert (Hf1 : futures_inv st1).
    { pose proof (preserves_futures_inv_command__result ts ms_id trans_id args
                    st Hf) as X. by rewrite H1 in X. }
    assert (Hnh : ~ held st1 d).
    { destruct (futures_inv_pop_deferred st ms_id trans_id Hf) as [_ Hn].
      exact (Hn d Ht). }
    split; [exact H1|].
    split; [apply connectionLost_eq; by apply futures_inv_ok|].
    simpl. rewrite !fail_all_notin.
    + by apply list_lookup_insert_eq.
    + intros (key & Hin)%in_pop_all. apply Hnh. right. eauto.
    + intros (ms & t & Hin)%in_iter_all. apply Hnh. left. eauto.
  - intros st2.
    split; [apply connectionLost_eq; by apply futures_inv_ok|].
    split.
    { simpl. apply fail_all_in; [by eapply tracked_iter_all|].
      by rewrite fail_all_length. }
    split; [by apply command__result_miss | by apply command__error_miss].
Qed.

Lemma ids_inv_pop st ms_id trans_id :
  ids_inv st ->
  ids_inv (set_call_tracker
             (DeferredTracker.pop_deferred ms_id trans_id (call_tracker st)).2 st).
Proof.
  intros [Hn Ht]. split.
  - intros ms. unfold next_id. simpl. rewrite pop_deferred_next. apply Hn.
  - intros ms t d H. simpl in H. apply tracked_pop_sub in H as [H _].
    unfold next_id. simpl. rewrite pop_deferred_next. by eapply Ht.
Qed.

Lemma ids_inv_clear st :
  ids_inv st ->
  ids_inv (set_call_tracker (DeferredTracker.clear (call_tracker st)) st).
Proof.
  intros [Hn Ht]. split; [exact Hn|].
  intros ms t d H. unfold tracked in H. simpl in H. by rewrite lookup_empty in H.
Qed.

Lemma ids_inv_callRemote E ms_id cmd args st :
  ids_inv st -> ids_inv (final (callRemote E ms_id cmd args st)).
Proof.
  intros [Hn Ht]. rewrite callRemote_eq by (specialize (Hn ms_id); lia).
  simpl. split.
  - intros ms. unfold next_id. simpl. fold (next_id ms_id st).
    destruct (decide (ms = ms_id)) as [->|Hne].
    + rewrite lookup_insert_eq. simpl. specialize (Hn ms_id). lia.
    + rewrite lookup_insert_ne by done. apply Hn.
  - intros ms t d H. simpl in H. rewrite tracked_push in H.
    unfold next_id. simpl. fold (next_id ms_id st).
    destruct (decide (ms = ms_id)) as [->|Hne].
    + rewrite lookup_insert_eq. simpl. case_decide as Heq.
      * injection Heq as ->. specialize (Hn ms_id). lia.
      * apply Ht in H. lia.
    + rewrite lookup_insert_ne by done. rewrite decide_False in H by congruence.
      by apply Ht in H.
Qed.

Lemma step_ids_inv E st op : ids_inv st -> ids_inv (step E st op).
Proof.
  intros H.
  pose proof ids_inv_pop as Hpop. pose proof ids_inv_clear as Hclear.
  destruct op; simpl;
    try (match goal with
         | |- ids_inv (final (?m st)) =>
             refine ((_ : preserves ids_inv m) st H)
         end).
  - frame.
  - frame.
  - unfold reactor_fire. frame. apply run_scheduled_preserves; auto.
  - intros s Hs. by apply ids_inv_callRemote.
  - frame.
  - frame.
  - frame.
  - frame.
  - frame; auto.
Qed.

Lemma reachable_ids_inv E ops : ids_inv (run E ops init).
Proof.
  induction ops as [|op ops IH] using rev_ind.
  - split; [done|]. intros ms t d Hd. done.
  - unfold run in *. rewrite foldl_app. simpl. by apply step_ids_inv.
Qed.

(** X12: on every run of the protocol, the pending entries of a stream
    have transaction ids that its counter has already handed out: at least
    1, so never the reserved 0, and below the next id.  The entry that the
    next [callRemote] on the stream registers therefore replaces no
    pending one. *)
Theorem X12_fresh_transaction_ids (E : Externals) (ops : list Op) (ms_id : Z) :
  let st := run E ops init in
  (1 <= next_id ms_id st)%Z
  /\ (forall trans_id d,
        tracked ms_id trans_id (call_tracker st) = Some d ->
        (1 <= trans_id < next_id ms_id st)%Z)
  /\ tracked ms_id (next_id ms_id st) (call_tracker st) = None
  /\ tracked ms_id 0 (call_tracker st) = None.
Proof.
  intros st.
  assert (H : ids_inv st).
  { unfold st. induction ops as [|op ops IH] using rev_ind.
    - split; [done|]. intros ms t d Hd. done.
    - unfold run in *. rewrite foldl_app. simpl. by apply step_ids_inv. }
  destruct H as [Hn Ht]. split; [apply Hn|]. split; [apply Ht|].
  split.
  - destruct (tracked ms_id (next_id ms_id st) (call_tracker st)) eqn:Hd; [|done].
    apply Ht in Hd. lia.
  - destruct (tracked ms_id 0 (call_tracker st)) eqn:Hd; [|done].
    apply Ht in Hd. lia.
Qed.

(** X13: status events are matched to the waiters of their key strictly
    in the order of registration, however many there are.  When the queue
    of a key holds distinct unresolved waiters and no more events are
    dispatched on it than it holds waiters, the i-th event resolves the
    i-th waiter, with what the event means for that waiter's expected
    code; the waiters beyond the events stay queued in their order, and no
    other future is touched. *)
Theorem X13_status_fifo_general (key : EvKey) (infos : list PyVal) :
  forall (ws : list (option string * nat)) (st : Proto),
    waiters key (events st) = ws ->
    NoDup ws.*2 ->
    Forall (fun w => heap st !! w.2 = Some Pending) ws ->
    length infos <= length ws ->
    exists st',
      for_each infos (fun info => StatusEventTracker.dispatch key info None) st
      = Ok tt st'
      /\ waiters key (events st') = drop (length infos) ws
      /\ (forall i code d info,
            ws !! i = Some (code, d) -> infos !! i = Some info ->
            heap st' !! d = Some (status_outcome code info))
      /\ (forall d, d ∉ (take (length infos) ws).*2 ->
            heap st' !! d = heap st !! d)
      /\ trace st' = trace st.
Proof.
  induction infos as [|info infos IH]; intros ws st Hw Hnd Hp Hlen.
  - exists st. simpl. rewrite drop_0. split_and!; try done.
  - destruct ws as [|[code d] q]; [simpl in Hlen; lia|].
    simpl in Hnd. apply NoDup_cons in Hnd as [Hd Hnd].
    apply Forall_cons in Hp as [Hpd Hp]. simpl in Hpd, Hlen.
    set (st1 := set_heap (<[d := status_outcome code info]> (heap st))
                  (set_events (<[key := q]> (events st)) st)).
    assert (H1 : StatusEventTracker.dispatch key info None st = Ok tt st1)
      by (by apply dispatch_hit).
    assert (Hw1 : waiters key (events st1) = q).
    { unfold waiters. simpl. by rewrite lookup_insert_eq. }
    assert (Hp1 : Forall (fun w => heap st1 !! w.2 = Some Pending) q).
    { rewrite Forall_forall in Hp |- *. intros w Hin. simpl.
      rewrite list_lookup_insert_ne; [by apply Hp|].
      intros ->. apply Hd. by apply list_elem_of_fmap_2. }
    destruct (IH q st1 Hw1 Hnd Hp1 ltac:(lia))
      as (st' & Hrun & Hq & Hres & Hother & Htr).
    exists st'. split_and!.
    + cbn [for_each]. by erewrite bind_Ok by exact H1.
    + exact Hq.
    + intros i c d' info' Hi Hinfo. destruct i as [|i].
      * simpl in Hi, Hinfo. injection Hi as -> ->. injection Hinfo as ->.
        rewrite Hother.
        -- simpl. apply list_lookup_insert_eq. by eapply lookup_lt_Some.
        -- intros Hin. apply Hd. eapply elem_of_sublist; [exact Hin|].
           apply fmap_sublist, sublist_take.
      * simpl in Hi, Hinfo. by eapply Hres.
    + intros d' Hd'. simpl in Hd'. rewrite not_elem_of_cons in Hd'.
      destruct Hd' as [Hne Hd']. rewrite (Hother _ Hd'). simpl.
      by apply list_lookup_insert_ne.
    + by rewrite Htr.
Qed.

(** ** Further properties: calls and replies end to end *)

(** X14: an incoming command that names no remote method is answered by
    nothing at all, whatever its transaction id: the fallback raises the
    call-aborted signal, which is logged (a warning for the unknown
    method, a debug record for the abort) and swallowed; no reply is sent
    and the connection is not closed. *)
Theorem X14_unknown_method_is_ignored (E : Externals) (cmd : string)
    (ts ms_id trans_id : Z) (args : list PyVal) (now : Z) (st : Proto) :
  remote_method E cmd = None ->
  unknownCommandType E cmd ts ms_id trans_id args now st
  = Ok (Returned VNone)
       (set_trace
          (trace st ++
             [Log LWarning (LogUnknownMethod cmd args);
              Log LDebug
                (LogCallAborted
                   (CallAbortedException
                      ("unknown command " +:+ py_repr E (VStr cmd))))]) st).
Proof.
  intros Hm. unfold unknownCommandType. rewrite Hm. unfold remote_chain.
  destruct (decide (trans_id = 0%Z)); simpl;
    unfold unknownRemoteCall, bind, emit, modify, ret; simpl;
    rewrite <- ?app_assoc; reflexivity.
Qed.

(** X15: a tracked call and its reply, through the scheduler.  On every
    run of the protocol, after [callRemote] on a stream has returned its
    future, a [_result] (an [_error]) command received for the stream with
    the transaction id the call was sent with, once the reactor reaches
    it, fulfils that future with the reply values (fails it with the
    call-result error built from them); receiving the command alone
    resolves nothing. *)
Theorem X15_call_and_reply (E : Externals) (ops : list Op) (ms_id : Z)
    (cmd : string) (args vals : list PyVal) (ts now : Z) :
  let st := run E ops init in
  let n := next_id ms_id st in
  let d := length (heap st) in
  let st1 := final (callRemote E ms_id cmd args st) in
  let reply name := final (doCommand ts ms_id name n vals st1) in
  let clid := length (reactor st1) in
  callRemote E ms_id cmd args st = Ok (Some d) st1
  /\ trace st1 = trace st ++
       [SendMessage 0 MSG_COMMAND ms_id
          (amf0_encode E (VStr cmd :: VInt n :: args))]
  /\ heap (reply "_result") !! d = Some Pending
  /\ heap (final (reactor_fire E clid now (reply "_result"))) !! d
     = Some (Fulfilled (VTuple vals))
  /\ heap (final (reactor_fire E clid now (reply "_error"))) !! d
     = Some (Failed (CommandResultError vals))
  /\ trace (final (reactor_fire E clid now (reply "_result"))) = trace st1.
Proof.
  intros st n d st1 reply clid.
  assert (Hn : n <> 0%Z).
  { unfold n, st. rewrite next_id_run. lia. }
  assert (H1 : callRemote E ms_id cmd args st = Ok (Some d) st1).
  { unfold st1. by rewrite callRemote_eq. }
  assert (Ht : tracked ms_id n (call_tracker st1) = Some d).
  { unfold st1. rewrite callRemote_eq by done. simpl.
    apply tracked_push_deferred. }
  assert (Hd : heap st1 !! d = Some Pending).
  { unfold st1. rewrite callRemote_eq by done. simpl.
    unfold d. rewrite lookup_app_r by lia. by rewrite Nat.sub_diag. }
  assert (Hlt : d < length (heap st1)) by (by eapply lookup_lt_Some).
  split; [exact H1|].
  split; [unfold st1; by rewrite callRemote_eq|].
  split; [exact Hd|].
  assert (Hfire : forall name h,
             command_handler name = Some h ->
             reactor_fire E clid now (reply name)
             = _handler_wrapper h ts ms_id n vals
                 (set_cc_queue
                    {| ccq_pending :=
                         delete (ccq_next_key (cc_queue st1))
                           (<[ccq_next_key (cc_queue st1) := clid]>
                              (ccq_pending (cc_queue st1)));
                       ccq_next_key := ccq_next_key (cc_queue st1) + 1 |}
                    (set_reactor
                       (reactor st1 ++
                          [{| dc_status := CallFired;
                              dc_call_key := ccq_next_key (cc_queue st1);
                              dc_f := SchedHandlerWrapper h ts ms_id n vals |}])
                       st1))).
  { intros name h Hh.
    unfold reply, doCommand. rewrite Hh.
    unfold reactor_fire. simpl.
    erewrite bind_Ok by reflexivity. simpl.
    unfold clid. rewrite lookup_app_r by lia. rewrite Nat.sub_diag. simpl.
    erewrite bind_Ok by reflexivity.
    unfold CancellableCallQueue._call_wrapper.
    erewrite bind_Ok by reflexivity. simpl. rewrite lookup_insert_eq.
    erewrite bind_Ok by reflexivity. simpl.
    f_equal. unfold set_cc_queue, set_reactor. simpl. f_equal.
    induction (reactor st1) as [|x l IH]; [done|]. simpl. by rewrite IH. }
  split.
  { rewrite (Hfire "_result" H_result eq_refl). simpl.
    erewrite command__result_hit by (simpl; eassumption). simpl.
    by apply list_lookup_insert_eq. }
  split.
  { rewrite (Hfire "_error" H_error eq_refl). simpl.
    erewrite command__error_hit by (simpl; eassumption). simpl.
    by apply list_lookup_insert_eq. }
  rewrite (Hfire "_result" H_result eq_refl). simpl.
  by erewrite command__result_hit by (simpl; eassumption).
Qed.

(** ** Further properties: shared objects end to end *)

(** X16: a subscription and its acknowledgement.  After [useSharedObject]
    on a free name, a USE_SUCCESS event delivered for that name through
    [doSharedObj] fulfils the ready future the caller is waiting on with
    the new object, so that the caller's wait ends with the object; the
    object's other two channels are still unresolved. *)
Theorem X16_subscription_acknowledged (E : Externals) (ms_id : Z)
    (obj_name : string) (persistance : bool) (now ts ms_id' : Z) (st : Proto) :
  shared_objs st !! obj_name = None ->
  let o := length (so_store st) in
  let readyd := length (heap st) in
  let st1 := final (useSharedObject E ms_id obj_name persistance now st) in
  let st2 := set_heap (<[readyd := Fulfilled (VSharedObject o)]> (heap st1)) st1 in
  useSharedObject E ms_id obj_name persistance now st
  = Ok (InlineAwaiting readyd) st1
  /\ doSharedObj E ts ms_id' obj_name [use_success] st1 = Ok tt st2
  /\ Deferred.await readyd st2 = Ok (InlineReturned (VSharedObject o)) st2
  /\ heap st2 !! S readyd = Some Pending
  /\ heap st2 !! S (S readyd) = Some Pending
  /\ shared_objs st2 !! obj_name = Some o.
Proof.
  intros Hfree o readyd st1 st2.
  assert (H1 : useSharedObject E ms_id obj_name persistance now st
               = Ok (InlineAwaiting readyd) st1).
  { unfold st1. by rewrite useSharedObject_fresh. }
  assert (Heq : st1 = set_trace
                        (trace st ++
                           [SendMessage now MSG_SO ms_id
                              (amf0_encode_so_update E obj_name
                                 (so_flags persistance)
                                 [{| ev_type := SO_EVENT_TYPE_USE;
                                     ev_data := "" |}])])
                        (registered obj_name persistance st)).
  { unfold st1. by rewrite useSharedObject_fresh. }
  assert (Hr : heap st1 !! readyd = Some Pending).
  { rewrite Heq. simpl. unfold readyd. rewrite lookup_app_r by lia.
    by rewrite Nat.sub_diag. }
  assert (Hs : so_store st1 !! o
               = Some {| so_name := obj_name; so_readyd := readyd;
                         so_deleted := S readyd; so_changed := S (S readyd);
                         so_persistance := persistance |}).
  { rewrite Heq. simpl. unfold o. rewrite lookup_app_r by lia.
    by rewrite Nat.sub_diag. }
  assert (Hreg : shared_objs st1 !! obj_name = Some o).
  { rewrite Heq. simpl. apply lookup_insert_eq. }
  split; [exact H1|].
  split.
  { unfold doSharedObj. erewrite bind_Ok by reflexivity. rewrite Hreg.
    cbn [for_each].
    unfold SharedObject.onEvent, SharedObject.onUseSuccess. simpl.
    unfold bind, assert, SharedObject.self. simpl. rewrite Hs. simpl.
    unfold Deferred.callback, Deferred.fire. by rewrite Hr. }
  split.
  { unfold Deferred.await, gets. simpl.
    rewrite list_lookup_insert_eq by (by eapply lookup_lt_Some). done. }
  split.
  { simpl. rewrite list_lookup_insert_ne by lia. rewrite Heq. simpl.
    unfold readyd. rewrite lookup_app_r by lia.
    by replace (S (length (heap st)) - length (heap st)) with 1 by lia. }
  split.
  { simpl. rewrite list_lookup_insert_ne by lia. rewrite Heq. simpl.
    unfold readyd. rewrite lookup_app_r by lia.
    by replace (S (S (length (heap st))) - length (heap st)) with 2 by lia. }
  exact Hreg.
Qed.

(** X17: a release goes out with the persistence the object was created
    with.  After [useSharedObject] on a free name with a persistence flag,
    [releaseSharedObject] on the name sends the release event with the
    flags of that same persistence (the two flag strings differ), takes
    the name out of the registry, and events that still arrive for the
    name are reported as unknown and resolve nothing. *)
Theorem X17_release_after_use (E : Externals) (ms_id : Z) (obj_name : string)
    (persistance : bool) (now ms_id2 now2 ts : Z) (st : Proto) :
  shared_objs st !! obj_name = None ->
  let st1 := final (useSharedObject E ms_id obj_name persistance now st) in
  let st2 := set_trace
               (trace st1 ++
                  [SendMessage now2 MSG_SO ms_id2
                     (amf0_encode_so_update E obj_name (so_flags persistance)
                        [{| ev_type := SO_EVENT_TYPE_RELEASE; ev_data := "" |}])])
               (set_shared_objs (delete obj_name (shared_objs st1)) st1) in
  releaseSharedObject E ms_id2 obj_name now2 st1 = Ok (InlineReturned VNone) st2
  /\ so_flags true <> so_flags false
  /\ heap st2 = heap st1
  /\ forall evs,
       doSharedObj E ts ms_id2 obj_name evs st2
       = Ok tt (set_trace (trace st2 ++
                  [Log LWarning (LogUnknownSharedObject obj_name evs)]) st2).
Proof.
  intros Hfree st1 st2.
  assert (Heq : st1 = set_trace
                        (trace st ++
                           [SendMessage now MSG_SO ms_id
                              (amf0_encode_so_update E obj_name
                                 (so_flags persistance)
                                 [{| ev_type := SO_EVENT_TYPE_USE;
                                     ev_data := "" |}])])
                        (registered obj_name persistance st)).
  { unfold st1. by rewrite useSharedObject_fresh. }
  split.
  { eapply (releaseSharedObject_present E ms_id2 obj_name now2 st1
              (length (so_store st))
              {| so_name := obj_name; so_readyd := length (heap st);
                 so_deleted := S (length (heap st));
                 so_changed := S (S (length (heap st)));
                 so_persistance := persistance |}).
    - rewrite Heq. simpl. apply lookup_insert_eq.
    - rewrite Heq. simpl. rewrite lookup_app_r by lia. by rewrite Nat.sub_diag. }
  split; [discriminate|]. split; [reflexivity|].
  intros evs. unfold doSharedObj, bind, gets. simpl.
  by rewrite lookup_delete_eq.
Qed.

(** ** Further properties: tracker round trip and disconnection *)

(** X18: what is pushed into the transaction tracker is what is popped.
    After [push_deferred] of a future under a stream and an id,
    [pop_deferred] for the pair returns that future and leaves the pair
    without an entry, with every other entry and the counters as they
    were before the push; a second push under the same pair replaces the
    first future, which is then no longer reachable through the tracker;
    and a pop for a pair without an entry changes nothing. *)
Theorem X18_push_pop_round_trip (key trans_id : Z) (d d2 : nat)
    (t : DeferredTracker) :
  let t1 := DeferredTracker.push_deferred key trans_id d t in
  let popped := DeferredTracker.pop_deferred key trans_id t1 in
  popped.1 = Some d
  /\ tracked key trans_id popped.2 = None
  /\ (forall key' trans_id',
        (key', trans_id') <> (key, trans_id) ->
        tracked key' trans_id' popped.2 = tracked key' trans_id' t)
  /\ trk_next_trans_id popped.2 = trk_next_trans_id t
  /\ (DeferredTracker.pop_deferred key trans_id
        (DeferredTracker.push_deferred key trans_id d2 t1)).1 = Some d2
  /\ (tracked key trans_id t = None ->
      DeferredTracker.pop_deferred key trans_id t = (None, t)).
Proof.
  intros t1 popped.
  assert (Ht1 : tracked key trans_id t1 = Some d) by apply tracked_push_deferred.
  destruct (pop_deferred_hit _ _ _ _ Ht1) as (Hp & Hgone & Hother).
  split; [exact Hp|]. split; [exact Hgone|]. split.
  { intros key' trans_id' Hne. unfold popped. rewrite Hother by done.
    unfold t1. rewrite tracked_push. by rewrite decide_False. }
  split; [unfold popped; by rewrite pop_deferred_next|].
  split.
  { apply (pop_deferred_hit key trans_id _ d2). apply tracked_push_deferred. }
  apply pop_deferred_miss.
Qed.

(** X19: disconnecting twice.  On every run of the protocol, a second
    [connectionLost] after a first one with a reason returns normally and
    only hands the new reason on to the base class: no future is touched
    again (those failed by the first keep its reason), no delayed call
    changes, and the trackers stay empty. *)
Theorem X19_connection_lost_twice (E : Externals) (ops : list Op)
    (reason reason2 : Exn) :
  let st := run E ops init in
  let st1 := final (EventDispatchProtocol.connectionLost (Some reason) st) in
  EventDispatchProtocol.connectionLost (Some reason) st = Ok tt st1
  /\ EventDispatchProtocol.connectionLost (Some reason2) st1
     = Ok tt (set_trace (trace st1 ++ [BaseConnectionLost (Some reason2)]) st1).
Proof.
  intros st st1.
  destruct (reachable_ok E ops) as [Hok _]. fold st in Hok.
  assert (H1 : EventDispatchProtocol.connectionLost (Some reason) st
               = Ok tt (disconnected reason st)) by (by apply connectionLost_eq).
  unfold st1. rewrite H1. simpl final. split; [reflexivity|].
  rewrite connectionLost_eq.
  - unfold disconnected at 1.
    cbn [heap so_store reactor cc_queue call_tracker events shared_objs trace
         disconnected ccq_pending ccq_next_key DeferredTracker.clear
         DeferredTracker.iter_all StatusEventTracker.pop_all trk_pending
         trk_next_trans_id fst snd].
    rewrite !map_to_list_empty. reflexivity.
  - split.
    + unfold pending_futures, StatusEventTracker.pop_all,
        DeferredTracker.iter_all. simpl. rewrite !map_to_list_empty. simpl.
      apply NoDup_nil_2.
    + unfold pending_futures, StatusEventTracker.pop_all,
        DeferredTracker.iter_all. simpl. rewrite !map_to_list_empty. simpl.
      by apply Forall_nil.
Qed.

(** ** Further properties: what holds on every run *)

(** X20: on every run of the protocol a future is reachable from one
    place only: no two entries of the transaction tracker, no two
    positions of the waiter queues, and no entry together with a queue
    position hold the same future; and the three channels of every shared
    object are futures that exist and that neither tracker holds, so that
    a shared-object event never resolves a call or a status wait. *)
Theorem X20_futures_held_once (E : Externals) (ops : list Op) :
  let st := run E ops init in
  (forall ms_id trans_id ms_id' trans_id' d,
      tracked ms_id trans_id (call_tracker st) = Some d ->
      tracked ms_id' trans_id' (call_tracker st) = Some d ->
      ms_id = ms_id' /\ trans_id = trans_id')
  /\ (forall key, NoDup (waiters key (events st)).*2)
  /\ (forall key key' d,
        d ∈ (waiters key (events st)).*2 ->
        d ∈ (waiters key' (events st)).*2 -> key = key')
  /\ (forall ms_id trans_id key d,
        tracked ms_id trans_id (call_tracker st) = Some d ->
        d ∉ (waiters key (events st)).*2)
  /\ (forall o so d,
        so_store st !! o = Some so ->
        d ∈ [so_readyd so; so_deleted so; so_changed so] ->
        d < length (heap st) /\ ~ held st d).
Proof.
  intros st. destruct (reachable_inv E ops) as ((_ & H) & _). exact H.
Qed.

(** X21: an [onStatus] command must carry exactly the placeholder and the
    status object.  When the reactor reaches a scheduled [onStatus] whose
    arguments are fewer or more, the handler cannot be called: a type
    error is raised to the reactor, no waiter is taken off any queue and
    no future is touched, and the delayed call counts as fired.  With
    exactly the two arguments the status object is dispatched to the
    waiters of the stream. *)
Theorem X21_onStatus_arity (E : Externals) (ts ms_id trans_id : Z)
    (args : list PyVal) (now : Z) (st : Proto) :
  let st' := final (doCommand ts ms_id "onStatus" trans_id args st) in
  let clid := length (reactor st) in
  let key := ccq_next_key (cc_queue st) in
  let st_run :=
    set_cc_queue
      {| ccq_pending := delete key (ccq_pending (cc_queue st'));
         ccq_next_key := key + 1 |}
      (set_reactor
         (reactor st ++
            [{| dc_status := CallFired; dc_call_key := key;
                dc_f := SchedHandlerWrapper H_onStatus ts ms_id trans_id args |}])
         st) in
  (length args <> 2 ->
   reactor_fire E clid now st' = Raise TypeError st_run
   /\ events st_run = events st /\ heap st_run = heap st
   /\ trace st_run = trace st)
  /\ (forall none_ info,
        args = [none_; info] ->
        reactor_fire E clid now st'
        = command_onStatus ts ms_id trans_id none_ info st_run).
Proof.
  intros st' clid key st_run.
  assert (Hfire : reactor_fire E clid now st'
                  = _handler_wrapper H_onStatus ts ms_id trans_id args st_run).
  { unfold st', doCommand. simpl.
    unfold reactor_fire. simpl. erewrite bind_Ok by reflexivity. simpl.
    unfold clid. rewrite lookup_app_r by lia. rewrite Nat.sub_diag. simpl.
    erewrite bind_Ok by reflexivity.
    unfold CancellableCallQueue._call_wrapper.
    erewrite bind_Ok by reflexivity. simpl. rewrite lookup_insert_eq.
    erewrite bind_Ok by reflexivity. simpl.
    f_equal. unfold st_run, set_cc_queue, set_reactor. simpl. f_equal.
    induction (reactor st) as [|x l IH]; [done|]. simpl. by rewrite IH. }
  split.
  - intros Hlen. split; [|done]. rewrite Hfire. simpl.
    destruct args as [|a [|b [|c l]]]; simpl in *; try done.
  - intros none_ info ->. by rewrite Hfire.
Qed.

(** X22: on every run of the protocol the keys of the call queue are
    below its counter, so [callLater] never reuses the key of a registered
    call, and two delayed calls that are both active never share a key, so
    a call that fires takes only its own entry out of the queue. *)
Theorem X22_call_keys_unique (E : Externals) (ops : list Op) :
  let st := run E ops init in
  (forall k c, ccq_pending (cc_queue st) !! k = Some c ->
               k < ccq_next_key (cc_queue st))
  /\ ccq_pending (cc_queue st) !! ccq_next_key (cc_queue st) = None
  /\ (forall clid clid' dc dc',
        reactor st !! clid = Some dc -> reactor st !! clid' = Some dc' ->
        dc_status dc = CallActive -> dc_status dc' = CallActive ->
        dc_call_key dc = dc_call_key dc' -> clid = clid').
Proof.
  intros st. destruct (reachable_inv E ops) as (_ & [Hq Hk] & _).
  fold st in Hq, Hk. split; [exact Hk|]. split.
  - destruct (ccq_pending (cc_queue st) !! ccq_next_key (cc_queue st)) eqn:H;
      [|done]. apply Hk in H. lia.
  - intros clid clid' dc dc' H H' Ha Ha' Heq.
    pose proof (Hq _ _ H Ha) as H1. pose proof (Hq _ _ H' Ha') as H2.
    rewrite Heq in H1. congruence.
Qed.

(** X23: a disconnection drops the pending entries but keeps the
    transaction counters, and nothing refuses a call afterwards.  On every
    run of the protocol, after [connectionLost] with a reason no pair has
    an entry and every stream's counter is where it was; a [callRemote]
    made then is sent with the id the stream would have used next, not
    with 1 again, and its future is tracked and unresolved.  [reset], by
    contrast, restarts the counters and keeps the entries, so that the
    first id handed out after it can be the id of an entry that is still
    pending. *)
Theorem X23_ids_across_disconnect (E : Externals) (ops : list Op)
    (reason : Exn) (ms_id : Z) (cmd : string) (args : list PyVal) :
  let st := run E ops init in
  let st1 := disconnected reason st in
  let st2 := final (callRemote E ms_id cmd args st1) in
  let d := length (heap st1) in
  EventDispatchProtocol.connectionLost (Some reason) st = Ok tt st1
  /\ (forall ms trans_id, tracked ms trans_id (call_tracker st1) = None)
  /\ (forall ms, next_id ms st1 = next_id ms st)
  /\ callRemote E ms_id cmd args st1 = Ok (Some d) st2
  /\ trace st2 = trace st1 ++
       [SendMessage 0 MSG_COMMAND ms_id
          (amf0_encode E (VStr cmd :: VInt (next_id ms_id st) :: args))]
  /\ tracked ms_id (next_id ms_id st) (call_tracker st2) = Some d
  /\ heap st2 !! d = Some Pending
  /\ forall t key d0,
       tracked key 1 t = Some d0 ->
       (DeferredTracker.next_trans key (DeferredTracker.reset t)).1 = 1%Z
       /\ tracked key 1 (DeferredTracker.reset t) = Some d0.
Proof.
  intros st st1 st2 d.
  destruct (reachable_ok E ops) as [Hok _]. fold st in Hok.
  destruct (reachable_ids_inv E ops) as [Hn _]. fold st in Hn.
  assert (Hn1 : forall ms, next_id ms st1 = next_id ms st) by done.
  assert (Hcall : callRemote E ms_id cmd args st1
                  = Ok (Some d) st2).
  { unfold st2. rewrite callRemote_eq; [reflexivity|].
    rewrite Hn1. specialize (Hn ms_id). lia. }
  split; [by apply connectionLost_eq|].
  split.
  { intros ms t. unfold tracked, st1. simpl. by rewrite lookup_empty. }
  split; [exact Hn1|]. split; [exact Hcall|].
  assert (Hst2 : st2 = final (callRemote E ms_id cmd args st1)) by done.
  rewrite callRemote_eq in Hst2
    by (rewrite Hn1; specialize (Hn ms_id); lia).
  simpl in Hst2. rewrite Hn1 in Hst2.
  split; [by rewrite Hst2|]. split.
  { rewrite Hst2. simpl. apply tracked_push_deferred. }
  split.
  { rewrite Hst2. simpl. unfold d. by rewrite lookup_app_r, Nat.sub_diag. }
  intros t key d0 Hd. split; [|exact Hd].
  unfold DeferredTracker.next_trans, DeferredTracker.reset. simpl.
  by rewrite lookup_empty.
Qed.

(** ** The further properties on the sample connection *)

Lemma X1_change_renews_channel_witness :
  SharedObject.onEvent demo_codec 0
    {| ev_type := SO_EVENT_TYPE_CHANGE; ev_data := "k" |} demo_st
  = Ok tt (renewed 0 5 set_so_changed demo_chat
             (LogOnChange (VStr "k") (VInt 1))
             (VTuple [VDeferred 6; VStr "k"; VInt 1]) demo_st).
Proof.
  exact (proj1 (X1_change_renews_channel demo_codec 0 demo_chat demo_st "k"
                  (VStr "k") (VInt 1) [] eq_refl eq_refl eq_refl)).
Defined.

Lemma X2_delete_renews_channel_witness :
  SharedObject.onEvent demo_codec 0
    {| ev_type := SO_EVENT_TYPE_DELETE; ev_data := "k" |} demo_st
  = Ok tt (renewed 0 4 set_so_deleted demo_chat (LogOnDelete (VStr "k"))
             (VTuple [VDeferred 6; VStr "k"]) demo_st).
Proof.
  destruct (X2_delete_renews_channel demo_codec 0 demo_chat demo_st "k"
              eq_refl eq_refl) as [H _].
  destruct (H (VStr "k")) as [H1 _]; [discriminate|reflexivity|exact H1].
Defined.

Lemma X3_inert_events_witness :
  SharedObject.onEvent demo_codec 0
    {| ev_type := SO_EVENT_TYPE_CLEAR; ev_data := "x" |} demo_st
  = Raise (AssertionError "Event data of clear must be empty") demo_st.
Proof.
  destruct (X3_inert_events demo_codec 0 demo_chat demo_st "x" eq_refl)
    as (_ & _ & H & _).
  destruct H as [H _]; [discriminate|exact H].
Defined.

Lemma X4_change_decode_failure_witness :
  SharedObject.onEvent demo_codec 0
    {| ev_type := SO_EVENT_TYPE_CHANGE; ev_data := "bad" |} demo_st
  = Ok tt (set_trace (trace demo_st ++
             [Log LWarning (LogDecodeFailed DecoderError)]) demo_st)
  /\ SharedObject.onEvent demo_codec 0
       {| ev_type := SO_EVENT_TYPE_CHANGE; ev_data := "" |} demo_st
     = Raise IndexError demo_st.
Proof.
  split.
  - exact (proj1 (X4_change_decode_failure demo_codec 0 demo_st "bad") eq_refl).
  - exact (proj2 (proj2 (X4_change_decode_failure demo_codec 0 demo_st ""))
             eq_refl).
Defined.

Lemma X5_shared_object_delivery_witness :
  doSharedObj demo_codec 0 1 "lobby" [use_success] demo_st
  = Ok tt (set_trace (trace demo_st ++
             [Log LWarning (LogUnknownSharedObject "lobby" [use_success])])
             demo_st)
  /\ doSharedObj demo_codec 0 1 "chat"
       [{| ev_type := SO_EVENT_TYPE_CLEAR; ev_data := "x" |}; use_success]
       demo_st
     = Raise (AssertionError "Event data of clear must be empty") demo_st.
Proof.
  split.
  - exact (proj1 (X5_shared_object_delivery demo_codec 0 1 "lobby" demo_st)
             [use_success] eq_refl).
  - exact (proj1 (proj2 (X5_shared_object_delivery demo_codec 0 1 "chat" demo_st))
             0 [] {| ev_type := SO_EVENT_TYPE_CLEAR; ev_data := "x" |}
             [use_success] demo_st
             (AssertionError "Event data of clear must be empty") demo_st
             eq_refl eq_refl eq_refl).
Defined.

Lemma X6_command_is_deferred_witness : command_handler "echo" = None.
Proof.
  destruct (X6_command_is_deferred demo_ext 0 3 "echo" 2 [] 0 init)
    as (_ & _ & _ & _ & H & _).
  apply H; discriminate.
Defined.

Lemma X8_cancel_one_call_witness :
  reactor_fire demo_ext 0 7
    (final (CancellableCallQueue.cancel 0 0 demo_st))
  = Ok tt (final (CancellableCallQueue.cancel 0 0 demo_st)).
Proof.
  destruct (X8_cancel_one_call demo_ext 0 0
              {| dc_status := CallActive; dc_call_key := 0;
                 dc_f := SchedHandlerWrapper H_onStatus 0 3 0 [VNone; play_start] |}
              7 demo_st eq_refl) as [H _].
  destruct (H eq_refl) as (H1 & _ & H2 & _).
  rewrite H1. exact H2.
Defined.

Lemma X11_resolved_once_witness :
  command__result 0 3 1 [VStr "ok"] (run demo_ext demo_ops init)
  = Ok tt (resolved 3 1 0 (Fulfilled (VTuple [VStr "ok"]))
             (run demo_ext demo_ops init))
  /\ heap (disconnected ConnectionDone (run demo_ext demo_ops init)) !! 0
     = Some (Failed ConnectionDone).
Proof.
  destruct (X11_resolved_once demo_ext demo_ops 0 3 1 [VStr "ok"]
              ConnectionDone 0 eq_refl) as [(H1 & _) (_ & H2 & _)].
  split; [exact H1|exact H2].
Defined.

Lemma X12_fresh_transaction_ids_witness :
  (1 <= 1 < next_id 3 (run demo_ext demo_ops init))%Z.
Proof.
  exact (proj1 (proj2 (X12_fresh_transaction_ids demo_ext demo_ops 3))
           1%Z 0 eq_refl).
Defined.

Lemma X13_status_fifo_general_witness :
  exists st',
    for_each [play_start]
      (fun info => StatusEventTracker.dispatch (None, 3%Z) info None) demo_st
    = Ok tt st'
    /\ waiters (None, 3%Z) (events st') = []
    /\ heap st' !! 1
       = Some (status_outcome (Some "NetStream.Play.Start") play_start).
Proof.
  destruct (X13_status_fifo_general (None, 3%Z) [play_start]
              [(Some "NetStream.Play.Start", 1)] demo_st)
    as (st' & H1 & H2 & H3 & _).
  - reflexivity.
  - apply NoDup_singleton.
  - repeat constructor.
  - simpl. lia.
  - exists st'. split; [exact H1|]. split; [exact H2|].
    exact (H3 0 _ _ _ eq_refl eq_refl).
Defined.

Lemma X14_unknown_method_is_ignored_witness :
  unknownCommandType demo_ext "nope" 0 3 4 [] 9 init
  = Ok (Returned VNone)
       (set_trace
          (trace init ++
             [Log LWarning (LogUnknownMethod "nope" []);
              Log LDebug
                (LogCallAborted
                   (CallAbortedException
                      ("unknown command " +:+ py_repr demo_ext (VStr "nope"))))])
          init).
Proof.
  exact (X14_unknown_method_is_ignored demo_ext "nope" 0 3 4 [] 9 init eq_refl).
Defined.

Lemma X16_subscription_acknowledged_witness :
  Deferred.await 0
    (final (doSharedObj demo_ext 0 1 "chat" [use_success]
              (final (useSharedObject demo_ext 1 "chat" false 0 init))))
  = Ok (InlineReturned (VSharedObject 0))
       (final (doSharedObj demo_ext 0 1 "chat" [use_success]
                 (final (useSharedObject demo_ext 1 "chat" false 0 init)))).
Proof.
  destruct (X16_subscription_acknowledged demo_ext 1 "chat" false 0 0 1 init
              eq_refl) as (_ & H1 & H2 & _).
  rewrite H1. exact H2.
Defined.

Lemma X17_release_after_use_witness :
  heap (final (releaseSharedObject demo_ext 1 "chat" 5
                 (final (useSharedObject demo_ext 1 "chat" true 0 init))))
  = heap (final (useSharedObject demo_ext 1 "chat" true 0 init)).
Proof.
  destruct (X17_release_after_use demo_ext 1 "chat" true 0 1 5 0 init eq_refl)
    as (H1 & _ & H2 & _).
  rewrite H1. exact H2.
Defined.

Lemma X18_push_pop_round_trip_witness :
  DeferredTracker.pop_deferred 3 1 (call_tracker init)
  = (None, call_tracker init).
Proof.
  destruct (X18_push_pop_round_trip 3 1 0 0 (call_tracker init))
    as (_ & _ & _ & _ & _ & H).
  apply H. reflexivity.
Defined.

Lemma X20_futures_held_once_witness :
  ~ held (run demo_ext demo_ops init) 5.
Proof.
  destruct (X20_futures_held_once demo_ext demo_ops) as (_ & _ & _ & _ & H).
  refine (proj2 (H 0 demo_chat 5 eq_refl _)).
  change (5 ∈ [3; 4; 5]).
  rewrite !elem_of_cons. auto.
Defined.

Lemma X21_onStatus_arity_witness :
  reactor_fire demo_ext 0 7 (final (doCommand 0 3 "onStatus" 0 [VNone] init))
  = Raise TypeError
      (set_cc_queue {| ccq_pending := ∅; ccq_next_key := 1 |}
         (set_reactor
            [{| dc_status := CallFired; dc_call_key := 0;
                dc_f := SchedHandlerWrapper H_onStatus 0 3 0 [VNone] |}] init)).
Proof.
  destruct (X21_onStatus_arity demo_ext 0 3 0 [VNone] 7 init) as [H _].
  destruct H as [H _]; [simpl; lia|].
  exact H.
Defined.

Lemma X22_call_keys_unique_witness :
  1 < ccq_next_key (cc_queue (run demo_ext demo_ops init)).
Proof.
  exact (proj1 (X22_call_keys_unique demo_ext demo_ops) 1 1 eq_refl).
Defined.

Lemma X23_ids_across_disconnect_witness :
  (DeferredTracker.next_trans 3
     (DeferredTracker.reset (call_tracker demo_st))).1 = 1%Z
  /\ tracked 3 1 (DeferredTracker.reset (call_tracker demo_st)) = Some 0.
Proof.
  destruct (X23_ids_across_disconnect demo_ext [] ConnectionDone 3 "play" [])
    as (_ & _ & _ & _ & _ & _ & _ & H).
  exact (H (call_tracker demo_st) 3%Z 0 eq_refl).
Defined.
